(** * Unrestricted Hartree-Fock with DIIS: the tutorial program, embedded

    Source: Tutorials/03_Hartree-Fock/3c_unrestricted-hartree-fock.ipynb

    The notebook's code cells are translated to Rocq functions, one per
    Python function or cell.  NumPy's float64 numbers are modelled by exact
    rational numbers [Q]: every arithmetic operation is the exact one, so
    rounding is not part of the model.  Arrays are lists (a matrix is the
    list of its rows), indexed from 0 as in the source.  The NumPy routines
    whose result is not determined by exact arithmetic, [np.linalg.eigh],
    [np.linalg.solve] and the square root [x ** 0.5], are fields of the
    record [numlib] and are left abstract: in float64, [np.linalg.solve]
    factorizes with rounding, so that whether it raises [LinAlgError] and
    which coefficients it returns is not a function of the determinant.
    The array operations are those of NumPy on arrays of matching shapes,
    which is what Psi4 delivers; where NumPy raises [ValueError] or Python
    [IndexError] on other shapes they read 0 outside an array or cut to the
    shorter one, and the theorems that depend on it state the shapes. *)

From Stdlib Require Import List Bool Arith Lia ZArith QArith Qabs Setoid Morphisms.
Import ListNotations.
Open Scope Q_scope.

(** ** Exceptions and results *)

(** The exceptions the notebook can raise: the two [raise Exception(...)]
    statements and NumPy's [LinAlgError] from [np.linalg.solve]. *)
Inductive exn : Type :=
| MemoryLimitExceeded   (* "Estimated memory utilization ... exceeds allotted memory limit" *)
| MaxIterExceeded       (* "Maximum number of SCF iterations exceeded." *)
| LinAlgError.          (* numpy.linalg.LinAlgError: Singular matrix *)

Inductive result (T : Type) : Type :=
| Ok (x : T)
| Raised (e : exn).
Arguments Ok {T} x.
Arguments Raised {T} e.

(** ** Arrays *)

Abbreviation vec := (list Q).
Abbreviation mat := (list (list Q)).
Abbreviation tensor4 := (list (list (list (list Q)))).

Definition nrows (X : mat) : nat := length X.            (* X.shape[0] *)
Definition ncols (X : mat) : nat := length (hd [] X).    (* X.shape[1] *)

Definition vget (v : vec) (i : nat) : Q := nth i v 0.
Definition mget (X : mat) (i j : nat) : Q := nth j (nth i X []) 0.
Definition tget (T : tensor4) (p q r s : nat) : Q :=
  nth s (nth r (nth q (nth p T []) []) []) 0.

(** Shapes.  An ndarray is rectangular; [is_mat n m X] says that [X] has
    shape (n, m), [is_tensor4 n T] that [T] has shape (n, n, n, n). *)
Definition is_mat (n m : nat) (X : mat) : Prop :=
  length X = n /\ Forall (fun row => length row = m) X.
Definition is_tensor4 (n : nat) (T : tensor4) : Prop :=
  length T = n /\
  Forall (fun Tp => length Tp = n /\
    Forall (fun Tpq => length Tpq = n /\
      Forall (fun Tpqr => length Tpqr = n) Tpq) Tp) T.

(** Equality of arrays up to the equality [==] of rationals. *)
Definition vec_eq : vec -> vec -> Prop := Forall2 Qeq.
Definition mat_eq : mat -> mat -> Prop := Forall2 vec_eq.

(** [tabulate n f] is [[f 0; ...; f (n-1)]]. *)
Definition tabulate {T : Type} (n : nat) (f : nat -> T) : list T :=
  map f (seq 0 n).
Definition mk_mat (n m : nat) (f : nat -> nat -> Q) : mat :=
  tabulate n (fun i => tabulate m (fun j => f i j)).

(** [Qsum n f] is f 0 + ... + f (n-1). *)
Fixpoint Qsum (n : nat) (f : nat -> Q) : Q :=
  match n with
  | O => 0
  | S k => Qsum k f + f k
  end.

Fixpoint zip_with {T U V : Type} (f : T -> U -> V) (l : list T) (l' : list U)
  : list V :=
  match l, l' with
  | x :: t, y :: t' => f x y :: zip_with f t t'
  | _, _ => []
  end.

(** Element-wise operations of arrays of one shape: [X + Y], [X - Y],
    [c * X], [X ** 2], [np.zeros_like(X)].  On two arrays of different
    shapes, where NumPy broadcasts or raises [ValueError], [madd] and [msub]
    cut to the shorter array: they are NumPy's only on equal shapes. *)
Definition madd (X Y : mat) : mat := zip_with (zip_with Qplus) X Y.
Definition msub (X Y : mat) : mat := zip_with (zip_with Qminus) X Y.
Definition mscale (c : Q) (X : mat) : mat := map (map (Qmult c)) X.
Definition msquare (X : mat) : mat := map (map (fun x => x * x)) X.
Definition zeros_like (X : mat) : mat := map (map (fun _ => 0)) X.

(** [X.dot(Y)]: the matrix product of an (n, k) by a (k, m) array.  The
    operations are total: where NumPy raises on arrays of unequal shapes,
    they read 0 outside an array or cut to the shorter one; the arrays of
    the program all have the shape (nbf, nbf). *)
Definition dot (X Y : mat) : mat :=
  mk_mat (nrows X) (ncols Y)
    (fun i j => Qsum (ncols X) (fun l => mget X i l * mget Y l j)).

(** [X.T], used only to state symmetry. *)
Definition transpose (X : mat) : mat :=
  mk_mat (ncols X) (nrows X) (fun i j => mget X j i).
Definition symmetric (X : mat) : Prop := mat_eq (transpose X) X.

(** [np.einsum('pi,qi->pq', X, Y)] *)
Definition einsum_pi_qi_pq (X Y : mat) : mat :=
  mk_mat (nrows X) (nrows Y)
    (fun p q => Qsum (ncols X) (fun i => mget X p i * mget Y q i)).

(** [np.einsum('ij,ij->', X, Y)] and [np.einsum('pq,pq->', X, Y)], for [Y]
    of the shape of [X]. *)
Definition einsum_ij_ij (X Y : mat) : Q :=
  Qsum (nrows X) (fun i => Qsum (ncols X) (fun j => mget X i j * mget Y i j)).

(** The shape of a rank-4 array, axis by axis. *)
Definition tdim0 (T : tensor4) : nat := length T.
Definition tdim1 (T : tensor4) : nat := length (hd [] T).
Definition tdim2 (T : tensor4) : nat := length (hd [] (hd [] T)).
Definition tdim3 (T : tensor4) : nat := length (hd [] (hd [] (hd [] T))).

(** [np.einsum('pqrs,rs->pq', T, D)]: the Coulomb contraction, for [D] of
    the shape of the last two axes of [T] (NumPy raises [ValueError] on
    other shapes, the sum here reads 0 outside [D]). *)
Definition einsum_pqrs_rs_pq (T : tensor4) (D : mat) : mat :=
  mk_mat (tdim0 T) (tdim1 T)
    (fun p q => Qsum (tdim2 T) (fun r => Qsum (tdim3 T) (fun s =>
       tget T p q r s * mget D r s))).

(** [np.einsum('prqs,rs->pq', T, D)]: the exchange contraction; the axes of
    [T] are labelled p, r, q, s in this order. *)
Definition einsum_prqs_rs_pq (T : tensor4) (D : mat) : mat :=
  mk_mat (tdim0 T) (tdim2 T)
    (fun p q => Qsum (tdim1 T) (fun r => Qsum (tdim3 T) (fun s =>
       tget T p r q s * mget D r s))).

(** [np.mean(X)]: the sum of all entries over their number.  (For an array
    without entries NumPy gives nan; the quotient is 0 here.) *)
Definition Qsum_list (l : list Q) : Q := fold_right Qplus 0 l.
Definition mean (X : mat) : Q :=
  Qsum_list (concat X) / inject_Z (Z.of_nat (length (concat X))).

Definition Qltb (x y : Q) : bool := negb (Qle_bool y x).   (* x < y *)

(** ** Array assignment, for the construction of B *)

Fixpoint set_nth {T : Type} (i : nat) (x : T) (l : list T) : list T :=
  match l, i with
  | [], _ => []
  | _ :: t, O => x :: t
  | y :: t, S k => y :: set_nth k x t
  end.

Definition mset (i j : nat) (x : Q) (X : mat) : mat :=      (* X[i, j] = x *)
  set_nth i (set_nth j x (nth i X [])) X.
Definition set_row (i : nat) (x : Q) (X : mat) : mat :=     (* X[i, :] = x *)
  set_nth i (map (fun _ => x) (nth i X [])) X.
Definition set_col (j : nat) (x : Q) (X : mat) : mat :=     (* X[:, j] = x *)
  map (set_nth j x) X.

(** ** Determinants and the exact solution of a linear system *)

Fixpoint remove_nth {T : Type} (j : nat) (l : list T) : list T :=
  match l, j with
  | [], _ => []
  | _ :: t, O => t
  | y :: t, S k => y :: remove_nth k t
  end.

(** The minor of [B] without row 0 and column [j]. *)
Definition minor0 (j : nat) (B : mat) : mat := map (remove_nth j) (tl B).

Definition sign (j : nat) : Q := if Nat.even j then 1 else -(1).

(** The determinant of an n-by-n matrix, expanded along its first row. *)
Fixpoint det_n (n : nat) (B : mat) : Q :=
  match n with
  | O => 1
  | S k => Qsum (S k) (fun j => sign j * mget B 0 j * det_n k (minor0 j B))
  end.
Definition det (B : mat) : Q := det_n (nrows B) B.

(** [B] with its column [j] replaced by the vector [v]. *)
Definition replace_col (j : nat) (v : vec) (B : mat) : mat :=
  zip_with (fun row x => set_nth j x row) B v.

(** The solution of [B x = rhs] in exact arithmetic by Cramer's rule, when
    the determinant is not zero. *)
Definition cramer (B : mat) (rhs : vec) : option vec :=
  let d := det B in
  if Qeq_bool d 0 then None
  else Some (tabulate (nrows B) (fun j => det (replace_col j rhs B) / d)).

(** [x] satisfies the equations [B x = rhs] in exact arithmetic. *)
Definition solves (B : mat) (x rhs : vec) : Prop :=
  forall i, (i < nrows B)%nat ->
    Qsum (nrows B) (fun j => mget B i j * vget x j) == vget rhs i.

(** ** The NumPy routines that are left abstract *)

(** [np.linalg.eigh], which returns the eigenvalues in ascending order and
    the matrix whose columns are the corresponding eigenvectors; the square
    root [x ** 0.5]; and [gesv], the LAPACK routine behind
    [np.linalg.solve]: it returns the computed solution, or nothing when
    the factorization meets a pivot that is exactly zero.  Of [gesv] only
    this much is taken for granted: a solution has one entry for each row
    of the matrix, and the 1-by-1 zero matrix, whose only pivot is zero,
    has none.  Nothing relates the result to the determinant: with
    rounding, the factorization of a singular matrix need not meet a zero
    pivot, and the computed solution of a regular system need not be the
    exact one. *)
Record numlib : Type := {
  eigh : mat -> vec * mat;
  sqrt_half : Q -> Q;
  gesv : mat -> vec -> option vec;
  gesv_shape : forall B rhs x, gesv B rhs = Some x -> length x = nrows B;
  gesv_zero : forall rhs, gesv [[0]] rhs = None
}.

(** [np.linalg.solve(B, rhs)]: the solution of [gesv], or [LinAlgError]. *)
Definition solve (np : numlib) (B : mat) (rhs : vec) : result vec :=
  match gesv np B rhs with
  | Some x => Ok x
  | None => Raised LinAlgError
  end.

(** ** diis_xtrap *)

(** The double loop [for i in range(n): for j in range(n): B[i, j] = ...],
    for a list [DIIS_RESID] of at least [n] arrays of one shape, as in every
    call of the program (on a shorter list Python raises [IndexError];
    [nth] reads an empty array there). *)
Definition fill_B (n : nat) (DIIS_RESID : list mat) (B : mat) : mat :=
  fold_left (fun B i =>
    fold_left (fun B j =>
      mset i j (einsum_ij_ij (nth i DIIS_RESID []) (nth j DIIS_RESID [])) B)
      (seq 0 n) B)
    (seq 0 n) B.

Definition build_B (F_list DIIS_RESID : list mat) : mat :=
  let B_dim := (length F_list + 1)%nat in
  let B := mk_mat B_dim B_dim (fun _ _ => 0) in    (* np.empty((B_dim, B_dim)) *)
  let B := set_row (B_dim - 1) (-(1)) B in         (* B[-1, :] = -1 *)
  let B := set_col (B_dim - 1) (-(1)) B in         (* B[:, -1] = -1 *)
  let B := mset (B_dim - 1) (B_dim - 1) 0 B in     (* B[-1, -1] = 0 *)
  fill_B (length F_list) DIIS_RESID B.

Definition build_rhs (B_dim : nat) : vec :=
  set_nth (B_dim - 1) (-(1)) (tabulate B_dim (fun _ => 0)).

(** The loop [for x in range(coeff.shape[0] - 1): F_DIIS += coeff[x] * F_list[x]]. *)
Definition combine_F (coeff : vec) (F_list : list mat) (F_DIIS : mat) : mat :=
  fold_left (fun F_DIIS x => madd F_DIIS (mscale (vget coeff x) (nth x F_list [])))
    (seq 0 (length coeff - 1)) F_DIIS.

Definition diis_xtrap (np : numlib) (F_list DIIS_RESID : list mat)
  : result mat :=
  let B_dim := (length F_list + 1)%nat in
  let B := build_B F_list DIIS_RESID in
  let rhs := build_rhs B_dim in
  match solve np B rhs with
  | Raised e => Raised e
  | Ok coeff =>
      let F_DIIS := zeros_like (nth 0 F_list []) in
      Ok (combine_F coeff F_list F_DIIS)
  end.

(** ** The environment of the notebook *)

(** What Psi4 delivers for the molecule and the basis set (cell 10 and
    cell 12): the calls of [wfn] and [mints] and their values.  The
    matrices of [mints] are square of side [nso] and the tensor has four
    axes of that length ([well_shaped] below); the record does not enforce
    it. *)
Record psi4 : Type := {
  nso : nat;                         (* wfn.nso() *)
  wfn_nalpha : nat;                  (* wfn.nalpha() *)
  wfn_nbeta : nat;                   (* wfn.nbeta() *)
  ao_overlap : mat;                  (* mints.ao_overlap() *)
  ao_eri : tensor4;                  (* mints.ao_eri() *)
  ao_kinetic : mat;                  (* mints.ao_kinetic() *)
  ao_potential : mat;                (* mints.ao_potential() *)
  ao_overlap_power : mat;            (* mints.ao_overlap() after .power(-0.5, 1.e-16) *)
  nuclear_repulsion_energy : Q       (* mol.nuclear_repulsion_energy() *)
}.

(** The options of cell 6 and cell 8. *)
Record options : Type := {
  numpy_memory : Q;
  MAXITER : nat;
  E_conv : Q;
  D_conv : Q
}.

(** The static quantities of cell 10.  [S_ovlp] is the source's [S] and
    [I_eri] the source's [I]. *)
Record statics : Type := {
  S_ovlp : mat;
  nbf : nat;
  nalpha : nat;
  nbeta : nat;
  ndocc : nat;
  I_eri : tensor4;
  H : mat;
  A : mat
}.

(** What the program does that can be observed: the calls of Psi4 and the
    printed lines, in order. *)
Inductive event : Type :=
| EvWavefunctionBuild
| EvMintsHelper
| EvAoOverlap
| EvPrintSizes (nbf nsocc ndocc : nat)
| EvPrintEriSize (I_size : Q)
| EvClean
| EvAoEri
| EvAoKinetic
| EvAoPotential
| EvPower
| EvNuclearRepulsion
| EvPrintStart
| EvPrintIter (scf_iter : nat) (SCF_E dE dRMS : Q)
| EvPrintConverged
| EvPrintFinal (SCF_E : Q).

(** A cell is a computation that appends to the trace of events and either
    returns a value or raises. *)
Definition io (T : Type) : Type := list event -> list event * result T.

Definition ret {T : Type} (x : T) : io T := fun tr => (tr, Ok x).
Definition raise {T : Type} (e : exn) : io T := fun tr => (tr, Raised e).
Definition emit (ev : event) : io unit := fun tr => (tr ++ [ev], Ok tt).
Definition bind {T U : Type} (c : io T) (k : T -> io U) : io U :=
  fun tr =>
    match c tr with
    | (tr', Ok x) => k x tr'
    | (tr', Raised e) => (tr', Raised e)
    end.

Declare Scope io_scope.
Delimit Scope io_scope with io.
Notation "x <- c ;; k" := (bind c (fun x => k))
  (at level 61, c at next level, right associativity) : io_scope.
Notation "c ;;; k" := (bind c (fun _ => k))
  (at level 61, right associativity) : io_scope.

(** ** diag_F *)

Definition diag_F (np : numlib) (sq : statics) (F : mat) (norb : nat)
  : mat * mat :=
  let F_p := dot (dot (A sq) F) (A sq) in
  let '(e, C_p) := eigh np F_p in
  let C := dot (A sq) C_p in
  let C_occ := map (firstn norb) C in                 (* C[:, :norb] *)
  let D := einsum_pi_qi_pq C_occ C_occ in
  (C, D).

(** ** Cell 10: the static quantities *)

Definition eri_size (n : nat) : Q :=                  (* (nbf**4) * 8.e-9 *)
  inject_Z (Z.of_nat (n ^ 4)) * (8 # 1000000000).

Definition setup (opt : options) (psi : psi4) : io statics :=
  (emit EvWavefunctionBuild ;;;
   emit EvMintsHelper ;;;
   emit EvAoOverlap ;;;
   let S := ao_overlap psi in
   let nbf := nso psi in
   let nalpha := wfn_nalpha psi in
   let nbeta := wfn_nbeta psi in
   let ndocc := Nat.min nalpha nbeta in
   emit (EvPrintSizes nbf (Nat.max nalpha nbeta - Nat.min nalpha nbeta) ndocc) ;;;
   let I_size := eri_size nbf in
   emit (EvPrintEriSize I_size) ;;;
   (if Qltb (numpy_memory opt) I_size
    then emit EvClean ;;; raise MemoryLimitExceeded
    else ret tt) ;;;
   emit EvAoEri ;;;
   let I := ao_eri psi in
   emit EvAoKinetic ;;;
   let T := ao_kinetic psi in
   emit EvAoPotential ;;;
   let V := ao_potential psi in
   let H := madd T V in                               (* T, V of one shape *)
   emit EvAoOverlap ;;;
   emit EvPower ;;;
   let A := ao_overlap_power psi in
   ret {| S_ovlp := S; nbf := nbf; nalpha := nalpha; nbeta := nbeta;
          ndocc := ndocc; I_eri := I; H := H; A := A |})%io.

(** ** The variables of the SCF loop *)

(** The global variables that cells 12, 14 and 16 assign.  [out] collects
    what the loop prints.  The variables that Python defines only in the
    first pass of the loop ([Fa], [Fb], [diis_r_a], [diis_r_b], [dE],
    [dRMS]) hold an empty array or 0 before it. *)
Record scf_state : Type := {
  Ca : mat; Da : mat; Cb : mat; Db : mat;
  E_nuc : Q;
  SCF_E : Q; E_old : Q;
  F_list_a : list mat; F_list_b : list mat;
  R_list_a : list mat; R_list_b : list mat;
  Fa : mat; Fb : mat;
  diis_r_a : mat; diis_r_b : mat;
  dE : Q; dRMS : Q;
  out : list event
}.

Definition set_E_old (x : Q) (st : scf_state) : scf_state :=
  {| Ca := Ca st; Da := Da st; Cb := Cb st; Db := Db st; E_nuc := E_nuc st;
     SCF_E := SCF_E st; E_old := x;
     F_list_a := F_list_a st; F_list_b := F_list_b st;
     R_list_a := R_list_a st; R_list_b := R_list_b st;
     Fa := Fa st; Fb := Fb st; diis_r_a := diis_r_a st; diis_r_b := diis_r_b st;
     dE := dE st; dRMS := dRMS st; out := out st |}.

Definition set_Fa (X : mat) (st : scf_state) : scf_state :=
  {| Ca := Ca st; Da := Da st; Cb := Cb st; Db := Db st; E_nuc := E_nuc st;
     SCF_E := SCF_E st; E_old := E_old st;
     F_list_a := F_list_a st; F_list_b := F_list_b st;
     R_list_a := R_list_a st; R_list_b := R_list_b st;
     Fa := X; Fb := Fb st; diis_r_a := diis_r_a st; diis_r_b := diis_r_b st;
     dE := dE st; dRMS := dRMS st; out := out st |}.

Definition set_Fb (X : mat) (st : scf_state) : scf_state :=
  {| Ca := Ca st; Da := Da st; Cb := Cb st; Db := Db st; E_nuc := E_nuc st;
     SCF_E := SCF_E st; E_old := E_old st;
     F_list_a := F_list_a st; F_list_b := F_list_b st;
     R_list_a := R_list_a st; R_list_b := R_list_b st;
     Fa := Fa st; Fb := X; diis_r_a := diis_r_a st; diis_r_b := diis_r_b st;
     dE := dE st; dRMS := dRMS st; out := out st |}.

Definition set_CDa (CD : mat * mat) (st : scf_state) : scf_state :=
  {| Ca := fst CD; Da := snd CD; Cb := Cb st; Db := Db st; E_nuc := E_nuc st;
     SCF_E := SCF_E st; E_old := E_old st;
     F_list_a := F_list_a st; F_list_b := F_list_b st;
     R_list_a := R_list_a st; R_list_b := R_list_b st;
     Fa := Fa st; Fb := Fb st; diis_r_a := diis_r_a st; diis_r_b := diis_r_b st;
     dE := dE st; dRMS := dRMS st; out := out st |}.

Definition set_CDb (CD : mat * mat) (st : scf_state) : scf_state :=
  {| Ca := Ca st; Da := Da st; Cb := fst CD; Db := snd CD; E_nuc := E_nuc st;
     SCF_E := SCF_E st; E_old := E_old st;
     F_list_a := F_list_a st; F_list_b := F_list_b st;
     R_list_a := R_list_a st; R_list_b := R_list_b st;
     Fa := Fa st; Fb := Fb st; diis_r_a := diis_r_a st; diis_r_b := diis_r_b st;
     dE := dE st; dRMS := dRMS st; out := out st |}.

Definition add_out (ev : event) (st : scf_state) : scf_state :=
  {| Ca := Ca st; Da := Da st; Cb := Cb st; Db := Db st; E_nuc := E_nuc st;
     SCF_E := SCF_E st; E_old := E_old st;
     F_list_a := F_list_a st; F_list_b := F_list_b st;
     R_list_a := R_list_a st; R_list_b := R_list_b st;
     Fa := Fa st; Fb := Fb st; diis_r_a := diis_r_a st; diis_r_b := diis_r_b st;
     dE := dE st; dRMS := dRMS st; out := out st ++ [ev] |}.

(** ** Cells 12, 14 and the head of cell 16: the state before the loop *)

Definition pre_iteration (np : numlib) (psi : psi4) (sq : statics) : scf_state :=
  let '(Ca, Da) := diag_F np sq (H sq) (nalpha sq) in
  let '(Cb, Db) := diag_F np sq (H sq) (nbeta sq) in
  let E_nuc := nuclear_repulsion_energy psi in
  let SCF_E := 0 in
  let E_old := 0 in
  {| Ca := Ca; Da := Da; Cb := Cb; Db := Db; E_nuc := E_nuc;
     SCF_E := SCF_E; E_old := E_old;
     F_list_a := []; F_list_b := []; R_list_a := []; R_list_b := [];
     Fa := []; Fb := []; diis_r_a := []; diis_r_b := [];
     dE := 0; dRMS := 0; out := [EvPrintStart] |}.

(** ** Cell 16: one pass of the loop *)

(** From the Fock build to the [print] of the iteration. *)
Definition scf_head (np : numlib) (sq : statics) (scf_iter : nat)
  (st : scf_state) : scf_state :=
  let Ja := einsum_pqrs_rs_pq (I_eri sq) (Da st) in
  let Jb := einsum_pqrs_rs_pq (I_eri sq) (Db st) in
  let Ka := einsum_prqs_rs_pq (I_eri sq) (Da st) in
  let Kb := einsum_prqs_rs_pq (I_eri sq) (Db st) in
  let Fa := msub (madd (H sq) (madd Ja Jb)) Ka in
  let Fb := msub (madd (H sq) (madd Ja Jb)) Kb in
  let diis_r_a :=
    dot (dot (A sq) (msub (dot (dot Fa (Da st)) (S_ovlp sq))
                          (dot (dot (S_ovlp sq) (Da st)) Fa))) (A sq) in
  let diis_r_b :=
    dot (dot (A sq) (msub (dot (dot Fb (Db st)) (S_ovlp sq))
                          (dot (dot (S_ovlp sq) (Db st)) Fb))) (A sq) in
  let F_list_a := F_list_a st ++ [Fa] in
  let F_list_b := F_list_b st ++ [Fb] in
  let R_list_a := R_list_a st ++ [diis_r_a] in
  let R_list_b := R_list_b st ++ [diis_r_b] in
  let SCF_E := einsum_ij_ij (madd (Da st) (Db st)) (H sq) in
  let SCF_E := SCF_E + einsum_ij_ij (Da st) Fa in
  let SCF_E := SCF_E + einsum_ij_ij (Db st) Fb in
  let SCF_E := SCF_E * (1 # 2) in
  let SCF_E := SCF_E + E_nuc st in
  let dE := SCF_E - E_old st in
  let dRMS := (1 # 2) * (sqrt_half np (mean (msquare diis_r_a))
                         + sqrt_half np (mean (msquare diis_r_b))) in
  {| Ca := Ca st; Da := Da st; Cb := Cb st; Db := Db st; E_nuc := E_nuc st;
     SCF_E := SCF_E; E_old := E_old st;
     F_list_a := F_list_a; F_list_b := F_list_b;
     R_list_a := R_list_a; R_list_b := R_list_b;
     Fa := Fa; Fb := Fb; diis_r_a := diis_r_a; diis_r_b := diis_r_b;
     dE := dE; dRMS := dRMS;
     out := out st ++ [EvPrintIter scf_iter SCF_E dE dRMS] |}.

(** The test [(abs(dE) < E_conv) and (dRMS < D_conv)]. *)
Definition converged (opt : options) (st : scf_state) : bool :=
  Qltb (Qabs (dE st)) (E_conv opt) && Qltb (dRMS st) (D_conv opt).

(** How a pass of the loop ends: at the end of its body, by [break], or by
    an exception. *)
Inductive signal : Type :=
| Next (st : scf_state)
| Break (st : scf_state)
| Raise (e : exn) (st : scf_state).

(** The DIIS extrapolation: [if scf_iter >= 2: Fa = ...; Fb = ...]. *)
Definition diis_step (np : numlib) (scf_iter : nat) (st : scf_state)
  : signal :=
  if (2 <=? scf_iter)%nat then
    match diis_xtrap np (F_list_a st) (R_list_a st) with
    | Raised e => Raise e st
    | Ok Fa' =>
        let st := set_Fa Fa' st in
        match diis_xtrap np (F_list_b st) (R_list_b st) with
        | Raised e => Raise e st
        | Ok Fb' => Next (set_Fb Fb' st)
        end
    end
  else Next st.

(** The new orbital guess and the test of [MAXITER]. *)
Definition orbital_step (np : numlib) (opt : options) (sq : statics)
  (scf_iter : nat) (st : scf_state) : signal :=
  let st := set_CDa (diag_F np sq (Fa st) (nalpha sq)) st in
  let st := set_CDb (diag_F np sq (Fb st) (nbeta sq)) st in
  if (scf_iter =? MAXITER opt)%nat
  then Raise MaxIterExceeded (add_out EvClean st)
  else Next st.

(** The body after the convergence check. *)
Definition scf_tail (np : numlib) (opt : options) (sq : statics)
  (scf_iter : nat) (st : scf_state) : signal :=
  let st := set_E_old (SCF_E st) st in
  match diis_step np scf_iter st with
  | Next st => orbital_step np opt sq scf_iter st
  | other => other
  end.

Definition scf_body (np : numlib) (opt : options) (sq : statics)
  (scf_iter : nat) (st : scf_state) : signal :=
  let st := scf_head np sq scf_iter st in
  if converged opt st then Break st
  else scf_tail np opt sq scf_iter st.

(** ** Cell 16: the loop *)

(** How the loop ends: [Broke k st] by [break] in pass [k], [Exhausted st]
    when [range] is used up, [Failed k e st] by exception [e] in pass [k]. *)
Inductive outcome : Type :=
| Broke (scf_iter : nat) (st : scf_state)
| Exhausted (st : scf_state)
| Failed (scf_iter : nat) (e : exn) (st : scf_state).

(** [for scf_iter in range(scf_iter, scf_iter + todo)] *)
Fixpoint scf_loop (np : numlib) (opt : options) (sq : statics)
  (todo : nat) (scf_iter : nat) (st : scf_state) : outcome :=
  match todo with
  | O => Exhausted st
  | S todo' =>
      match scf_body np opt sq scf_iter st with
      | Next st' => scf_loop np opt sq todo' (S scf_iter) st'
      | Break st' => Broke scf_iter st'
      | Raise e st' => Failed scf_iter e st'
      end
  end.

(** [for scf_iter in range(1, MAXITER+1)] from the state before the loop. *)
Definition scf_iterations (np : numlib) (opt : options) (psi : psi4)
  (sq : statics) : outcome :=
  scf_loop np opt sq (MAXITER opt) 1 (pre_iteration np psi sq).

(** ** The program *)

(** The cells in order; the value is the printed final UHF energy. *)
Definition uhf (np : numlib) (opt : options) (psi : psi4) : io Q :=
  (sq <- setup opt psi ;;
   emit EvNuclearRepulsion ;;;
   fun tr =>
     match scf_iterations np opt psi sq with
     | Broke _ st | Exhausted st =>
         (tr ++ out st ++ [EvPrintConverged; EvPrintFinal (SCF_E st)],
          Ok (SCF_E st))
     | Failed _ e st => (tr ++ out st, Raised e)
     end)%io.

Definition run (np : numlib) (opt : options) (psi : psi4)
  : list event * result Q := uhf np opt psi [].

(** The passes of the loop that were started, read off a trace. *)
Definition is_iter (ev : event) : bool :=
  match ev with EvPrintIter _ _ _ _ => true | _ => false end.
Definition iterations_run (tr : list event) : nat :=
  length (filter is_iter tr).

(** The numbers of the passes of the printed iteration lines, in order. *)
Definition iter_numbers (tr : list event) : list nat :=
  flat_map (fun ev => match ev with
                      | EvPrintIter scf_iter _ _ _ => [scf_iter]
                      | _ => []
                      end) tr.

(** The variables when the loop has ended. *)
Definition final_state (o : outcome) : scf_state :=
  match o with
  | Broke _ st | Exhausted st | Failed _ _ st => st
  end.

Definition signal_state (sg : signal) : scf_state :=
  match sg with
  | Next st | Break st | Raise _ st => st
  end.

(** The state at the start of pass [k] of the loop, when the loop gets
    there. *)
Inductive reaches (np : numlib) (opt : options) (psi : psi4) (sq : statics)
  : nat -> scf_state -> Prop :=
| reaches_first : reaches np opt psi sq 1 (pre_iteration np psi sq)
| reaches_next k st st' :
    reaches np opt psi sq k st ->
    scf_body np opt sq k st = Next st' ->
    reaches np opt psi sq (S k) st'.

(** The static quantities that [setup] returns when the memory check
    passes. *)
Definition statics_of (psi : psi4) : statics :=
  {| S_ovlp := ao_overlap psi; nbf := nso psi;
     nalpha := wfn_nalpha psi; nbeta := wfn_nbeta psi;
     ndocc := Nat.min (wfn_nalpha psi) (wfn_nbeta psi);
     I_eri := ao_eri psi;
     H := madd (ao_kinetic psi) (ao_potential psi);
     A := ao_overlap_power psi |}.

(** The events of cell 10 up to the memory check, and after it when it
    passes. *)
Definition events_before_check (psi : psi4) : list event :=
  [EvWavefunctionBuild; EvMintsHelper; EvAoOverlap;
   EvPrintSizes (nso psi)
     (Nat.max (wfn_nalpha psi) (wfn_nbeta psi)
      - Nat.min (wfn_nalpha psi) (wfn_nbeta psi))
     (Nat.min (wfn_nalpha psi) (wfn_nbeta psi));
   EvPrintEriSize (eri_size (nso psi))].
Definition events_after_check : list event :=
  [EvAoEri; EvAoKinetic; EvAoPotential; EvAoOverlap; EvPower].

(** ** The contractions in the words of the specification *)

(** The Coulomb contraction of the two-electron tensor with a density,
    J[p,q] = sum over r, s of (pq|rs) D[r,s], and the exchange contraction,
    K[p,q] = sum over r, s of (pr|qs) D[r,s], for M basis functions. *)
Definition coulomb (M : nat) (T : tensor4) (D : mat) (p q : nat) : Q :=
  Qsum M (fun r => Qsum M (fun s => tget T p q r s * mget D r s)).
Definition exchange (M : nat) (T : tensor4) (D : mat) (p q : nat) : Q :=
  Qsum M (fun r => Qsum M (fun s => tget T p r q s * mget D r s)).

(** What Psi4 delivers for [n] basis functions, [n] being positive: square
    matrices of side [n] and a tensor of shape (n, n, n, n).  On such
    arrays no operation of the program meets arrays of unequal shapes. *)
Definition well_shaped (n : nat) (psi : psi4) : Prop :=
  (0 < n)%nat /\ nso psi = n /\
  is_mat n n (ao_overlap psi) /\ is_mat n n (ao_kinetic psi) /\
  is_mat n n (ao_potential psi) /\ is_mat n n (ao_overlap_power psi) /\
  is_tensor4 n (ao_eri psi).

(** The symmetry of the repulsion integrals under the exchange of the two
    indices of the first pair and under the exchange of the two pairs,
    (pq|rs) = (qp|rs) = (rs|pq); the other equalities of the 8-fold
    symmetry follow from these two. *)
Definition eri_symmetric (n : nat) (T : tensor4) : Prop :=
  forall p q r s, (p < n)%nat -> (q < n)%nat -> (r < n)%nat -> (s < n)%nat ->
    tget T p q r s == tget T q p r s /\ tget T p q r s == tget T r s p q.

(** ** The exact solution as an instance of the linear solve *)

Lemma cramer_shape (B : mat) (rhs x : vec) :
  cramer B rhs = Some x -> length x = nrows B.
Proof.
  unfold cramer. destruct (Qeq_bool (det B) 0); [discriminate|].
  intros Hx. injection Hx as <-. unfold tabulate.
  rewrite length_map, length_seq. reflexivity.
Qed.

Lemma cramer_zero (rhs : vec) : cramer [[0]] rhs = None.
Proof. reflexivity. Qed.

(** ** Two concrete systems *)

(** A system of two orthonormal basis functions of different symmetry and
    two electrons, one of each spin.  Overlap and orthogonalizer are the
    identity, the core Hamiltonian is diagonal, and the only non-zero
    repulsion integrals are (00|00), (11|11), (00|11) = (11|00) and the
    exchange integrals (01|01) = (01|10) = (10|01) = (10|10), so that every
    Fock and density matrix of the run is diagonal.  All numbers are dyadic,
    hence the same in float64.  The routines of NumPy are given by their
    values on the arrays they are applied to below: the eigenvectors of a
    diagonal matrix, the square root of 0, and linear systems that are
    either singular with a pivot that is exactly zero (the residuals of the
    runs are zero, so that B is [[0, 0, -1], [0, 0, -1], [-1, -1, 0]]) or
    solved without rounding (small integers and powers of 2). *)
Module TwoLevel.

Definition identity2 : mat := [[1; 0]; [0; 1]].
Definition swap2 : mat := [[0; 1]; [1; 0]].

(** [np.linalg.eigh] on a diagonal 2-by-2 matrix: the diagonal entries in
    ascending order, with the unit vectors as eigenvectors. *)
Definition eigh_diag2 (F : mat) : vec * mat :=
  let a := mget F 0 0 in
  let d := mget F 1 1 in
  if Qle_bool a d then ([a; d], identity2) else ([d; a], swap2).

(** The square root.  In the runs of this module its argument is always
    0, the mean of the squares of a zero residual.  Elsewhere the function
    is the root of the squares of rationals; on other numbers it takes the
    integer roots of numerator and denominator, and 0 on negative numbers,
    which is not [x ** 0.5]. *)
Definition sqrt_exact (x : Q) : Q :=
  match Qnum (Qred x) with
  | Zpos n => Zpos (Pos.sqrt n) # Pos.sqrt (Qden (Qred x))
  | _ => 0
  end.

Definition np : numlib :=
  {| eigh := eigh_diag2; sqrt_half := sqrt_exact; gesv := cramer;
     gesv_shape := cramer_shape; gesv_zero := cramer_zero |}.

(** [eri j00 j11 j01 k01] is the tensor with (00|00) = j00, (11|11) = j11,
    (00|11) = j01 and (01|01) = k01. *)
Definition eri (j00 j11 j01 k01 : Q) : tensor4 :=
  [ [ [[j00; 0]; [0; j01]];  [[0; k01]; [k01; 0]] ];
    [ [[0; k01]; [k01; 0]];  [[j01; 0]; [0; j11]] ] ].

Definition molecule (j00 : Q) : psi4 :=
  {| nso := 2; wfn_nalpha := 1; wfn_nbeta := 1;
     ao_overlap := identity2;
     ao_eri := eri j00 2 (1 # 4) (1 # 8);
     ao_kinetic := [[1; 0]; [0; 2]];
     ao_potential := [[-(3); 0]; [0; -(3)]];
     ao_overlap_power := identity2;
     nuclear_repulsion_energy := 0 |}.

(** With (00|00) = 2 the occupied orbital changes in every pass; with
    (00|00) = 1/2 the core guess is self-consistent. *)
Definition flipping : psi4 := molecule 2.
Definition stable : psi4 := molecule (1 # 2).

(** The options of the notebook, and variants of them. *)
Definition defaults : options :=
  {| numpy_memory := 2; MAXITER := 40;
     E_conv := 1 # 1000000; D_conv := 1 # 1000 |}.
Definition one_pass : options :=
  {| numpy_memory := 2; MAXITER := 1;
     E_conv := 1 # 1000000; D_conv := 1 # 1000 |}.
Definition two_passes : options :=
  {| numpy_memory := 2; MAXITER := 2;
     E_conv := 1 # 1000000; D_conv := 1 # 1000 |}.
Definition bad_tolerances : options :=
  {| numpy_memory := 2; MAXITER := 40;
     E_conv := 0; D_conv := -(1 # 1000) |}.
Definition no_memory : options :=
  {| numpy_memory := 1 # 100000000; MAXITER := 40;
     E_conv := 1 # 1000000; D_conv := 1 # 1000 |}.

(** The variables of the flipping molecule at the start of the second
    pass, under the options of the notebook. *)
Definition second_pass : scf_state :=
  signal_state
    (scf_body np defaults (statics_of flipping) 1
       (pre_iteration np flipping (statics_of flipping))).

End TwoLevel.

(** ** Basic facts *)

Lemma Qltb_lt (x y : Q) : Qltb x y = true <-> x < y.
Proof.
  unfold Qltb. rewrite negb_true_iff. split.
  - intros Hb. apply Qnot_le_lt. intros Hle.
    apply Qle_bool_iff in Hle. congruence.
  - intros Hlt. destruct (Qle_bool y x) eqn:Hb; [|reflexivity].
    apply Qle_bool_iff in Hb. exfalso. exact (Qlt_not_le _ _ Hlt Hb).
Qed.

Lemma Qltb_false_of_le (x y : Q) : y <= x -> Qltb x y = false.
Proof.
  intros Hle. destruct (Qltb x y) eqn:Hb; [|reflexivity].
  apply Qltb_lt in Hb. exfalso. exact (Qlt_not_le _ _ Hb Hle).
Qed.

Lemma nth_tabulate {T : Type} (n : nat) (f : nat -> T) (i : nat) (d : T) :
  (i < n)%nat -> nth i (tabulate n f) d = f i.
Proof.
  intros Hi. unfold tabulate.
  rewrite (nth_indep _ d (f 0%nat)) by (rewrite length_map, length_seq; exact Hi).
  rewrite map_nth, seq_nth by exact Hi. reflexivity.
Qed.

Lemma length_tabulate {T : Type} (n : nat) (f : nat -> T) :
  length (tabulate n f) = n.
Proof. unfold tabulate. rewrite length_map, length_seq. reflexivity. Qed.

Lemma mget_mk_mat (n m : nat) (f : nat -> nat -> Q) (i j : nat) :
  (i < n)%nat -> (j < m)%nat -> mget (mk_mat n m f) i j = f i j.
Proof.
  intros Hi Hj. unfold mget, mk_mat.
  rewrite (nth_tabulate n _ i []) by exact Hi.
  apply nth_tabulate. exact Hj.
Qed.

Lemma is_mat_mk_mat (n m : nat) (f : nat -> nat -> Q) : is_mat n m (mk_mat n m f).
Proof.
  split.
  - apply length_tabulate.
  - unfold mk_mat, tabulate. apply Forall_forall. intros row Hin.
    apply in_map_iff in Hin. destruct Hin as [i [<- _]].
    rewrite length_map, length_seq. reflexivity.
Qed.

Lemma is_mat_row (n m : nat) (X : mat) (i : nat) :
  is_mat n m X -> (i < n)%nat -> length (nth i X []) = m.
Proof.
  intros [Hn Hrows] Hi. rewrite Forall_forall in Hrows.
  apply Hrows. apply nth_In. lia.
Qed.

Lemma is_mat_ncols (n m : nat) (X : mat) :
  is_mat n m X -> (0 < n)%nat -> ncols X = m.
Proof.
  intros HX Hn. unfold ncols.
  destruct X as [|row X]; [destruct HX as [HX _]; simpl in HX; lia|].
  exact (is_mat_row n m (row :: X) 0 HX Hn).
Qed.

Lemma nth_zip_with {T U V : Type} (f : T -> U -> V) (l : list T) (l' : list U)
  (i : nat) (d : V) (d1 : T) (d2 : U) :
  (i < length l)%nat -> (i < length l')%nat ->
  nth i (zip_with f l l') d = f (nth i l d1) (nth i l' d2).
Proof.
  revert l' i. induction l as [|x l IH]; intros [|y l'] [|i] Hl Hl';
    simpl in *; try lia; [reflexivity|].
  apply IH; lia.
Qed.

Lemma length_zip_with {T U V : Type} (f : T -> U -> V) (l : list T) (l' : list U) :
  length l = length l' -> length (zip_with f l l') = length l.
Proof.
  revert l'. induction l as [|x l IH]; intros [|y l'] Hlen; simpl in *;
    try lia. rewrite IH; lia.
Qed.

Lemma is_mat_zip_with (f : Q -> Q -> Q) (n m : nat) (X Y : mat) :
  is_mat n m X -> is_mat n m Y -> is_mat n m (zip_with (zip_with f) X Y).
Proof.
  intros [HnX HX] [HnY HY]. split.
  - rewrite length_zip_with; lia.
  - clear HnX HnY. revert Y HY. induction HX as [|row X Hrow HX IH];
      intros Y HY; simpl; [constructor|].
    destruct HY as [|row' Y Hrow' HY]; constructor.
    + rewrite length_zip_with; lia.
    + apply IH. exact HY.
Qed.

Lemma mget_zip_with (f : Q -> Q -> Q) (n m : nat) (X Y : mat) (i j : nat) :
  is_mat n m X -> is_mat n m Y -> (i < n)%nat -> (j < m)%nat ->
  mget (zip_with (zip_with f) X Y) i j = f (mget X i j) (mget Y i j).
Proof.
  intros HX HY Hi Hj. unfold mget.
  pose proof (is_mat_row n m X i HX Hi) as HrX.
  pose proof (is_mat_row n m Y i HY Hi) as HrY.
  destruct HX as [HnX _], HY as [HnY _].
  rewrite (nth_zip_with _ X Y i [] [] []) by lia.
  apply nth_zip_with; lia.
Qed.

Lemma Qsum_ext (n : nat) (f g : nat -> Q) :
  (forall i, (i < n)%nat -> f i = g i) -> Qsum n f = Qsum n g.
Proof.
  induction n as [|n IH]; intros Hfg; simpl; [reflexivity|].
  rewrite IH, Hfg; auto.
Qed.

Lemma Qsum_eq (n : nat) (f g : nat -> Q) :
  (forall i, (i < n)%nat -> f i == g i) -> Qsum n f == Qsum n g.
Proof.
  induction n as [|n IH]; intros Hfg; simpl; [reflexivity|].
  rewrite IH, Hfg; auto. reflexivity.
Qed.

(** ** Matrices up to [==] *)

Lemma vec_eq_length (u v : vec) : vec_eq u v -> length u = length v.
Proof. induction 1; simpl; congruence. Qed.

Lemma vec_eq_nth (u v : vec) (i : nat) : vec_eq u v -> nth i u 0 == nth i v 0.
Proof.
  intros Huv. revert i. induction Huv as [|x y u v Hxy Huv IH]; intros [|i];
    simpl; try reflexivity; auto.
Qed.

Lemma mat_eq_nrows (X Y : mat) : mat_eq X Y -> nrows X = nrows Y.
Proof. induction 1; unfold nrows in *; simpl; congruence. Qed.

Lemma mat_eq_ncols (X Y : mat) : mat_eq X Y -> ncols X = ncols Y.
Proof.
  intros [|u v X' Y' Huv _]; [reflexivity|]. exact (vec_eq_length u v Huv).
Qed.

Lemma mat_eq_mget (X Y : mat) (i j : nat) :
  mat_eq X Y -> mget X i j == mget Y i j.
Proof.
  intros HXY. unfold mget. apply vec_eq_nth. revert i.
  induction HXY as [|u v X Y Huv HXY IH]; intros [|i]; simpl;
    try constructor; auto.
Qed.

Lemma mat_eq_mk_mat (n m : nat) (f g : nat -> nat -> Q) :
  (forall i j, (i < n)%nat -> (j < m)%nat -> f i j == g i j) ->
  mat_eq (mk_mat n m f) (mk_mat n m g).
Proof.
  intros Hfg. unfold mk_mat, tabulate.
  assert (Hrows : forall l, (forall i, In i l -> (i < n)%nat) ->
            mat_eq (map (fun i => map (fun j => f i j) (seq 0 m)) l)
                   (map (fun i => map (fun j => g i j) (seq 0 m)) l)).
  { induction l as [|i l IH]; intros Hl; simpl; constructor.
    - assert (Hcols : forall l', (forall j, In j l' -> (j < m)%nat) ->
                vec_eq (map (fun j => f i j) l') (map (fun j => g i j) l')).
      { induction l' as [|j l' IH']; intros Hl'; simpl; constructor.
        - apply Hfg; [apply Hl | apply Hl']; left; reflexivity.
        - apply IH'. intros j' Hj'. apply Hl'. right. exact Hj'. }
      apply Hcols. intros j Hj. apply in_seq in Hj. lia.
    - apply IH. intros i' Hi'. apply Hl. right. exact Hi'. }
  apply Hrows. intros i Hi. apply in_seq in Hi. lia.
Qed.

Lemma dot_mat_eq_l (X X' Y : mat) :
  mat_eq X X' -> mat_eq (dot X Y) (dot X' Y).
Proof.
  intros HX. unfold dot.
  rewrite <- (mat_eq_nrows X X' HX), <- (mat_eq_ncols X X' HX).
  apply mat_eq_mk_mat. intros i j _ _. apply Qsum_eq. intros l _.
  rewrite (mat_eq_mget X X' i l HX). reflexivity.
Qed.

Lemma zeros_plus_scaled_row (c : Q) (row : vec) :
  c == 1 ->
  vec_eq (zip_with Qplus (map (fun _ => 0) row) (map (Qmult c) row)) row.
Proof.
  intros Hc. induction row as [|x row IH]; simpl.
  - constructor.
  - constructor; [rewrite Hc; ring | exact IH].
Qed.

Lemma zeros_plus_scaled (c : Q) (F : mat) :
  c == 1 -> mat_eq (madd (zeros_like F) (mscale c F)) F.
Proof.
  intros Hc. unfold madd, zeros_like, mscale.
  induction F as [|row F IH]; simpl.
  - constructor.
  - constructor; [apply zeros_plus_scaled_row; exact Hc | exact IH].
Qed.

(** ** Slices and contractions *)

Lemma nth_firstn_lt {T : Type} (n i : nat) (l : list T) (d : T) :
  (i < n)%nat -> nth i (firstn n l) d = nth i l d.
Proof.
  revert i l. induction n as [|n IH]; intros i l Hi; [lia|].
  destruct l as [|x l]; [reflexivity|].
  destruct i as [|i]; [reflexivity|]. simpl. apply IH. lia.
Qed.

Lemma mget_firstn_cols (n : nat) (C : mat) (p i : nat) :
  (i < n)%nat -> mget (map (firstn n) C) p i = mget C p i.
Proof.
  intros Hi. unfold mget.
  rewrite <- (firstn_nil Q n) at 1. rewrite map_nth.
  apply nth_firstn_lt. exact Hi.
Qed.

Lemma ncols_firstn_cols (n M N : nat) (C : mat) :
  is_mat N M C -> (0 < N)%nat -> (n <= M)%nat ->
  ncols (map (firstn n) C) = n.
Proof.
  intros HC HN Hn. pose proof (is_mat_ncols N M C HC HN) as Hc.
  unfold ncols in *. destruct C as [|row C].
  - destruct HC as [HC _]. simpl in HC. lia.
  - simpl in *. rewrite length_firstn. lia.
Qed.

Lemma tensor_dims (M : nat) (T : tensor4) :
  is_tensor4 M T -> (0 < M)%nat ->
  tdim0 T = M /\ tdim1 T = M /\ tdim2 T = M /\ tdim3 T = M.
Proof.
  intros [H0 HT] HM. unfold tdim0, tdim1, tdim2, tdim3.
  destruct T as [|Tp T]; [simpl in H0; lia|].
  apply Forall_inv in HT. destruct HT as [H1 HTp]. simpl.
  destruct Tp as [|Tpq Tp]; [simpl in H1; lia|].
  apply Forall_inv in HTp. destruct HTp as [H2 HTpq]. simpl.
  destruct Tpq as [|Tpqr Tpq]; [simpl in H2; lia|].
  apply Forall_inv in HTpq. simpl. auto.
Qed.

Lemma einsum_coulomb (M : nat) (T : tensor4) (D : mat) :
  is_tensor4 M T -> (0 < M)%nat ->
  is_mat M M (einsum_pqrs_rs_pq T D) /\
  forall p q, (p < M)%nat -> (q < M)%nat ->
    mget (einsum_pqrs_rs_pq T D) p q = coulomb M T D p q.
Proof.
  intros HT HM. destruct (tensor_dims M T HT HM) as (H0 & H1 & H2 & H3).
  unfold einsum_pqrs_rs_pq. rewrite H0, H1, H2, H3. split.
  - apply is_mat_mk_mat.
  - intros p q Hp Hq. rewrite mget_mk_mat by assumption. reflexivity.
Qed.

Lemma einsum_exchange (M : nat) (T : tensor4) (D : mat) :
  is_tensor4 M T -> (0 < M)%nat ->
  is_mat M M (einsum_prqs_rs_pq T D) /\
  forall p q, (p < M)%nat -> (q < M)%nat ->
    mget (einsum_prqs_rs_pq T D) p q = exchange M T D p q.
Proof.
  intros HT HM. destruct (tensor_dims M T HT HM) as (H0 & H1 & H2 & H3).
  unfold einsum_prqs_rs_pq. rewrite H0, H1, H2, H3. split.
  - apply is_mat_mk_mat.
  - intros p q Hp Hq. rewrite mget_mk_mat by assumption. reflexivity.
Qed.

(** ** The linear solve *)

Lemma solve_raises (np : numlib) (B : mat) (rhs : vec) (e : exn) :
  solve np B rhs = Raised e -> e = LinAlgError.
Proof.
  unfold solve. destruct (gesv np B rhs); [discriminate|].
  intros Hr. injection Hr as <-. reflexivity.
Qed.

Lemma diis_xtrap_raises (np : numlib) (F_list DIIS_RESID : list mat)
  (e : exn) :
  diis_xtrap np F_list DIIS_RESID = Raised e <->
  e = LinAlgError /\
  solve np (build_B F_list DIIS_RESID) (build_rhs (length F_list + 1))
  = Raised LinAlgError.
Proof.
  unfold diis_xtrap. split.
  - destruct (solve _ _ _) eqn:Hs; [discriminate|].
    intros Hr. injection Hr as <-.
    pose proof (solve_raises _ _ _ _ Hs) as ->. auto.
  - intros [-> Hs]. rewrite Hs. reflexivity.
Qed.

Lemma diis_xtrap_returns (np : numlib) (F_list DIIS_RESID : list mat)
  (coeff : vec) :
  solve np (build_B F_list DIIS_RESID) (build_rhs (length F_list + 1))
  = Ok coeff ->
  diis_xtrap np F_list DIIS_RESID
  = Ok (combine_F coeff F_list (zeros_like (nth 0 F_list []))).
Proof. unfold diis_xtrap. intros ->. reflexivity. Qed.

(** The matrix B of a history of two: the inner products of the residuals,
    bordered by -1, with 0 in the corner. *)
Lemma build_B_two (F1 F2 R1 R2 : mat) :
  build_B [F1; F2] [R1; R2]
  = [[einsum_ij_ij R1 R1; einsum_ij_ij R1 R2; -(1)];
     [einsum_ij_ij R2 R1; einsum_ij_ij R2 R2; -(1)];
     [-(1); -(1); 0]].
Proof. reflexivity. Qed.

(** DIIS with two different residuals: the coefficients are 1/2 and 1/2. *)
Example diis_xtrap_two :
  exists X, diis_xtrap TwoLevel.np [[[2]]; [[4]]] [[[1]]; [[-(1)]]] = Ok X /\
            mat_eq X [[3]].
Proof. eexists. split; [vm_compute; reflexivity|]. repeat constructor. Qed.

(** ** The setup and the program *)

Lemma setup_cases (opt : options) (psi : psi4) (tr : list event) :
  setup opt psi tr =
  if Qltb (numpy_memory opt) (eri_size (nso psi))
  then (tr ++ events_before_check psi ++ [EvClean], Raised MemoryLimitExceeded)
  else (tr ++ events_before_check psi ++ events_after_check,
        Ok (statics_of psi)).
Proof.
  unfold setup, bind, emit, raise, ret, events_before_check, events_after_check.
  destruct (Qltb (numpy_memory opt) (eri_size (nso psi)));
    repeat rewrite <- app_assoc; reflexivity.
Qed.

Lemma run_cases (np : numlib) (opt : options) (psi : psi4) :
  run np opt psi =
  if Qltb (numpy_memory opt) (eri_size (nso psi))
  then (events_before_check psi ++ [EvClean], Raised MemoryLimitExceeded)
  else
    let tr := (events_before_check psi ++ events_after_check)
              ++ [EvNuclearRepulsion] in
    match scf_iterations np opt psi (statics_of psi) with
    | Broke _ st | Exhausted st =>
        (tr ++ out st ++ [EvPrintConverged; EvPrintFinal (SCF_E st)],
         Ok (SCF_E st))
    | Failed _ e st => (tr ++ out st, Raised e)
    end.
Proof.
  unfold run, uhf, bind. rewrite setup_cases.
  destruct (Qltb (numpy_memory opt) (eri_size (nso psi))); reflexivity.
Qed.

(** ** How a pass of the loop can end *)

Lemma diis_step_first (np : numlib) (st : scf_state) :
  diis_step np 1 st = Next st.
Proof. reflexivity. Qed.

Lemma diis_step_not_break (np : numlib) (scf_iter : nat)
  (st st' : scf_state) :
  diis_step np scf_iter st <> Break st'.
Proof.
  unfold diis_step. destruct (2 <=? scf_iter)%nat; [|discriminate].
  destruct (diis_xtrap np (F_list_a st) (R_list_a st)); [|discriminate].
  cbv zeta. destruct (diis_xtrap _ _ _); discriminate.
Qed.

Lemma diis_step_raises (np : numlib) (scf_iter : nat) (st st' : scf_state)
  (e : exn) :
  diis_step np scf_iter st = Raise e st' ->
  e = LinAlgError /\ (2 <= scf_iter)%nat.
Proof.
  unfold diis_step. destruct (2 <=? scf_iter)%nat eqn:Hk; [|discriminate].
  apply Nat.leb_le in Hk.
  destruct (diis_xtrap np (F_list_a st) (R_list_a st)) eqn:Ha.
  - cbv zeta. destruct (diis_xtrap np (F_list_b _) _) eqn:Hb; [discriminate|].
    intros Hr. injection Hr as <- _. apply diis_xtrap_raises in Hb.
    split; [apply Hb | exact Hk].
  - intros Hr. injection Hr as <- _. apply diis_xtrap_raises in Ha.
    split; [apply Ha | exact Hk].
Qed.

Lemma converged_iff (opt : options) (st : scf_state) :
  converged opt st = true <->
  Qabs (dE st) < E_conv opt /\ dRMS st < D_conv opt.
Proof.
  unfold converged. rewrite andb_true_iff, !Qltb_lt. reflexivity.
Qed.

Section Pass.

Variable np : numlib.
Variable opt : options.
Variable psi : psi4.
Variable sq : statics.

Lemma orbital_step_not_break (scf_iter : nat) (st st' : scf_state) :
  orbital_step np opt sq scf_iter st <> Break st'.
Proof.
  unfold orbital_step. destruct (scf_iter =? MAXITER opt)%nat; discriminate.
Qed.

Lemma scf_tail_not_break (scf_iter : nat) (st st' : scf_state) :
  scf_tail np opt sq scf_iter st <> Break st'.
Proof.
  unfold scf_tail.
  destruct (diis_step np scf_iter (set_E_old (SCF_E st) st)) eqn:Hd.
  - apply orbital_step_not_break.
  - exfalso. exact (diis_step_not_break _ _ _ _ Hd).
  - discriminate.
Qed.

Lemma scf_body_break (scf_iter : nat) (st st' : scf_state) :
  scf_body np opt sq scf_iter st = Break st' <->
  converged opt (scf_head np sq scf_iter st) = true /\
  st' = scf_head np sq scf_iter st.
Proof.
  unfold scf_body. destruct (converged opt (scf_head np sq scf_iter st)); split.
  - intros Hb. injection Hb as <-. auto.
  - intros [_ ->]. reflexivity.
  - intros Hb. exfalso. exact (scf_tail_not_break _ _ _ Hb).
  - intros [Hc _]. discriminate.
Qed.

Lemma scf_tail_last_pass (st : scf_state) :
  exists e st',
    scf_tail np opt sq (MAXITER opt) st = Raise e st' /\
    (e = MaxIterExceeded \/ e = LinAlgError /\ (2 <= MAXITER opt)%nat).
Proof.
  unfold scf_tail.
  destruct (diis_step np (MAXITER opt) (set_E_old (SCF_E st) st)) eqn:Hd.
  - unfold orbital_step. rewrite Nat.eqb_refl. eauto.
  - exfalso. exact (diis_step_not_break _ _ _ _ Hd).
  - apply diis_step_raises in Hd. eauto.
Qed.

Lemma scf_tail_next_not_last (scf_iter : nat) (st st' : scf_state) :
  scf_tail np opt sq scf_iter st = Next st' -> scf_iter <> MAXITER opt.
Proof.
  intros Hn ->. destruct (scf_tail_last_pass st) as (e & st'' & Hr & _).
  congruence.
Qed.

Lemma scf_body_next_not_last (scf_iter : nat) (st st' : scf_state) :
  scf_body np opt sq scf_iter st = Next st' -> scf_iter <> MAXITER opt.
Proof.
  unfold scf_body. destruct (converged opt _); [discriminate|].
  apply scf_tail_next_not_last.
Qed.

Lemma scf_body_raise_kind (scf_iter : nat) (st st' : scf_state) (e : exn) :
  scf_body np opt sq scf_iter st = Raise e st' ->
  e = MaxIterExceeded \/ e = LinAlgError.
Proof.
  unfold scf_body. destruct (converged opt _); [discriminate|].
  unfold scf_tail.
  destruct (diis_step np scf_iter _) eqn:Hd.
  - unfold orbital_step. destruct (scf_iter =? MAXITER opt)%nat;
      [|discriminate]. intros Hr. injection Hr as <- _. auto.
  - discriminate.
  - intros Hr. injection Hr as <- _. apply diis_step_raises in Hd. tauto.
Qed.

Lemma pre_iteration_fields :
  let st0 := pre_iteration np psi sq in
  E_old st0 = 0 /\ SCF_E st0 = 0 /\
  F_list_a st0 = [] /\ F_list_b st0 = [] /\
  R_list_a st0 = [] /\ R_list_b st0 = [] /\
  (Ca st0, Da st0) = diag_F np sq (H sq) (nalpha sq) /\
  (Cb st0, Db st0) = diag_F np sq (H sq) (nbeta sq) /\
  E_nuc st0 = nuclear_repulsion_energy psi /\
  out st0 = [EvPrintStart].
Proof.
  unfold pre_iteration.
  destruct (diag_F np sq (H sq) (nalpha sq)) as [Ca0 Da0].
  destruct (diag_F np sq (H sq) (nbeta sq)) as [Cb0 Db0].
  simpl. repeat split.
Qed.

Lemma scf_tail_E_old (scf_iter : nat) (st st' : scf_state) :
  scf_tail np opt sq scf_iter st = Next st' -> E_old st' = SCF_E st.
Proof.
  unfold scf_tail, diis_step, orbital_step.
  destruct (2 <=? scf_iter)%nat.
  - destruct (diis_xtrap _ _ _); [|discriminate]. simpl.
    destruct (diis_xtrap _ _ _); [|discriminate].
    destruct (scf_iter =? MAXITER opt)%nat; [discriminate|].
    intros Hn. injection Hn as <-. reflexivity.
  - destruct (scf_iter =? MAXITER opt)%nat; [discriminate|].
    intros Hn. injection Hn as <-. reflexivity.
Qed.

Lemma scf_body_next (scf_iter : nat) (st st' : scf_state) :
  scf_body np opt sq scf_iter st = Next st' ->
  let st1 := scf_head np sq scf_iter st in
  converged opt st1 = false /\
  ((scf_iter < 2)%nat -> Fa st' = Fa st1 /\ Fb st' = Fb st1) /\
  ((2 <= scf_iter)%nat ->
     diis_xtrap np (F_list_a st1) (R_list_a st1) = Ok (Fa st') /\
     diis_xtrap np (F_list_b st1) (R_list_b st1) = Ok (Fb st')) /\
  (Ca st', Da st') = diag_F np sq (Fa st') (nalpha sq) /\
  (Cb st', Db st') = diag_F np sq (Fb st') (nbeta sq) /\
  F_list_a st' = F_list_a st1 /\ F_list_b st' = F_list_b st1 /\
  R_list_a st' = R_list_a st1 /\ R_list_b st' = R_list_b st1 /\
  out st' = out st1.
Proof.
  intros Hn st1. unfold scf_body in Hn. fold st1 in Hn.
  destruct (converged opt st1); [discriminate|].
  split; [reflexivity|].
  unfold scf_tail, diis_step, orbital_step in Hn.
  destruct (2 <=? scf_iter)%nat eqn:Hk.
  - apply Nat.leb_le in Hk.
    destruct (diis_xtrap np (F_list_a (set_E_old (SCF_E st1) st1))
                         (R_list_a (set_E_old (SCF_E st1) st1)))
      as [Fa'|] eqn:Ha; [|discriminate].
    cbv zeta in Hn.
    destruct (diis_xtrap np (F_list_b _) _) as [Fb'|] eqn:Hb; [|discriminate].
    destruct (scf_iter =? MAXITER opt)%nat; [discriminate|].
    injection Hn as <-. simpl.
    destruct (diag_F np sq Fa' (nalpha sq)), (diag_F np sq Fb' (nbeta sq)).
    simpl. repeat split; try reflexivity; try lia; assumption.
  - apply Nat.leb_gt in Hk.
    destruct (scf_iter =? MAXITER opt)%nat; [discriminate|].
    injection Hn as <-. simpl.
    destruct (diag_F np sq _ (nalpha sq)), (diag_F np sq _ (nbeta sq)).
    simpl. repeat split; try reflexivity; lia.
Qed.

(** The same for every pass that gets to the orbital update, also the
    last one, which raises after it. *)
Lemma scf_body_orbitals (scf_iter : nat) (st st' : scf_state) :
  scf_body np opt sq scf_iter st = Next st' \/
  scf_body np opt sq scf_iter st = Raise MaxIterExceeded st' ->
  let st1 := scf_head np sq scf_iter st in
  ((scf_iter < 2)%nat -> Fa st' = Fa st1 /\ Fb st' = Fb st1) /\
  ((2 <= scf_iter)%nat ->
     diis_xtrap np (F_list_a st1) (R_list_a st1) = Ok (Fa st') /\
     diis_xtrap np (F_list_b st1) (R_list_b st1) = Ok (Fb st')) /\
  (Ca st', Da st') = diag_F np sq (Fa st') (nalpha sq) /\
  (Cb st', Db st') = diag_F np sq (Fb st') (nbeta sq).
Proof.
  intros [Hn | Hr] st1.
  - apply scf_body_next in Hn. fold st1 in Hn.
    destruct Hn as (_ & H1 & H2 & HCa & HCb & _). auto.
  - unfold scf_body in Hr. fold st1 in Hr.
    destruct (converged opt st1); [discriminate|].
    unfold scf_tail, diis_step, orbital_step in Hr.
    destruct (2 <=? scf_iter)%nat eqn:Hk.
    + apply Nat.leb_le in Hk.
      destruct (diis_xtrap np (F_list_a (set_E_old (SCF_E st1) st1))
                           (R_list_a (set_E_old (SCF_E st1) st1)))
        as [Fa'|e] eqn:Ha.
      2:{ apply diis_xtrap_raises in Ha. destruct Ha as [-> _]. discriminate. }
      cbv zeta in Hr.
      destruct (diis_xtrap np (F_list_b _) _) as [Fb'|e] eqn:Hb.
      2:{ apply diis_xtrap_raises in Hb. destruct Hb as [-> _]. discriminate. }
      destruct (scf_iter =? MAXITER opt)%nat; [|discriminate].
      injection Hr as <-. simpl.
      destruct (diag_F np sq Fa' (nalpha sq)), (diag_F np sq Fb' (nbeta sq)).
      simpl. repeat split; try reflexivity; try lia; assumption.
    + apply Nat.leb_gt in Hk.
      destruct (scf_iter =? MAXITER opt)%nat; [|discriminate].
      injection Hr as <-. simpl.
      destruct (diag_F np sq _ (nalpha sq)), (diag_F np sq _ (nbeta sq)).
      simpl. repeat split; try reflexivity; lia.
Qed.

Lemma scf_head_lengths (scf_iter : nat)
  (st : scf_state) :
  let st1 := scf_head np sq scf_iter st in
  length (F_list_a st1) = S (length (F_list_a st)) /\
  length (F_list_b st1) = S (length (F_list_b st)) /\
  length (R_list_a st1) = S (length (R_list_a st)) /\
  length (R_list_b st1) = S (length (R_list_b st)).
Proof.
  simpl. rewrite !length_app. simpl. repeat split; lia.
Qed.

Lemma never_converged :
  E_conv opt <= 0 \/ (D_conv opt <= 0 /\ forall x, 0 <= sqrt_half np x) ->
  forall scf_iter st, converged opt (scf_head np sq scf_iter st) = false.
Proof.
  intros Hbad scf_iter st. unfold converged.
  destruct Hbad as [HE | [HD Hsq]].
  - rewrite (Qltb_false_of_le (Qabs _) (E_conv opt)); [reflexivity|].
    apply Qle_trans with 0; [exact HE | apply Qabs_nonneg].
  - rewrite (Qltb_false_of_le (dRMS _) (D_conv opt)); [apply andb_false_r|].
    apply Qle_trans with 0; [exact HD|]. simpl dRMS.
    apply Qmult_le_0_compat; [discriminate|].
    rewrite <- (Qplus_0_r 0). apply Qplus_le_compat; apply Hsq.
Qed.

(** *** The loop *)

Lemma scf_loop_broke_ge (todo : nat) : forall (scf_iter : nat) (st : scf_state) (k : nat)
  (st' : scf_state),
  scf_loop np opt sq todo scf_iter st = Broke k st' ->
  (scf_iter <= k)%nat.
Proof.
  induction todo as [|todo IH]; intros scf_iter st k st' Hl; simpl in Hl;
    [discriminate|].
  destruct (scf_body np opt sq scf_iter st) eqn:Hb.
  - apply IH in Hl. lia.
  - injection Hl as <- _. lia.
  - discriminate.
Qed.

Lemma scf_loop_broke (todo : nat) : forall (scf_iter : nat) (st : scf_state) (k : nat)
  (st' : scf_state),
  scf_loop np opt sq todo scf_iter st = Broke k st' ->
  (scf_iter <= k < scf_iter + todo)%nat /\ converged opt st' = true /\
  exists st0, st' = scf_head np sq k st0.
Proof.
  induction todo as [|todo IH]; intros scf_iter st k st' Hl; simpl in Hl;
    [discriminate|].
  destruct (scf_body np opt sq scf_iter st) eqn:Hb.
  - apply IH in Hl. split; [lia | apply Hl].
  - injection Hl as <- <-. apply scf_body_break in Hb.
    destruct Hb as [Hc ->]. split; [lia|]. split; [exact Hc|].
    exists st. reflexivity.
  - discriminate.
Qed.

Lemma scf_loop_not_exhausted (todo : nat) : forall (scf_iter : nat) (st st' : scf_state),
  (0 < todo)%nat -> (scf_iter + todo = MAXITER opt + 1)%nat ->
  scf_loop np opt sq todo scf_iter st <> Exhausted st'.
Proof.
  induction todo as [|todo IH]; intros scf_iter st st' Hpos Hsum; [lia|].
  simpl. destruct (scf_body np opt sq scf_iter st) eqn:Hb; try discriminate.
  apply scf_body_next_not_last in Hb. apply IH; lia.
Qed.

Lemma scf_loop_failed_kind (todo : nat) : forall (scf_iter : nat) (st : scf_state) (k : nat)
  (e : exn) (st' : scf_state),
  scf_loop np opt sq todo scf_iter st = Failed k e st' ->
  e = MaxIterExceeded \/ e = LinAlgError.
Proof.
  induction todo as [|todo IH]; intros scf_iter st k e st' Hl; simpl in Hl;
    [discriminate|].
  destruct (scf_body np opt sq scf_iter st) eqn:Hb.
  - exact (IH _ _ _ _ _ Hl).
  - discriminate.
  - injection Hl as _ <- _. exact (scf_body_raise_kind _ _ _ _ Hb).
Qed.

Lemma reaches_lengths (k : nat) (st : scf_state) :
  reaches np opt psi sq k st ->
  (1 <= k)%nat /\
  S (length (F_list_a st)) = k /\ S (length (F_list_b st)) = k /\
  S (length (R_list_a st)) = k /\ S (length (R_list_b st)) = k.
Proof.
  induction 1 as [|k st st' Hr IH Hn].
  - destruct pre_iteration_fields as (_ & _ & -> & -> & -> & -> & _).
    simpl. repeat split; lia.
  - apply scf_body_next in Hn.
    destruct Hn as (_ & _ & _ & _ & _ & -> & -> & -> & -> & _).
    destruct (scf_head_lengths k st) as (-> & -> & -> & ->).
    destruct IH as (Hk & Ha & Hb & Hc & Hd). repeat split; lia.
Qed.

Lemma reaches_loop (k : nat) (st : scf_state) :
  reaches np opt psi sq k st -> (k <= MAXITER opt)%nat ->
  scf_iterations np opt psi sq
  = scf_loop np opt sq (S (MAXITER opt - k)) k st.
Proof.
  induction 1 as [|k st st' Hr IH Hn]; intros Hk.
  - unfold scf_iterations. f_equal. lia.
  - rewrite IH by lia.
    replace (MAXITER opt - k)%nat with (S (MAXITER opt - S k)) by lia.
    change (scf_loop np opt sq (S (S (MAXITER opt - S k))) k st)
      with (match scf_body np opt sq k st with
            | Next st' => scf_loop np opt sq (S (MAXITER opt - S k)) (S k) st'
            | Break st' => Broke k st'
            | Raise e st' => Failed k e st'
            end).
    rewrite Hn. reflexivity.
Qed.

(** *** What a run prints *)

Lemma iterations_run_app (l l' : list event) :
  iterations_run (l ++ l') = (iterations_run l + iterations_run l')%nat.
Proof. unfold iterations_run. rewrite filter_app, length_app. reflexivity. Qed.

Lemma scf_body_iterations (scf_iter : nat) (st : scf_state) :
  iterations_run (out (signal_state (scf_body np opt sq scf_iter st)))
  = S (iterations_run (out st)).
Proof.
  assert (Hh : iterations_run (out (scf_head np sq scf_iter st))
               = S (iterations_run (out st))).
  { simpl. rewrite iterations_run_app. simpl. unfold iterations_run. simpl. lia. }
  unfold scf_body. destruct (converged opt _); [exact Hh|].
  unfold scf_tail, diis_step, orbital_step.
  destruct (2 <=? scf_iter)%nat.
  - destruct (diis_xtrap np (F_list_a _) _); [|exact Hh]. cbv zeta.
    destruct (diis_xtrap np (F_list_b _) _); [|exact Hh].
    destruct (scf_iter =? MAXITER opt)%nat; simpl signal_state; simpl out.
    + rewrite iterations_run_app. simpl in Hh.
      change (iterations_run [EvClean]) with 0%nat. lia.
    + exact Hh.
  - destruct (scf_iter =? MAXITER opt)%nat; simpl signal_state; simpl out.
    + rewrite iterations_run_app. simpl in Hh.
      change (iterations_run [EvClean]) with 0%nat. lia.
    + exact Hh.
Qed.

Lemma scf_loop_iterations (todo : nat) : forall (scf_iter : nat) (st : scf_state),
  (iterations_run (out st) + match todo with O => 0 | S _ => 1 end
   <= iterations_run (out (final_state (scf_loop np opt sq todo scf_iter st))))%nat.
Proof.
  induction todo as [|todo IH]; intros scf_iter st; simpl; [lia|].
  pose proof (scf_body_iterations scf_iter st) as Hb.
  destruct (scf_body np opt sq scf_iter st) as [st'|st'|e st'];
    simpl in Hb |- *; try lia.
  specialize (IH (S scf_iter) st'). destruct todo; lia.
Qed.

(** *** The convergence check *)

(** C4. In every pass, [dE] is the energy minus the previous energy and
    [dRMS] is half the sum of the root-mean-square entries of the two
    residuals; the pass ends the loop by [break] if and only if both
    [abs(dE) < E_conv] and [dRMS < D_conv] hold, and when one of the two
    fails the pass does not break. *)
Theorem convergence_iff (scf_iter : nat) (st : scf_state) :
  let st1 := scf_head np sq scf_iter st in
  dE st1 = SCF_E st1 - E_old st /\
  dRMS st1 = (1 # 2) * (sqrt_half np (mean (msquare (diis_r_a st1)))
                        + sqrt_half np (mean (msquare (diis_r_b st1)))) /\
  (Qabs (dE st1) < E_conv opt /\ dRMS st1 < D_conv opt <->
   scf_body np opt sq scf_iter st = Break st1) /\
  (~ (Qabs (dE st1) < E_conv opt /\ dRMS st1 < D_conv opt) ->
   forall st', scf_body np opt sq scf_iter st <> Break st') /\
  (forall todo,
     Qabs (dE st1) < E_conv opt /\ dRMS st1 < D_conv opt <->
     scf_loop np opt sq (S todo) scf_iter st = Broke scf_iter st1).
Proof.
  intros st1. split; [reflexivity|]. split; [reflexivity|].
  assert (Hiff : Qabs (dE st1) < E_conv opt /\ dRMS st1 < D_conv opt <->
                 scf_body np opt sq scf_iter st = Break st1).
  { rewrite <- converged_iff, scf_body_break. fold st1. tauto. }
  split; [exact Hiff|]. split.
  - intros Hn st' Hb. apply scf_body_break in Hb. destruct Hb as [Hc _].
    apply converged_iff in Hc. exact (Hn Hc).
  - intros todo. rewrite Hiff. simpl. split.
    + intros ->. reflexivity.
    + intros Hl. destruct (scf_body np opt sq scf_iter st) eqn:Hb.
      * apply scf_loop_broke_ge in Hl. lia.
      * injection Hl as ->. reflexivity.
      * discriminate.
Qed.

(** *** The previous energy *)

(** C10. The previous energy is 0 before the loop and is assigned only
    after the convergence check: a pass that breaks leaves it unchanged and
    a pass that goes on sets it to the energy of that pass. Hence in the
    first pass [dE] is the total energy itself, and the first pass can
    break only when the absolute value of the total energy is below
    [E_conv]. *)
Theorem first_pass_dE :
  let st0 := pre_iteration np psi sq in
  let st1 := scf_head np sq 1 st0 in
  E_old st0 = 0 /\
  dE st1 == SCF_E st1 /\
  (forall st', scf_body np opt sq 1 st0 = Break st' ->
     Qabs (SCF_E st') < E_conv opt) /\
  (forall scf_iter st st', scf_body np opt sq scf_iter st = Break st' ->
     E_old st' = E_old st) /\
  (forall scf_iter st st', scf_body np opt sq scf_iter st = Next st' ->
     E_old st' = SCF_E (scf_head np sq scf_iter st)).
Proof.
  intros st0 st1.
  destruct pre_iteration_fields as (HE & _).
  fold st0 in HE.
  assert (HdE : dE st1 == SCF_E st1).
  { change (dE st1) with (SCF_E st1 - E_old st0). rewrite HE. ring. }
  split; [exact HE|]. split; [exact HdE|]. split; [|split].
  - intros st' Hb. apply scf_body_break in Hb. destruct Hb as [Hc ->].
    apply converged_iff in Hc. destruct Hc as [Hc _]. fold st1 in Hc |- *.
    rewrite <- HdE. exact Hc.
  - intros scf_iter st st' Hb. apply scf_body_break in Hb.
    destruct Hb as [_ ->]. reflexivity.
  - intros scf_iter st st'. unfold scf_body.
    destruct (converged opt (scf_head np sq scf_iter st)); [discriminate|].
    apply scf_tail_E_old.
Qed.

(** *** When DIIS extrapolates *)

(** C7.  At the start of pass [k] of a run each of the four history lists
    has [k - 1] entries, and [k] after the append of the pass.  So the
    history has at least two trial vectors exactly from the second pass on.
    With fewer, the DIIS step changes nothing, and a pass that gets to the
    orbital update (it goes on, or it is the last one and raises after the
    update) passes the Fock matrices that it built; with two or more, such
    a pass passes the results of [diis_xtrap] on the histories. *)
Theorem diis_from_second_pass (k : nat) (st : scf_state) :
  reaches np opt psi sq k st ->
  let st1 := scf_head np sq k st in
  (1 <= k)%nat /\
  length (F_list_a st1) = k /\ length (F_list_b st1) = k /\
  length (R_list_a st1) = k /\ length (R_list_b st1) = k /\
  ((2 <= length (F_list_a st1))%nat <-> (2 <= k)%nat) /\
  ((length (F_list_a st1) < 2)%nat ->
     k = 1%nat /\
     (forall X, diis_step np k X = Next X) /\
     (forall st',
        scf_body np opt sq k st = Next st' \/
        scf_body np opt sq k st = Raise MaxIterExceeded st' ->
        Fa st' = Fa st1 /\ Fb st' = Fb st1)) /\
  ((2 <= length (F_list_a st1))%nat ->
     forall st',
       scf_body np opt sq k st = Next st' \/
       scf_body np opt sq k st = Raise MaxIterExceeded st' ->
       diis_xtrap np (F_list_a st1) (R_list_a st1) = Ok (Fa st') /\
       diis_xtrap np (F_list_b st1) (R_list_b st1) = Ok (Fb st')) /\
  (forall st',
     scf_body np opt sq k st = Next st' \/
     scf_body np opt sq k st = Raise MaxIterExceeded st' ->
     (Ca st', Da st') = diag_F np sq (Fa st') (nalpha sq) /\
     (Cb st', Db st') = diag_F np sq (Fb st') (nbeta sq)).
Proof.
  intros Hr st1.
  destruct (reaches_lengths k st Hr) as (Hk & Ha & Hb & Hc & Hd).
  destruct (scf_head_lengths k st) as (Ha1 & Hb1 & Hc1 & Hd1).
  fold st1 in Ha1, Hb1, Hc1, Hd1.
  assert (HFa : length (F_list_a st1) = k) by lia.
  split; [exact Hk|]. split; [exact HFa|].
  split; [lia|]. split; [lia|]. split; [lia|].
  split; [rewrite HFa; reflexivity|]. rewrite HFa. split; [|split].
  - intros Hlt. assert (k = 1%nat) as -> by lia.
    split; [reflexivity|]. split; [intros X; apply diis_step_first|].
    intros st' Hn. apply scf_body_orbitals in Hn. apply Hn. lia.
  - intros Hge st' Hn. apply scf_body_orbitals in Hn. apply Hn. exact Hge.
  - intros st' Hn. apply scf_body_orbitals in Hn.
    destruct Hn as (_ & _ & HCa & HCb). auto.
Qed.

End Pass.

(** ** The runs of the two-level systems *)

Lemma flipping_reaches_second :
  reaches TwoLevel.np TwoLevel.defaults TwoLevel.flipping
    (statics_of TwoLevel.flipping) 2 TwoLevel.second_pass.
Proof.
  apply reaches_next with
    (st := pre_iteration TwoLevel.np TwoLevel.flipping
             (statics_of TwoLevel.flipping)).
  - apply reaches_first.
  - vm_compute. reflexivity.
Qed.

(** The run of the flipping molecule: the first pass gives the energy -2
    and the second 0, both with zero residuals, and the DIIS solve of the
    second pass finds its matrix B singular. *)
Example flipping_run :
  run TwoLevel.np TwoLevel.defaults TwoLevel.flipping
  = (events_before_check TwoLevel.flipping ++ events_after_check
     ++ [EvNuclearRepulsion; EvPrintStart]
     ++ filter is_iter (fst (run TwoLevel.np TwoLevel.defaults TwoLevel.flipping)),
     Raised LinAlgError) /\
  Forall2 (fun ev x => match ev with
                       | EvPrintIter k E d r =>
                           k = fst x /\ E == fst (snd x) /\
                           d == snd (snd x) /\ r == 0
                       | _ => False
                       end)
    (filter is_iter (fst (run TwoLevel.np TwoLevel.defaults TwoLevel.flipping)))
    [(1%nat, (-(2), -(2))); (2%nat, (0, 2))].
Proof.
  split; [vm_compute; reflexivity|].
  vm_compute. repeat constructor.
Qed.

(** The run of the stable molecule converges in the second pass with the
    energy -7/2. *)
Example stable_run :
  exists E, snd (run TwoLevel.np TwoLevel.defaults TwoLevel.stable) = Ok E /\
            E == -(7 # 2) /\
            iterations_run
              (fst (run TwoLevel.np TwoLevel.defaults TwoLevel.stable)) = 2%nat.
Proof. eexists. vm_compute. repeat split. Qed.

(** The second pass of the flipping molecule has a history of two. *)
Lemma diis_from_second_pass_witness :
  length (F_list_a (scf_head TwoLevel.np (statics_of TwoLevel.flipping) 2
                      TwoLevel.second_pass)) = 2%nat.
Proof.
  pose proof (diis_from_second_pass TwoLevel.np TwoLevel.defaults
                TwoLevel.flipping (statics_of TwoLevel.flipping) 2
                TwoLevel.second_pass flipping_reaches_second) as Hw.
  cbv zeta in Hw. apply Hw.
Defined.

(** ** The Fock build *)

(** C3.  In every pass of the loop, for an M-by-M core Hamiltonian and an
    M^4 tensor, the entries of the Fock matrices are
    Fa[p,q] = H[p,q] + (Ja[p,q] + Jb[p,q]) - Ka[p,q] and
    Fb[p,q] = H[p,q] + (Ja[p,q] + Jb[p,q]) - Kb[p,q], with J the Coulomb
    contraction (pqrs,rs->pq) and K the exchange contraction (prqs,rs->pq)
    of the tensor with the density of the spin: the Coulomb term is the same
    for both spins, the exchange term is the one of the own density, and the
    two Fock matrices differ by the exchange terms only. *)
Theorem fock_build_entries (np : numlib) (sq : statics) (scf_iter : nat)
  (st : scf_state) (M p q : nat) :
  is_mat M M (H sq) -> is_tensor4 M (I_eri sq) ->
  (p < M)%nat -> (q < M)%nat ->
  let st1 := scf_head np sq scf_iter st in
  let J D := coulomb M (I_eri sq) D p q in
  let K D := exchange M (I_eri sq) D p q in
  mget (Fa st1) p q = mget (H sq) p q + (J (Da st) + J (Db st)) - K (Da st) /\
  mget (Fb st1) p q = mget (H sq) p q + (J (Da st) + J (Db st)) - K (Db st) /\
  mget (Fa st1) p q - mget (Fb st1) p q == K (Db st) - K (Da st).
Proof.
  intros HH HT Hp Hq st1 J K.
  assert (HM : (0 < M)%nat) by lia.
  destruct (einsum_coulomb M (I_eri sq) (Da st) HT HM) as [HJa HJa'].
  destruct (einsum_coulomb M (I_eri sq) (Db st) HT HM) as [HJb HJb'].
  destruct (einsum_exchange M (I_eri sq) (Da st) HT HM) as [HKa HKa'].
  destruct (einsum_exchange M (I_eri sq) (Db st) HT HM) as [HKb HKb'].
  assert (HJJ : is_mat M M (madd (einsum_pqrs_rs_pq (I_eri sq) (Da st))
                                 (einsum_pqrs_rs_pq (I_eri sq) (Db st))))
    by (apply is_mat_zip_with; assumption).
  assert (HHJ : is_mat M M (madd (H sq)
                  (madd (einsum_pqrs_rs_pq (I_eri sq) (Da st))
                        (einsum_pqrs_rs_pq (I_eri sq) (Db st)))))
    by (apply is_mat_zip_with; assumption).
  assert (Ha : mget (Fa st1) p q
               = mget (H sq) p q + (J (Da st) + J (Db st)) - K (Da st)).
  { unfold st1, scf_head; simpl Fa. unfold msub, madd in *.
    rewrite (mget_zip_with Qminus M M) by assumption.
    rewrite (mget_zip_with Qplus M M) by assumption.
    rewrite (mget_zip_with Qplus M M) by assumption.
    rewrite HJa', HJb', HKa' by assumption. reflexivity. }
  assert (Hb : mget (Fb st1) p q
               = mget (H sq) p q + (J (Da st) + J (Db st)) - K (Db st)).
  { unfold st1, scf_head; simpl Fb. unfold msub, madd in *.
    rewrite (mget_zip_with Qminus M M) by assumption.
    rewrite (mget_zip_with Qplus M M) by assumption.
    rewrite (mget_zip_with Qplus M M) by assumption.
    rewrite HJa', HJb', HKb' by assumption. reflexivity. }
  split; [exact Ha|]. split; [exact Hb|].
  rewrite Ha, Hb. ring.
Qed.

(** In the first pass of the flipping molecule both Fock matrices have
    the entry -5/8 at (1, 1): -1 + (1/4 + 1/4) - 1/8. *)
Lemma fock_build_entries_witness :
  mget (Fa (scf_head TwoLevel.np (statics_of TwoLevel.flipping) 1
              (pre_iteration TwoLevel.np TwoLevel.flipping
                 (statics_of TwoLevel.flipping)))) 1 1
  == -(5 # 8) /\
  mget (Fb (scf_head TwoLevel.np (statics_of TwoLevel.flipping) 1
              (pre_iteration TwoLevel.np TwoLevel.flipping
                 (statics_of TwoLevel.flipping)))) 1 1
  == -(5 # 8).
Proof.
  pose proof (fock_build_entries TwoLevel.np (statics_of TwoLevel.flipping) 1
                (pre_iteration TwoLevel.np TwoLevel.flipping
                   (statics_of TwoLevel.flipping)) 2 1 1) as Hw.
  cbv zeta in Hw.
  destruct Hw as (Ha & Hb & _).
  - split; repeat constructor.
  - split; [reflexivity|]. repeat constructor.
  - lia.
  - lia.
  - rewrite Ha, Hb. split; vm_compute; reflexivity.
Defined.

(** ** The orbital update *)

(** C6.  For an M-by-M symmetric orthogonalizer [A], an M-by-M matrix of
    eigenvectors returned by [eigh], and [norb <= M]: [diag_F F norb]
    diagonalizes F' = A.F.A, which equals At.F.A, returns C = A.C' for the
    eigenvectors C' in the order of [eigh], and the M-by-M density
    D[p,q] = sum over the first [norb] columns i of C[p,i] C[q,i].  The
    result depends on the static quantities through [A] only.  The same
    function gives the core guess, [diag_F H nalpha] and [diag_F H nbeta],
    and the orbitals of every pass of the loop that gets to the orbital
    update. *)
Theorem diag_F_spec (np : numlib) (sq : statics) (F : mat) (norb M : nat) :
  is_mat M M (A sq) -> symmetric (A sq) ->
  is_mat M M (snd (eigh np (dot (dot (A sq) F) (A sq)))) ->
  (norb <= M)%nat ->
  let F_p := dot (dot (A sq) F) (A sq) in
  let C := dot (A sq) (snd (eigh np F_p)) in
  let D := snd (diag_F np sq F norb) in
  mat_eq (dot (dot (transpose (A sq)) F) (A sq)) F_p /\
  fst (diag_F np sq F norb) = C /\
  is_mat M M D /\
  (forall p q, (p < M)%nat -> (q < M)%nat ->
     mget D p q = Qsum norb (fun i => mget C p i * mget C q i)) /\
  (forall sq', A sq' = A sq -> diag_F np sq' F norb = diag_F np sq F norb) /\
  (forall psi,
     let st0 := pre_iteration np psi sq in
     (Ca st0, Da st0) = diag_F np sq (H sq) (nalpha sq) /\
     (Cb st0, Db st0) = diag_F np sq (H sq) (nbeta sq)) /\
  (forall opt scf_iter st st',
     scf_body np opt sq scf_iter st = Next st' \/
     scf_body np opt sq scf_iter st = Raise MaxIterExceeded st' ->
     (Ca st', Da st') = diag_F np sq (Fa st') (nalpha sq) /\
     (Cb st', Db st') = diag_F np sq (Fb st') (nbeta sq)).
Proof.
  intros HA Hsym HCp Hn F_p C D. fold F_p in HCp.
  assert (HD : D = einsum_pi_qi_pq (map (firstn norb) C) (map (firstn norb) C)).
  { unfold D, diag_F. fold F_p. destruct (eigh np F_p) as [e C_p]. reflexivity. }
  assert (HC : is_mat M (ncols (snd (eigh np F_p))) C).
  { unfold C, dot, nrows. destruct HA as [-> _]. apply is_mat_mk_mat. }
  assert (Hrows : nrows (map (firstn norb) C) = M).
  { unfold nrows. rewrite length_map. apply HC. }
  split; [|split; [|split; [|split; [|split; [|split]]]]].
  - unfold F_p. apply dot_mat_eq_l, dot_mat_eq_l. exact Hsym.
  - unfold diag_F. fold F_p. destruct (eigh np F_p) as [e C_p]. reflexivity.
  - rewrite HD. unfold einsum_pi_qi_pq. rewrite Hrows. apply is_mat_mk_mat.
  - intros p q Hp Hq. rewrite HD. unfold einsum_pi_qi_pq. rewrite Hrows.
    rewrite mget_mk_mat by assumption.
    assert (HM : (0 < M)%nat) by lia.
    rewrite (is_mat_ncols M M _ HCp HM) in HC.
    rewrite (ncols_firstn_cols norb M M C HC HM Hn).
    apply Qsum_ext. intros i Hi. rewrite !mget_firstn_cols by exact Hi.
    reflexivity.
  - intros sq' HA'. unfold diag_F. rewrite HA'. reflexivity.
  - intros psi st0.
    destruct (pre_iteration_fields np psi sq)
      as (_ & _ & _ & _ & _ & _ & Ha & Hb & _). auto.
  - intros opt scf_iter st st' Hnext. apply scf_body_orbitals in Hnext.
    destruct Hnext as (_ & _ & Ha & Hb). auto.
Qed.

(** The core guess of the flipping molecule occupies the first basis
    function. *)
Lemma diag_F_spec_witness :
  mat_eq (snd (diag_F TwoLevel.np (statics_of TwoLevel.flipping)
                 (H (statics_of TwoLevel.flipping)) 1))
         [[1; 0]; [0; 0]].
Proof.
  pose proof (diag_F_spec TwoLevel.np (statics_of TwoLevel.flipping)
                (H (statics_of TwoLevel.flipping)) 1 2) as Hw.
  cbv zeta in Hw. destruct Hw as (_ & _ & _ & HD & _).
  - split; repeat constructor.
  - repeat constructor.
  - split; repeat constructor.
  - lia.
  - vm_compute. repeat constructor.
Defined.

(** ** An unconverged pass with DIIS *)

(** An unconverged pass from the second on ends with [LinAlgError] when
    the solve of either spin raises, before any orbital update; when both
    solves return, it gets to the orbital update with the combinations of
    the returned coefficients. *)
Lemma scf_body_diis_pass (np : numlib) (opt : options) (sq : statics)
  (k : nat) (st : scf_state) :
  let st1 := scf_head np sq k st in
  let solve_a := solve np (build_B (F_list_a st1) (R_list_a st1))
                   (build_rhs (length (F_list_a st1) + 1)) in
  let solve_b := solve np (build_B (F_list_b st1) (R_list_b st1))
                   (build_rhs (length (F_list_b st1) + 1)) in
  converged opt st1 = false -> (2 <= k)%nat ->
  (solve_a = Raised LinAlgError \/ solve_b = Raised LinAlgError ->
   exists st',
     scf_body np opt sq k st = Raise LinAlgError st' /\
     (Ca st', Da st', Cb st', Db st') = (Ca st, Da st, Cb st, Db st) /\
     out st' = out st1) /\
  (forall ca cb, solve_a = Ok ca -> solve_b = Ok cb ->
   exists st',
     scf_body np opt sq k st
     = (if (k =? MAXITER opt)%nat
        then Raise MaxIterExceeded st' else Next st') /\
     Fa st'
     = combine_F ca (F_list_a st1) (zeros_like (nth 0 (F_list_a st1) [])) /\
     Fb st'
     = combine_F cb (F_list_b st1) (zeros_like (nth 0 (F_list_b st1) []))).
Proof.
  intros st1 solve_a solve_b Hc Hk.
  assert (H2 : (2 <=? k)%nat = true) by (apply Nat.leb_le; exact Hk).
  split.
  - intros Hs. unfold scf_body. fold st1. rewrite Hc.
    unfold scf_tail, diis_step. rewrite H2.
    change (F_list_a (set_E_old (SCF_E st1) st1)) with (F_list_a st1).
    change (R_list_a (set_E_old (SCF_E st1) st1)) with (R_list_a st1).
    destruct (diis_xtrap np (F_list_a st1) (R_list_a st1)) as [Fa'|e] eqn:Ha.
    + cbv zeta.
      change (F_list_b (set_Fa Fa' (set_E_old (SCF_E st1) st1)))
        with (F_list_b st1).
      change (R_list_b (set_Fa Fa' (set_E_old (SCF_E st1) st1)))
        with (R_list_b st1).
      assert (Hb : diis_xtrap np (F_list_b st1) (R_list_b st1)
                   = Raised LinAlgError).
      { apply diis_xtrap_raises. split; [reflexivity|].
        destruct Hs as [Hsa | Hsb]; [|exact Hsb].
        assert (Hx : diis_xtrap np (F_list_a st1) (R_list_a st1)
                     = Raised LinAlgError)
          by (apply diis_xtrap_raises; auto).
        congruence. }
      rewrite Hb. eexists. split; [reflexivity|]. split; reflexivity.
    + apply diis_xtrap_raises in Ha. destruct Ha as [-> _].
      eexists. split; [reflexivity|]. split; reflexivity.
  - intros ca cb Ha Hb. unfold scf_body. fold st1. rewrite Hc.
    unfold scf_tail, diis_step. rewrite H2.
    change (F_list_a (set_E_old (SCF_E st1) st1)) with (F_list_a st1).
    change (R_list_a (set_E_old (SCF_E st1) st1)) with (R_list_a st1).
    rewrite (diis_xtrap_returns np _ _ ca Ha). cbv zeta.
    match goal with
    | |- context [set_Fa ?X _] => set (Fa' := X)
    end.
    change (F_list_b (set_Fa Fa' (set_E_old (SCF_E st1) st1)))
      with (F_list_b st1).
    change (R_list_b (set_Fa Fa' (set_E_old (SCF_E st1) st1)))
      with (R_list_b st1).
    rewrite (diis_xtrap_returns np _ _ cb Hb).
    unfold orbital_step.
    destruct (k =? MAXITER opt)%nat; eexists;
      (split; [reflexivity|]); split; reflexivity.
Qed.

(** ** The iteration limit *)

(** C5, as the code has it.  For a positive [MAXITER]: the program returns
    an energy only from a pass, at most the [MAXITER]-th, in which both
    convergence criteria held.  When the loop gets to pass [MAXITER] and
    the criteria do not hold there, the program returns nothing: it ends
    with the exception of the iteration limit when [MAXITER] is 1 or both
    DIIS solves of that pass return, and with [LinAlgError], raised before
    the test of the limit, when [MAXITER] is at least 2 and the solve of
    either spin raises.  With [MAXITER = 1], when the memory check passes
    and the first pass is not converged, the program raises the exception
    of the iteration limit. *)
Theorem maxiter_raises (np : numlib) (opt : options) (psi : psi4) :
  (1 <= MAXITER opt)%nat ->
  let sq := statics_of psi in
  (forall E, snd (run np opt psi) = Ok E ->
     exists k st, (1 <= k <= MAXITER opt)%nat /\
       scf_iterations np opt psi sq = Broke k st /\
       converged opt st = true /\ E = SCF_E st) /\
  (forall st,
     let st1 := scf_head np sq (MAXITER opt) st in
     let solve_a := solve np (build_B (F_list_a st1) (R_list_a st1))
                      (build_rhs (length (F_list_a st1) + 1)) in
     let solve_b := solve np (build_B (F_list_b st1) (R_list_b st1))
                      (build_rhs (length (F_list_b st1) + 1)) in
     eri_size (nso psi) <= numpy_memory opt ->
     reaches np opt psi sq (MAXITER opt) st ->
     converged opt st1 = false ->
     (forall E, snd (run np opt psi) <> Ok E) /\
     (MAXITER opt = 1%nat \/
      (exists ca cb, solve_a = Ok ca /\ solve_b = Ok cb) ->
      snd (run np opt psi) = Raised MaxIterExceeded) /\
     ((2 <= MAXITER opt)%nat /\
      (solve_a = Raised LinAlgError \/ solve_b = Raised LinAlgError) ->
      snd (run np opt psi) = Raised LinAlgError)) /\
  (MAXITER opt = 1%nat ->
   eri_size (nso psi) <= numpy_memory opt ->
   converged opt (scf_head np sq 1 (pre_iteration np psi sq)) = false ->
   snd (run np opt psi) = Raised MaxIterExceeded).
Proof.
  intros Hmax sq. split; [|split].
  - intros E. rewrite run_cases.
    destruct (Qltb (numpy_memory opt) (eri_size (nso psi))); [discriminate|].
    fold sq. cbv zeta.
    destruct (scf_iterations np opt psi sq) as [k st|st|k e st] eqn:Hl;
      simpl; try discriminate.
    + intros HE. injection HE as <-. unfold scf_iterations in Hl.
      apply scf_loop_broke in Hl. destruct Hl as (Hk & Hc & _).
      exists k, st. repeat split; try lia; exact Hc.
    + exfalso. unfold scf_iterations in Hl.
      apply scf_loop_not_exhausted in Hl; [exact Hl | lia | lia].
  - intros st st1 solve_a solve_b Hmem Hr Hc.
    apply Qltb_false_of_le in Hmem.
    assert (Hloop : forall e st',
              scf_body np opt sq (MAXITER opt) st = Raise e st' ->
              snd (run np opt psi) = Raised e).
    { intros e st' Hb. rewrite run_cases, Hmem. fold sq. cbv zeta.
      rewrite (reaches_loop np opt psi sq (MAXITER opt) st Hr) by lia.
      rewrite Nat.sub_diag. simpl scf_loop. rewrite Hb. reflexivity. }
    assert (Hlimit : MAXITER opt = 1%nat \/
                     (exists ca cb, solve_a = Ok ca /\ solve_b = Ok cb) ->
                     snd (run np opt psi) = Raised MaxIterExceeded).
    { intros Hcase.
      destruct (scf_tail_last_pass np opt sq st1) as (e & st' & Ht & He).
      assert (Hb : scf_body np opt sq (MAXITER opt) st = Raise e st')
        by (unfold scf_body; fold st1; rewrite Hc; exact Ht).
      destruct He as [-> | [-> H2]]; [exact (Hloop _ _ Hb)|].
      destruct Hcase as [H1 | (ca & cb & Ha & Hsb)]; [lia|].
      destruct (scf_body_diis_pass np opt sq (MAXITER opt) st Hc H2)
        as [_ Hret].
      destruct (Hret ca cb Ha Hsb) as (st'' & Hb' & _).
      rewrite Nat.eqb_refl in Hb'. congruence. }
    assert (Hsolve : (2 <= MAXITER opt)%nat /\
                     (solve_a = Raised LinAlgError \/
                      solve_b = Raised LinAlgError) ->
                     snd (run np opt psi) = Raised LinAlgError).
    { intros [H2 Hs].
      destruct (scf_body_diis_pass np opt sq (MAXITER opt) st Hc H2)
        as [Hraise _].
      destruct (Hraise Hs) as (st' & Hb & _). exact (Hloop _ _ Hb). }
    split; [|split; assumption].
    intros E HE.
    destruct (scf_tail_last_pass np opt sq st1) as (e & st' & Ht & _).
    assert (Hb : scf_body np opt sq (MAXITER opt) st = Raise e st')
      by (unfold scf_body; fold st1; rewrite Hc; exact Ht).
    rewrite (Hloop _ _ Hb) in HE. discriminate.
  - intros H1 Hmem Hc. apply Qltb_false_of_le in Hmem.
    rewrite run_cases, Hmem. fold sq. cbv zeta.
    unfold scf_iterations. rewrite H1. simpl scf_loop.
    unfold scf_body. rewrite Hc.
    destruct (scf_tail_last_pass np opt sq
                (scf_head np sq 1 (pre_iteration np psi sq)))
      as (e & st' & Hr & He).
    rewrite H1 in Hr. rewrite Hr. simpl.
    destruct He as [-> | [_ H2]]; [reflexivity | lia].
Qed.

Lemma flipping_reaches_limit :
  reaches TwoLevel.np TwoLevel.two_passes TwoLevel.flipping
    (statics_of TwoLevel.flipping) 2 TwoLevel.second_pass.
Proof.
  apply reaches_next with
    (st := pre_iteration TwoLevel.np TwoLevel.flipping
             (statics_of TwoLevel.flipping)).
  - apply reaches_first.
  - vm_compute. reflexivity.
Qed.

(** The flipping molecule.  With [MAXITER = 1] the first pass is not
    converged and the program raises the exception of the iteration limit;
    with [MAXITER = 2] the second pass is the last one and is not
    converged, its DIIS solve raises, and the program ends with
    [LinAlgError]. *)
Lemma maxiter_raises_witness :
  snd (run TwoLevel.np TwoLevel.one_pass TwoLevel.flipping)
  = Raised MaxIterExceeded /\
  snd (run TwoLevel.np TwoLevel.two_passes TwoLevel.flipping)
  = Raised LinAlgError.
Proof.
  split.
  - pose proof (maxiter_raises TwoLevel.np TwoLevel.one_pass
                  TwoLevel.flipping) as Hw.
    cbv zeta in Hw. destruct Hw as (_ & _ & Hone).
    + simpl. lia.
    + apply Hone.
      * reflexivity.
      * vm_compute. discriminate.
      * vm_compute. reflexivity.
  - pose proof (maxiter_raises TwoLevel.np TwoLevel.two_passes
                  TwoLevel.flipping) as Hw.
    cbv zeta in Hw. destruct Hw as (_ & Hlast & _).
    + simpl. lia.
    + destruct (Hlast TwoLevel.second_pass) as (_ & _ & Hsolve).
      * vm_compute. discriminate.
      * exact flipping_reaches_limit.
      * vm_compute. reflexivity.
      * apply Hsolve. split; [simpl; lia|]. left. vm_compute. reflexivity.
Defined.

(** C5, counterexample.  The flipping molecule with [MAXITER = 2]: the
    loop gets to the second pass, which is the last one and is not
    converged; the DIIS solve of that pass meets a zero pivot and the run
    ends with [LinAlgError], not with the exception of the iteration
    limit. *)
Lemma limit_pass_solve_error :
  MAXITER TwoLevel.two_passes = 2%nat /\
  converged TwoLevel.two_passes
    (scf_head TwoLevel.np (statics_of TwoLevel.flipping) 2 TwoLevel.second_pass)
  = false /\
  iterations_run (fst (run TwoLevel.np TwoLevel.two_passes TwoLevel.flipping))
  = 2%nat /\
  snd (run TwoLevel.np TwoLevel.two_passes TwoLevel.flipping)
  = Raised LinAlgError /\
  ~ (forall opt psi st,
       (1 <= MAXITER opt)%nat ->
       reaches TwoLevel.np opt psi (statics_of psi) (MAXITER opt) st ->
       converged opt (scf_head TwoLevel.np (statics_of psi) (MAXITER opt) st)
       = false ->
       snd (run TwoLevel.np opt psi) = Raised MaxIterExceeded).
Proof.
  assert (Hc : converged TwoLevel.two_passes
                 (scf_head TwoLevel.np (statics_of TwoLevel.flipping) 2
                    TwoLevel.second_pass) = false)
    by (vm_compute; reflexivity).
  assert (Hrun : snd (run TwoLevel.np TwoLevel.two_passes TwoLevel.flipping)
                 = Raised LinAlgError) by (vm_compute; reflexivity).
  split; [reflexivity|]. split; [exact Hc|].
  split; [vm_compute; reflexivity|]. split; [exact Hrun|].
  intros Hclaim.
  specialize (Hclaim TwoLevel.two_passes TwoLevel.flipping TwoLevel.second_pass).
  rewrite Hrun in Hclaim.
  assert (Hl : (1 <= MAXITER TwoLevel.two_passes)%nat) by (simpl; lia).
  specialize (Hclaim Hl flipping_reaches_limit Hc). discriminate Hclaim.
Qed.

(** Outside the range of the specification, with [MAXITER = 0]: the loop
    has no pass, and the program prints that the SCF converged, with the
    energy 0 of cell 14. *)
Remark loop_without_passes (np : numlib) (opt : options) (psi : psi4) :
  MAXITER opt = 0%nat ->
  eri_size (nso psi) <= numpy_memory opt ->
  snd (run np opt psi) = Ok 0.
Proof.
  intros Hmax Hmem. apply Qltb_false_of_le in Hmem.
  rewrite run_cases, Hmem. cbv zeta. unfold scf_iterations. rewrite Hmax.
  cbn [scf_loop snd].
  destruct (pre_iteration_fields np psi (statics_of psi)) as (_ & -> & _).
  reflexivity.
Qed.

(** ** An error of the linear solve *)

(** C1, as the code has it.  In a pass from the second on that is not
    converged, when [np.linalg.solve] raises [LinAlgError] for the matrix B
    of either spin, nothing catches it: the pass ends with that exception
    before any orbital update, nothing further is printed, the loop ends in
    that pass, and the program ends with [LinAlgError] instead of a result.
    The code has no test of B of its own: the pass ends with
    [LinAlgError] only when a solve raises it, whatever the determinant of
    B is. *)
Theorem solve_error_propagates (np : numlib) (opt : options) (psi : psi4)
  (k : nat) (st : scf_state) :
  let sq := statics_of psi in
  let st1 := scf_head np sq k st in
  let solve_a := solve np (build_B (F_list_a st1) (R_list_a st1))
                   (build_rhs (length (F_list_a st1) + 1)) in
  let solve_b := solve np (build_B (F_list_b st1) (R_list_b st1))
                   (build_rhs (length (F_list_b st1) + 1)) in
  reaches np opt psi sq k st ->
  (2 <= k <= MAXITER opt)%nat ->
  eri_size (nso psi) <= numpy_memory opt ->
  converged opt st1 = false ->
  (solve_a = Raised LinAlgError \/ solve_b = Raised LinAlgError ->
   exists st',
     scf_body np opt sq k st = Raise LinAlgError st' /\
     (Ca st', Da st', Cb st', Db st') = (Ca st, Da st, Cb st, Db st) /\
     out st' = out st1 /\
     scf_iterations np opt psi sq = Failed k LinAlgError st' /\
     snd (run np opt psi) = Raised LinAlgError /\
     iterations_run (fst (run np opt psi)) = iterations_run (out st1)) /\
  (forall st', scf_body np opt sq k st = Raise LinAlgError st' ->
   solve_a = Raised LinAlgError \/ solve_b = Raised LinAlgError).
Proof.
  intros sq st1 solve_a solve_b Hr Hk Hmem Hc.
  destruct (scf_body_diis_pass np opt sq k st Hc (proj1 Hk))
    as [Hraise Hret].
  split.
  - intros Hs. destruct (Hraise Hs) as (st' & Hb & HCD & Hout). exists st'.
    assert (Hloop : scf_iterations np opt psi sq = Failed k LinAlgError st').
    { rewrite (reaches_loop np opt psi sq k st Hr) by lia. simpl.
      rewrite Hb. reflexivity. }
    split; [exact Hb|]. split; [exact HCD|]. split; [exact Hout|].
    split; [exact Hloop|].
    apply Qltb_false_of_le in Hmem.
    rewrite run_cases, Hmem. fold sq. cbv zeta. rewrite Hloop. cbn [fst snd].
    split; [reflexivity|].
    rewrite iterations_run_app, Hout.
    change (iterations_run ((events_before_check psi ++ events_after_check)
                            ++ [EvNuclearRepulsion])) with 0%nat.
    reflexivity.
  - intros st' Hb. subst solve_a solve_b.
    destruct (solve np (build_B (F_list_a st1) _) _) as [ca|ea] eqn:Ha.
    2:{ left. f_equal. exact (solve_raises _ _ _ _ Ha). }
    destruct (solve np (build_B (F_list_b st1) _) _) as [cb|eb] eqn:Hsb.
    2:{ right. f_equal. exact (solve_raises _ _ _ _ Hsb). }
    exfalso. destruct (Hret ca cb Ha Hsb) as (st'' & Hbody & _).
    rewrite Hb in Hbody. destruct (k =? MAXITER opt)%nat; discriminate.
Qed.

(** The second pass of the flipping molecule, where the solve raises. *)
Lemma solve_error_propagates_witness :
  exists st',
    scf_body TwoLevel.np TwoLevel.defaults (statics_of TwoLevel.flipping) 2
      TwoLevel.second_pass = Raise LinAlgError st' /\
    snd (run TwoLevel.np TwoLevel.defaults TwoLevel.flipping)
    = Raised LinAlgError.
Proof.
  destruct (solve_error_propagates TwoLevel.np TwoLevel.defaults
              TwoLevel.flipping 2 TwoLevel.second_pass
              flipping_reaches_second) as [Hraise _].
  - simpl. lia.
  - vm_compute. discriminate.
  - vm_compute. reflexivity.
  - destruct Hraise as (st' & Hb & _ & _ & _ & Hrun & _).
    + left. vm_compute. reflexivity.
    + exists st'. split; assumption.
Defined.

(** C1, counterexample.  In the run of the flipping molecule under the
    options of the notebook, the second pass is not converged and its
    matrix B is singular; the pass does not go on with the Fock matrix it
    built, the run ends with [LinAlgError] after 2 of at most 40 passes. *)
Lemma singular_B_no_fallback :
  converged TwoLevel.defaults
    (scf_head TwoLevel.np (statics_of TwoLevel.flipping) 2 TwoLevel.second_pass)
  = false /\
  det (build_B
         (F_list_a (scf_head TwoLevel.np (statics_of TwoLevel.flipping) 2
                      TwoLevel.second_pass))
         (R_list_a (scf_head TwoLevel.np (statics_of TwoLevel.flipping) 2
                      TwoLevel.second_pass))) == 0 /\
  snd (run TwoLevel.np TwoLevel.defaults TwoLevel.flipping) = Raised LinAlgError /\
  iterations_run (fst (run TwoLevel.np TwoLevel.defaults TwoLevel.flipping))
  = 2%nat /\
  MAXITER TwoLevel.defaults = 40%nat /\
  ~ (forall k st,
       reaches TwoLevel.np TwoLevel.defaults TwoLevel.flipping
         (statics_of TwoLevel.flipping) k st ->
       converged TwoLevel.defaults
         (scf_head TwoLevel.np (statics_of TwoLevel.flipping) k st) = false ->
       det (build_B
              (F_list_a (scf_head TwoLevel.np (statics_of TwoLevel.flipping) k st))
              (R_list_a (scf_head TwoLevel.np (statics_of TwoLevel.flipping) k st)))
       == 0 ->
       exists st',
         scf_body TwoLevel.np TwoLevel.defaults (statics_of TwoLevel.flipping) k st
         = Next st' /\
         Fa st' = Fa (scf_head TwoLevel.np (statics_of TwoLevel.flipping) k st)).
Proof.
  assert (Hc : converged TwoLevel.defaults
                 (scf_head TwoLevel.np (statics_of TwoLevel.flipping) 2
                    TwoLevel.second_pass) = false)
    by (vm_compute; reflexivity).
  assert (Hd : det (build_B
         (F_list_a (scf_head TwoLevel.np (statics_of TwoLevel.flipping) 2
                      TwoLevel.second_pass))
         (R_list_a (scf_head TwoLevel.np (statics_of TwoLevel.flipping) 2
                      TwoLevel.second_pass))) == 0)
    by (vm_compute; reflexivity).
  split; [exact Hc|]. split; [exact Hd|].
  split; [vm_compute; reflexivity|]. split; [vm_compute; reflexivity|].
  split; [reflexivity|].
  intros Hclaim.
  destruct (Hclaim 2%nat TwoLevel.second_pass flipping_reaches_second Hc Hd)
    as (st' & Hnext & _).
  revert Hnext. vm_compute. discriminate.
Qed.

(** ** The memory check *)

(** C8.  For every number of basis functions and every [numpy_memory]
    below the projected size of the tensor, [nbf ** 4 * 8e-9], the program
    raises the exception of the memory limit.  Up to then it has built the
    wavefunction, fetched the overlap matrix and printed the sizes; it has
    not called [mints.ao_eri()] nor done anything that follows the check in
    the notebook (kinetic and potential integrals, orthogonalizer, nuclear
    repulsion, the start of the iterations), and no pass of the SCF loop
    was started. *)
Theorem memory_check_before_eri (np : numlib) (opt : options) (psi : psi4) :
  numpy_memory opt < eri_size (nso psi) ->
  run np opt psi
  = (events_before_check psi ++ [EvClean], Raised MemoryLimitExceeded) /\
  Forall (fun ev => ~ In ev (fst (run np opt psi)))
    [EvAoEri; EvAoKinetic; EvAoPotential; EvPower; EvNuclearRepulsion;
     EvPrintStart] /\
  iterations_run (fst (run np opt psi)) = 0%nat.
Proof.
  intros Hlt. apply Qltb_lt in Hlt.
  assert (Hrun : run np opt psi
    = (events_before_check psi ++ [EvClean], Raised MemoryLimitExceeded))
    by (rewrite run_cases, Hlt; reflexivity).
  rewrite Hrun. split; [reflexivity|]. split; [|reflexivity].
  repeat constructor; simpl;
    intros [Hin|[Hin|[Hin|[Hin|[Hin|[Hin|[]]]]]]]; discriminate.
Qed.

(** The stable molecule with a budget of 1e-8 GB, below the 1.28e-7 GB of
    its tensor. *)
Lemma memory_check_before_eri_witness :
  run TwoLevel.np TwoLevel.no_memory TwoLevel.stable
  = (events_before_check TwoLevel.stable ++ [EvClean],
     Raised MemoryLimitExceeded) /\
  Forall (fun ev =>
            ~ In ev (fst (run TwoLevel.np TwoLevel.no_memory TwoLevel.stable)))
    [EvAoEri; EvAoKinetic; EvAoPotential; EvPower; EvNuclearRepulsion;
     EvPrintStart] /\
  iterations_run (fst (run TwoLevel.np TwoLevel.no_memory TwoLevel.stable))
  = 0%nat.
Proof.
  apply (memory_check_before_eri TwoLevel.np TwoLevel.no_memory TwoLevel.stable).
  vm_compute. reflexivity.
Defined.

(** * Further properties of the code *)

(** ** Array assignment *)

Lemma length_set_nth {T : Type} (i : nat) (x : T) (l : list T) :
  length (set_nth i x l) = length l.
Proof.
  revert i. induction l as [|y l IH]; intros [|i]; simpl; auto.
Qed.

Lemma nth_set_nth {T : Type} (i j : nat) (x d : T) (l : list T) :
  nth j (set_nth i x l) d
  = if (j =? i)%nat && (i <? length l)%nat then x else nth j l d.
Proof.
  revert i j. induction l as [|y l IH]; intros i j; simpl.
  - rewrite andb_false_r. destruct i; reflexivity.
  - destruct i as [|i], j as [|j]; simpl; try reflexivity.
    rewrite IH. reflexivity.
Qed.

Lemma nth_map_const {T U : Type} (x d : U) (l : list T) (j : nat) :
  (j < length l)%nat -> nth j (map (fun _ => x) l) d = x.
Proof.
  revert j. induction l as [|y l IH]; intros [|j] Hj; simpl in *;
    try lia; [reflexivity|]. apply IH. lia.
Qed.

Lemma is_mat_set_nth (n m i : nat) (row : list Q) (X : mat) :
  is_mat n m X -> length row = m -> is_mat n m (set_nth i row X).
Proof.
  intros [Hn HX] Hrow. split; [rewrite length_set_nth; exact Hn|].
  clear Hn. revert i. induction HX as [|r X Hr HX IH]; intros [|i]; simpl;
    constructor; auto.
Qed.

Lemma is_mat_mset (n m i j : nat) (x : Q) (X : mat) :
  is_mat n m X -> is_mat n m (mset i j x X).
Proof.
  intros HX. unfold mset. destruct (Nat.lt_ge_cases i n) as [Hi | Hi].
  - apply is_mat_set_nth; [exact HX|].
    rewrite length_set_nth. exact (is_mat_row n m X i HX Hi).
  - destruct HX as [Hn HX]. split.
    + rewrite length_set_nth. exact Hn.
    + assert (Hsame : forall (l : mat) r k, (length l <= k)%nat ->
                set_nth k r l = l).
      { induction l as [|y l IH]; intros r [|k] Hk; simpl in *;
          try reflexivity; try lia. rewrite IH by lia. reflexivity. }
      rewrite Hsame by lia. exact HX.
Qed.

Lemma mget_mset (n m i j : nat) (x : Q) (X : mat) (i' j' : nat) :
  is_mat n m X -> (i < n)%nat -> (j < m)%nat ->
  mget (mset i j x X) i' j'
  = if (i' =? i)%nat && (j' =? j)%nat then x else mget X i' j'.
Proof.
  intros HX Hi Hj. unfold mget, mset.
  pose proof (is_mat_row n m X i HX Hi) as Hrow.
  destruct HX as [Hn _].
  rewrite nth_set_nth. rewrite Hn.
  destruct (Nat.ltb_spec i n) as [_|]; [|lia]. rewrite andb_true_r.
  destruct (Nat.eqb_spec i' i) as [->|Hne]; simpl; [|reflexivity].
  rewrite nth_set_nth, Hrow.
  destruct (Nat.ltb_spec j m) as [_|]; [|lia]. rewrite andb_true_r.
  reflexivity.
Qed.

Lemma mget_set_row (n m i : nat) (x : Q) (X : mat) (i' j' : nat) :
  is_mat n m X -> (i < n)%nat -> (j' < m)%nat ->
  mget (set_row i x X) i' j' = if (i' =? i)%nat then x else mget X i' j'.
Proof.
  intros HX Hi Hj. unfold mget, set_row.
  pose proof (is_mat_row n m X i HX Hi) as Hrow.
  destruct HX as [Hn _].
  rewrite nth_set_nth, Hn.
  destruct (Nat.ltb_spec i n) as [_|]; [|lia]. rewrite andb_true_r.
  destruct (Nat.eqb_spec i' i) as [->|Hne]; [|reflexivity].
  apply nth_map_const. lia.
Qed.

Lemma is_mat_set_row (n m i : nat) (x : Q) (X : mat) :
  is_mat n m X -> (i < n)%nat -> is_mat n m (set_row i x X).
Proof.
  intros HX Hi. unfold set_row. apply is_mat_set_nth; [exact HX|].
  rewrite length_map. exact (is_mat_row n m X i HX Hi).
Qed.

Lemma is_mat_set_col (n m j : nat) (x : Q) (X : mat) :
  is_mat n m X -> is_mat n m (set_col j x X).
Proof.
  intros [Hn HX]. unfold set_col. split; [rewrite length_map; exact Hn|].
  apply Forall_map. eapply Forall_impl; [|exact HX].
  intros row Hrow. simpl. rewrite length_set_nth. exact Hrow.
Qed.

Lemma mget_set_col (n m j : nat) (x : Q) (X : mat) (i' j' : nat) :
  is_mat n m X -> (i' < n)%nat -> (j < m)%nat ->
  mget (set_col j x X) i' j' = if (j' =? j)%nat then x else mget X i' j'.
Proof.
  intros HX Hi Hj. unfold mget, set_col.
  pose proof (is_mat_row n m X i' HX Hi) as Hrow.
  replace (nth i' (map (set_nth j x) X) [])
    with (set_nth j x (nth i' X [])).
  2:{ rewrite <- (map_nth (set_nth j x) X [] i'). destruct j; reflexivity. }
  rewrite nth_set_nth, Hrow.
  destruct (Nat.ltb_spec j m) as [_|]; [|lia]. rewrite andb_true_r.
  reflexivity.
Qed.

Lemma existsb_eqb_seq (j n : nat) :
  existsb (Nat.eqb j) (seq 0 n) = (j <? n)%nat.
Proof.
  destruct (Nat.ltb_spec j n) as [Hlt | Hge].
  - apply existsb_exists. exists j. split; [apply in_seq; lia|].
    apply Nat.eqb_refl.
  - destruct (existsb (Nat.eqb j) (seq 0 n)) eqn:He; [|reflexivity].
    apply existsb_exists in He. destruct He as (x & Hin & Hx).
    apply in_seq in Hin. apply Nat.eqb_eq in Hx. lia.
Qed.

(** ** The matrix B *)

Lemma fill_row_entries (N i : nat) (g : nat -> Q) (l : list nat) :
  forall B : mat,
  is_mat N N B -> (i < N)%nat -> (forall j, In j l -> (j < N)%nat) ->
  is_mat N N (fold_left (fun B j => mset i j (g j) B) l B) /\
  forall i' j',
    mget (fold_left (fun B j => mset i j (g j) B) l B) i' j'
    = if (i' =? i)%nat && existsb (Nat.eqb j') l then g j' else mget B i' j'.
Proof.
  induction l as [|j l IH]; intros B HB Hi Hl; simpl.
  - split; [exact HB|]. intros i' j'. rewrite andb_false_r. reflexivity.
  - assert (Hj : (j < N)%nat) by (apply Hl; left; reflexivity).
    destruct (IH (mset i j (g j) B) (is_mat_mset N N i j (g j) B HB) Hi)
      as [Hmat Hent].
    { intros j0 Hj0. apply Hl. right. exact Hj0. }
    split; [exact Hmat|]. intros i' j'. rewrite Hent.
    rewrite (mget_mset N N i j (g j) B i' j' HB Hi Hj).
    destruct (Nat.eqb_spec i' i) as [->|]; simpl; [|reflexivity].
    destruct (Nat.eqb_spec j' j) as [->|]; simpl.
    + destruct (existsb (Nat.eqb j) l); reflexivity.
    + reflexivity.
Qed.

Lemma fill_B_entries (N n : nat) (R : list mat) (l : list nat) :
  forall B : mat,
  is_mat N N B -> (n <= N)%nat -> (forall i, In i l -> (i < N)%nat) ->
  let fill B i :=
    fold_left (fun B j =>
      mset i j (einsum_ij_ij (nth i R []) (nth j R [])) B) (seq 0 n) B in
  is_mat N N (fold_left fill l B) /\
  forall i' j',
    mget (fold_left fill l B) i' j'
    = if existsb (Nat.eqb i') l && (j' <? n)%nat
      then einsum_ij_ij (nth i' R []) (nth j' R [])
      else mget B i' j'.
Proof.
  induction l as [|i l IH]; intros B HB Hn Hl fill; simpl.
  - split; [exact HB|]. reflexivity.
  - assert (Hi : (i < N)%nat) by (apply Hl; left; reflexivity).
    destruct (fill_row_entries N i
                (fun j => einsum_ij_ij (nth i R []) (nth j R []))
                (seq 0 n) B HB Hi) as [Hmat1 Hent1].
    { intros j Hj. apply in_seq in Hj. lia. }
    fold (fill B i) in Hmat1, Hent1.
    destruct (IH (fill B i) Hmat1 Hn) as [Hmat Hent].
    { intros i0 Hi0. apply Hl. right. exact Hi0. }
    split; [exact Hmat|]. intros i' j'. fold fill in Hent. rewrite Hent, Hent1.
    rewrite existsb_eqb_seq.
    destruct (Nat.eqb_spec i' i) as [->|]; simpl.
    + destruct (existsb (Nat.eqb i) l), (j' <? n)%nat; reflexivity.
    + reflexivity.
Qed.

Lemma build_B_spec (F_list DIIS_RESID : list mat) (i j : nat) :
  (i <= length F_list)%nat -> (j <= length F_list)%nat ->
  is_mat (length F_list + 1) (length F_list + 1) (build_B F_list DIIS_RESID) /\
  mget (build_B F_list DIIS_RESID) i j
  = if (i <? length F_list)%nat && (j <? length F_list)%nat
    then einsum_ij_ij (nth i DIIS_RESID []) (nth j DIIS_RESID [])
    else if (i =? length F_list)%nat && (j =? length F_list)%nat
         then 0 else -(1).
Proof.
  intros Hi Hj. unfold build_B, fill_B.
  set (k := length F_list) in *.
  replace (k + 1 - 1)%nat with k by lia.
  set (N := (k + 1)%nat).
  assert (H0 : is_mat N N (mk_mat N N (fun _ _ => 0))) by apply is_mat_mk_mat.
  assert (Hk : (k < N)%nat) by (unfold N; lia).
  assert (H1 : is_mat N N (set_row k (-(1)) (mk_mat N N (fun _ _ => 0))))
    by (apply is_mat_set_row; assumption).
  pose proof (is_mat_set_col N N k (-(1)) _ H1) as H2.
  pose proof (is_mat_mset N N k k 0 _ H2) as H3.
  destruct (fill_B_entries N k DIIS_RESID (seq 0 k) _ H3) as [Hmat Hent].
  { lia. }
  { intros x Hx. apply in_seq in Hx. lia. }
  split; [exact Hmat|]. rewrite Hent, existsb_eqb_seq.
  destruct ((i <? k)%nat && (j <? k)%nat) eqn:Hin; [reflexivity|].
  rewrite (mget_mset N N k k 0 _ i j H2 Hk Hk).
  destruct ((i =? k)%nat && (j =? k)%nat); [reflexivity|].
  rewrite (mget_set_col N N k (-(1)) _ i j H1) by lia.
  destruct (Nat.eqb_spec j k) as [->|Hjk]; [reflexivity|].
  rewrite (mget_set_row N N k (-(1)) _ i j H0) by lia.
  destruct (Nat.eqb_spec i k) as [->|Hik]; [reflexivity|].
  apply andb_false_iff in Hin. destruct Hin as [Hin | Hin];
    apply Nat.ltb_ge in Hin; lia.
Qed.

Lemma einsum_ij_ij_comm (n m : nat) (X Y : mat) :
  is_mat n m X -> is_mat n m Y -> einsum_ij_ij X Y == einsum_ij_ij Y X.
Proof.
  intros HX HY. unfold einsum_ij_ij, nrows.
  destruct HX as [HnX HrX], HY as [HnY HrY]. rewrite HnX, HnY.
  destruct n as [|n]; [reflexivity|].
  rewrite (is_mat_ncols (S n) m X (conj HnX HrX)) by lia.
  rewrite (is_mat_ncols (S n) m Y (conj HnY HrY)) by lia.
  apply Qsum_eq. intros i _. apply Qsum_eq. intros j _. apply Qmult_comm.
Qed.

(** X1. For every history with a residual for each trial vector, B is a square
    matrix of side [len(F_list) + 1]: the block of the first [len(F_list)]
    rows and columns holds the inner products of the residuals, the rest of
    the last row and of the last column is -1, and the corner is 0, so
    nothing of [np.empty] is left; and B is symmetric when the residuals
    have one shape. *)
Theorem build_B_entries (F_list DIIS_RESID : list mat) (n m i j : nat) :
  (length F_list <= length DIIS_RESID)%nat ->
  Forall (is_mat n m) DIIS_RESID ->
  (i <= length F_list)%nat -> (j <= length F_list)%nat ->
  is_mat (length F_list + 1) (length F_list + 1) (build_B F_list DIIS_RESID) /\
  mget (build_B F_list DIIS_RESID) i j
  = (if (i <? length F_list)%nat && (j <? length F_list)%nat
     then einsum_ij_ij (nth i DIIS_RESID []) (nth j DIIS_RESID [])
     else if (i =? length F_list)%nat && (j =? length F_list)%nat
          then 0 else -(1)) /\
  mget (build_B F_list DIIS_RESID) i j == mget (build_B F_list DIIS_RESID) j i.
Proof.
  intros Hlen HR Hi Hj.
  destruct (build_B_spec F_list DIIS_RESID i j Hi Hj) as [Hmat Hij].
  destruct (build_B_spec F_list DIIS_RESID j i Hj Hi) as [_ Hji].
  split; [exact Hmat|]. split; [exact Hij|].
  rewrite Hij, Hji. rewrite (andb_comm (j <? _)%nat), (andb_comm (j =? _)%nat).
  destruct ((i <? length F_list)%nat && (j <? length F_list)%nat) eqn:Hin;
    [|reflexivity].
  apply andb_true_iff in Hin. destruct Hin as [Hi' Hj'].
  apply Nat.ltb_lt in Hi', Hj'. rewrite Forall_forall in HR.
  apply (einsum_ij_ij_comm n m); apply HR; apply nth_In; lia.
Qed.

(** A history of two 1-by-1 residuals, at the entries (0, 1) and (1, 0). *)
Lemma build_B_entries_witness :
  mget (build_B [[[2]]; [[4]]] [[[1]]; [[-(1)]]]) 0 1
  == mget (build_B [[[2]]; [[4]]] [[[1]]; [[-(1)]]]) 1 0.
Proof.
  apply (build_B_entries [[[2]]; [[4]]] [[[1]]; [[-(1)]]] 1 1 0 1).
  - simpl. lia.
  - repeat constructor.
  - simpl. lia.
  - simpl. lia.
Defined.

(** ** The combination of the trial vectors *)

Lemma mget_map_map (f : Q -> Q) (n m : nat) (X : mat) (i j : nat) :
  is_mat n m X -> (i < n)%nat -> (j < m)%nat ->
  mget (map (map f) X) i j = f (mget X i j).
Proof.
  intros HX Hi Hj. unfold mget.
  pose proof (is_mat_row n m X i HX Hi) as Hrow. destruct HX as [Hn _].
  rewrite (nth_indep _ [] (map f [])) by (rewrite length_map; lia).
  rewrite map_nth.
  rewrite (nth_indep _ 0 (f 0)) by (rewrite length_map; lia).
  apply map_nth.
Qed.

Lemma is_mat_map_map (f : Q -> Q) (n m : nat) (X : mat) :
  is_mat n m X -> is_mat n m (map (map f) X).
Proof.
  intros [Hn HX]. split; [rewrite length_map; exact Hn|].
  apply Forall_map. eapply Forall_impl; [|exact HX].
  intros row Hrow. simpl. rewrite length_map. exact Hrow.
Qed.

Lemma combine_F_entries (n m : nat) (coeff : vec) (F_list : list mat)
  (F0 : mat) (k : nat) :
  Forall (is_mat n m) F_list -> (k <= length F_list)%nat -> is_mat n m F0 ->
  let step F_DIIS x :=
    madd F_DIIS (mscale (vget coeff x) (nth x F_list [])) in
  is_mat n m (fold_left step (seq 0 k) F0) /\
  forall i j, (i < n)%nat -> (j < m)%nat ->
    mget (fold_left step (seq 0 k) F0) i j
    == mget F0 i j
       + Qsum k (fun x => vget coeff x * mget (nth x F_list []) i j).
Proof.
  intros HF Hk H0 step. induction k as [|k IH].
  - simpl. split; [exact H0|]. intros i j _ _. ring.
  - destruct IH as [Hmat Hent]; [lia|].
    rewrite seq_S, fold_left_app. simpl fold_left. simpl Qsum.
    assert (HFk : is_mat n m (nth k F_list [])).
    { rewrite Forall_forall in HF. apply HF. apply nth_In. lia. }
    assert (Hsc : is_mat n m (mscale (vget coeff k) (nth k F_list [])))
      by (apply is_mat_map_map; exact HFk).
    split.
    + unfold step at 1, madd. apply is_mat_zip_with; assumption.
    + intros i j Hi Hj. unfold step at 1, madd.
      rewrite (mget_zip_with Qplus n m) by assumption.
      rewrite (Hent i j Hi Hj). unfold mscale.
      rewrite (mget_map_map _ n m) by assumption. ring.
Qed.

Lemma solve_length (np : numlib) (B : mat) (rhs coeff : vec) :
  solve np B rhs = Ok coeff -> length coeff = nrows B.
Proof.
  unfold solve. destruct (gesv np B rhs) as [x|] eqn:Hg; [|discriminate].
  intros Hc. injection Hc as <-. exact (gesv_shape np B rhs x Hg).
Qed.

(** On an empty history B is the 1-by-1 zero matrix, on which the solve
    raises: [F_list[0]] is never read on an empty list. *)
Lemma solve_empty_history (np : numlib) (DIIS_RESID : list mat)
  (rhs coeff : vec) :
  solve np (build_B [] DIIS_RESID) rhs <> Ok coeff.
Proof.
  change (build_B [] DIIS_RESID) with [[0]]. unfold solve.
  rewrite (gesv_zero np rhs). discriminate.
Qed.

Lemma diis_xtrap_sum (np : numlib) (F_list DIIS_RESID : list mat)
  (coeff : vec) (n m : nat) :
  Forall (is_mat n m) F_list ->
  (length F_list <= length DIIS_RESID)%nat ->
  solve np (build_B F_list DIIS_RESID) (build_rhs (length F_list + 1))
  = Ok coeff ->
  exists F_DIIS,
    diis_xtrap np F_list DIIS_RESID = Ok F_DIIS /\
    length coeff = (length F_list + 1)%nat /\
    is_mat n m F_DIIS /\
    forall i j, (i < n)%nat -> (j < m)%nat ->
      mget F_DIIS i j
      == Qsum (length F_list)
           (fun x => vget coeff x * mget (nth x F_list []) i j).
Proof.
  intros HF Hlen Hs.
  assert (Hc : length coeff = (length F_list + 1)%nat).
  { rewrite (solve_length _ _ _ _ Hs).
    apply (build_B_spec F_list DIIS_RESID 0 0); lia. }
  destruct F_list as [|F0 F_list];
    [exfalso; exact (solve_empty_history _ _ _ _ Hs)|].
  unfold diis_xtrap. rewrite Hs. eexists. split; [reflexivity|].
  split; [exact Hc|].
  assert (H0 : is_mat n m F0) by (apply Forall_inv in HF; exact HF).
  unfold combine_F. rewrite Hc.
  replace (length (F0 :: F_list) + 1 - 1)%nat with (length (F0 :: F_list))
    by lia.
  destruct (combine_F_entries n m coeff (F0 :: F_list)
              (zeros_like (nth 0 (F0 :: F_list) []))
              (length (F0 :: F_list)) HF (le_n _)) as [Hmat Hent].
  { apply is_mat_map_map. exact H0. }
  split; [exact Hmat|]. intros i j Hi Hj. rewrite (Hent i j Hi Hj).
  unfold zeros_like. simpl nth at 1.
  rewrite (mget_map_map _ n m) by assumption. ring.
Qed.

(** X3. When the solve succeeds on a history of trial vectors of one shape,
    [diis_xtrap] returns a matrix of that shape whose entries are the sums
    of [coeff[x] * F_list[x]] over the history; the last coefficient, the
    multiplier of the constraint, does not enter. *)
Theorem diis_xtrap_combination (np : numlib) (F_list DIIS_RESID : list mat)
  (coeff : vec) (n m : nat) :
  Forall (is_mat n m) F_list ->
  (length F_list <= length DIIS_RESID)%nat ->
  solve np (build_B F_list DIIS_RESID) (build_rhs (length F_list + 1))
  = Ok coeff ->
  exists F_DIIS,
    diis_xtrap np F_list DIIS_RESID = Ok F_DIIS /\
    length coeff = (length F_list + 1)%nat /\
    is_mat n m F_DIIS /\
    forall i j, (i < n)%nat -> (j < m)%nat ->
      mget F_DIIS i j
      == Qsum (length F_list)
           (fun x => vget coeff x * mget (nth x F_list []) i j).
Proof. exact (diis_xtrap_sum np F_list DIIS_RESID coeff n m). Qed.

(** The history of the example [diis_xtrap_two]. *)
Lemma diis_xtrap_combination_witness :
  exists F_DIIS,
    diis_xtrap TwoLevel.np [[[2]]; [[4]]] [[[1]]; [[-(1)]]] = Ok F_DIIS /\
    is_mat 1 1 F_DIIS.
Proof.
  destruct (diis_xtrap_combination TwoLevel.np
              [[[2]]; [[4]]] [[[1]]; [[-(1)]]]
              (match solve TwoLevel.np
                       (build_B [[[2]]; [[4]]] [[[1]]; [[-(1)]]])
                       (build_rhs 3) with
               | Ok c => c
               | Raised _ => []
               end) 1 1) as (X & HX & _ & Hmat & _).
  - repeat constructor.
  - simpl. lia.
  - vm_compute. reflexivity.
  - exists X. split; assumption.
Defined.

(** ** The density of diag_F *)

Lemma diag_F_unfold (np : numlib) (sq : statics) (F : mat) (norb : nat) :
  diag_F np sq F norb
  = (dot (A sq) (snd (eigh np (dot (dot (A sq) F) (A sq)))),
     einsum_pi_qi_pq
       (map (firstn norb)
          (dot (A sq) (snd (eigh np (dot (dot (A sq) F) (A sq))))))
       (map (firstn norb)
          (dot (A sq) (snd (eigh np (dot (dot (A sq) F) (A sq))))))).
Proof.
  unfold diag_F. destruct (eigh np (dot (dot (A sq) F) (A sq))). reflexivity.
Qed.

Lemma nrows_dot (X Y : mat) : nrows (dot X Y) = nrows X.
Proof. apply length_tabulate. Qed.

Lemma nrows_firstn_cols (n : nat) (X : mat) :
  nrows (map (firstn n) X) = nrows X.
Proof. apply length_map. Qed.

Lemma ncols_mk_mat (n m : nat) (f : nat -> nat -> Q) :
  (0 < n)%nat -> ncols (mk_mat n m f) = m.
Proof.
  intros Hn. exact (is_mat_ncols n m _ (is_mat_mk_mat n m f) Hn).
Qed.

Lemma diag_F_density (np : numlib) (sq : statics) (F : mat)
  (norb : nat) :
  nrows (fst (diag_F np sq F norb)) = nrows (A sq) /\
  is_mat (nrows (A sq)) (nrows (A sq)) (snd (diag_F np sq F norb)) /\
  symmetric (snd (diag_F np sq F norb)).
Proof.
  rewrite diag_F_unfold. cbn [fst snd].
  set (C := dot (A sq) (snd (eigh np (dot (dot (A sq) F) (A sq))))).
  assert (HC : nrows C = nrows (A sq)) by apply length_tabulate.
  assert (Hocc : nrows (map (firstn norb) C) = nrows (A sq))
    by (unfold nrows in *; rewrite length_map; exact HC).
  split; [exact HC|]. unfold einsum_pi_qi_pq. rewrite Hocc.
  set (r := nrows (A sq)).
  set (f := fun p q : nat => Qsum (ncols (map (firstn norb) C))
              (fun i => mget (map (firstn norb) C) p i
                        * mget (map (firstn norb) C) q i)).
  split; [apply is_mat_mk_mat|].
  unfold symmetric, transpose.
  assert (Hr : nrows (mk_mat r r f) = r) by apply length_tabulate.
  rewrite Hr. destruct r as [|r'] eqn:Er; [constructor|].
  rewrite ncols_mk_mat by lia.
  apply mat_eq_mk_mat. intros i j Hi Hj.
  rewrite mget_mk_mat by assumption. unfold f.
  apply Qsum_eq. intros l _. apply Qmult_comm.
Qed.

(** X5. Whatever [eigh] returns, for every F and every [norb]: the coefficient
    matrix has as many rows as [A], and the density is a square matrix of
    that side and is symmetric. *)
Theorem diag_F_density_symmetric (np : numlib) (sq : statics) (F : mat)
  (norb : nat) :
  nrows (fst (diag_F np sq F norb)) = nrows (A sq) /\
  is_mat (nrows (A sq)) (nrows (A sq)) (snd (diag_F np sq F norb)) /\
  symmetric (snd (diag_F np sq F norb)).
Proof. exact (diag_F_density np sq F norb). Qed.

Lemma firstn_rows_all (norb c : nat) (X : mat) :
  Forall (fun row => length row = c) X -> (c <= norb)%nat ->
  map (firstn norb) X = X.
Proof.
  intros HX Hc. induction HX as [|row X Hrow HX IH]; simpl; [reflexivity|].
  rewrite IH, firstn_all2 by lia. reflexivity.
Qed.

Lemma ncols_firstn_zero (X : mat) : ncols (map (firstn 0) X) = 0%nat.
Proof. destruct X; reflexivity. Qed.

(** X6. The slice [C[:, :norb]] at its bounds.  With [norb = 0] the density is
    the zero matrix.  With [norb] at or above the number of columns that
    [eigh] returned the slice is all of C, so that every such [norb] gives
    the same result as that number of columns. *)
Theorem diag_F_occupation_bounds (np : numlib) (sq : statics) (F : mat)
  (norb : nat) :
  snd (diag_F np sq F 0)
  = mk_mat (nrows (A sq)) (nrows (A sq)) (fun _ _ => 0) /\
  ((ncols (snd (eigh np (dot (dot (A sq) F) (A sq)))) <= norb)%nat ->
   diag_F np sq F norb
   = diag_F np sq F (ncols (snd (eigh np (dot (dot (A sq) F) (A sq)))))).
Proof.
  split.
  - rewrite diag_F_unfold. cbn [snd]. unfold einsum_pi_qi_pq.
    rewrite ncols_firstn_zero, nrows_firstn_cols, nrows_dot. reflexivity.
  - intros Hc. rewrite !diag_F_unfold.
    set (C' := snd (eigh np (dot (dot (A sq) F) (A sq)))) in *.
    assert (HC : Forall (fun row => length row = ncols C') (dot (A sq) C'))
      by apply is_mat_mk_mat.
    rewrite (firstn_rows_all norb (ncols C') _ HC Hc).
    rewrite (firstn_rows_all (ncols C') (ncols C') _ HC (le_n _)).
    reflexivity.
Qed.

(** The core Hamiltonian of the flipping molecule with [norb = 5] and two
    basis functions. *)
Lemma diag_F_occupation_bounds_witness :
  diag_F TwoLevel.np (statics_of TwoLevel.flipping)
    (H (statics_of TwoLevel.flipping)) 5
  = diag_F TwoLevel.np (statics_of TwoLevel.flipping)
      (H (statics_of TwoLevel.flipping)) 2.
Proof.
  apply (diag_F_occupation_bounds TwoLevel.np (statics_of TwoLevel.flipping)
           (H (statics_of TwoLevel.flipping)) 5).
  vm_compute. repeat constructor.
Defined.

(** ** Invariants of the loop *)

Lemma iter_numbers_app (l l' : list event) :
  iter_numbers (l ++ l') = iter_numbers l ++ iter_numbers l'.
Proof. apply flat_map_app. Qed.

Lemma iter_numbers_length (l : list event) :
  length (iter_numbers l) = iterations_run l.
Proof.
  unfold iter_numbers, iterations_run.
  induction l as [|ev l IH]; simpl; [reflexivity|].
  destruct ev; simpl; auto.
Qed.

Section Runs.

Variable np : numlib.
Variable opt : options.
Variable psi : psi4.
Variable sq : statics.

(** What every pass does to the variables, however it ends. *)
Lemma scf_body_effect (scf_iter : nat) (st : scf_state) :
  let st1 := scf_head np sq scf_iter st in
  let st' := signal_state (scf_body np opt sq scf_iter st) in
  F_list_a st' = F_list_a st ++ [Fa st1] /\
  F_list_b st' = F_list_b st ++ [Fb st1] /\
  R_list_a st' = R_list_a st ++ [diis_r_a st1] /\
  R_list_b st' = R_list_b st ++ [diis_r_b st1] /\
  SCF_E st' = SCF_E st1 /\ E_nuc st' = E_nuc st /\
  exists rest,
    out st' = out st ++ EvPrintIter scf_iter (SCF_E st1) (dE st1) (dRMS st1)
                         :: rest /\
    iter_numbers rest = [].
Proof.
  intros st1 st'.
  assert (Hh : F_list_a st1 = F_list_a st ++ [Fa st1] /\
               F_list_b st1 = F_list_b st ++ [Fb st1] /\
               R_list_a st1 = R_list_a st ++ [diis_r_a st1] /\
               R_list_b st1 = R_list_b st ++ [diis_r_b st1] /\
               SCF_E st1 = SCF_E st1 /\ E_nuc st1 = E_nuc st /\
               exists rest,
                 out st1 = out st ++ EvPrintIter scf_iter (SCF_E st1)
                                       (dE st1) (dRMS st1) :: rest /\
                 iter_numbers rest = []).
  { repeat split. exists []. split; reflexivity. }
  assert (Hc : F_list_a st1 = F_list_a st ++ [Fa st1] /\
               F_list_b st1 = F_list_b st ++ [Fb st1] /\
               R_list_a st1 = R_list_a st ++ [diis_r_a st1] /\
               R_list_b st1 = R_list_b st ++ [diis_r_b st1] /\
               SCF_E st1 = SCF_E st1 /\ E_nuc st1 = E_nuc st /\
               exists rest,
                 out st1 ++ [EvClean]
                 = out st ++ EvPrintIter scf_iter (SCF_E st1)
                               (dE st1) (dRMS st1) :: rest /\
                 iter_numbers rest = []).
  { repeat split. exists [EvClean]. split; [|reflexivity].
    change (out st1) with (out st ++ [EvPrintIter scf_iter (SCF_E st1)
                                        (dE st1) (dRMS st1)]).
    rewrite <- app_assoc. reflexivity. }
  unfold st', scf_body. fold st1. destruct (converged opt st1); [exact Hh|].
  unfold scf_tail, diis_step, orbital_step.
  destruct (2 <=? scf_iter)%nat.
  - destruct (diis_xtrap np (F_list_a _) _); [|exact Hh]. cbv zeta.
    destruct (diis_xtrap np (F_list_b _) _); [|exact Hh].
    destruct (scf_iter =? MAXITER opt)%nat; [exact Hc | exact Hh].
  - destruct (scf_iter =? MAXITER opt)%nat; [exact Hc | exact Hh].
Qed.

Lemma scf_body_next_state (scf_iter : nat) (st st' : scf_state) :
  scf_body np opt sq scf_iter st = Next st' ->
  st' = signal_state (scf_body np opt sq scf_iter st).
Proof. intros ->. reflexivity. Qed.

Lemma scf_head_spin (scf_iter : nat) (st : scf_state) :
  Da st = Db st -> F_list_a st = F_list_b st -> R_list_a st = R_list_b st ->
  let st1 := scf_head np sq scf_iter st in
  Fa st1 = Fb st1 /\ diis_r_a st1 = diis_r_b st1 /\
  F_list_a st1 = F_list_b st1 /\ R_list_a st1 = R_list_b st1.
Proof.
  intros HD HF HR. simpl. rewrite HD, HF, HR. repeat split.
Qed.

Lemma reaches_spin (k : nat) (st : scf_state) :
  nalpha sq = nbeta sq ->
  reaches np opt psi sq k st ->
  Ca st = Cb st /\ Da st = Db st /\
  F_list_a st = F_list_b st /\ R_list_a st = R_list_b st.
Proof.
  intros Hocc. induction 1 as [|k st st' Hr IH Hn].
  - destruct (pre_iteration_fields np psi sq)
      as (_ & _ & -> & -> & -> & -> & Ha & Hb & _).
    rewrite <- Hocc, <- Ha in Hb. injection Hb as -> ->. repeat split.
  - destruct IH as (_ & HD & HF & HR).
    destruct (scf_head_spin k st HD HF HR) as (HFab & _ & HF1 & HR1).
    apply scf_body_next in Hn.
    destruct Hn as (_ & H1 & H2 & HCa & HCb & -> & -> & -> & -> & _).
    assert (HFa : Fa st' = Fb st').
    { destruct (Nat.lt_ge_cases k 2) as [Hlt | Hge].
      - destruct (H1 Hlt) as [-> ->]. exact HFab.
      - destruct (H2 Hge) as [Ha Hb]. rewrite HF1, HR1 in Ha.
        rewrite Ha in Hb. injection Hb as ->. reflexivity. }
    rewrite <- Hocc, <- HFa, <- HCa in HCb. injection HCb as -> ->.
    repeat split; assumption.
Qed.

(** X7. With as many alpha as beta electrons the two spins never differ: at
    the start of every pass of a run the coefficients, densities and
    histories of the two spins are the same arrays, and the pass builds the
    same Fock matrix and the same residual for both. *)
Theorem closed_shell_spins_agree (k : nat) (st : scf_state) :
  nalpha sq = nbeta sq ->
  reaches np opt psi sq k st ->
  Ca st = Cb st /\ Da st = Db st /\
  F_list_a st = F_list_b st /\ R_list_a st = R_list_b st /\
  Fa (scf_head np sq k st) = Fb (scf_head np sq k st) /\
  diis_r_a (scf_head np sq k st) = diis_r_b (scf_head np sq k st).
Proof.
  intros Hocc Hr.
  destruct (reaches_spin k st Hocc Hr) as (HC & HD & HF & HR).
  destruct (scf_head_spin k st HD HF HR) as (HFab & Hrab & _).
  repeat split; assumption.
Qed.



Lemma scf_body_numbers (scf_iter : nat) (st : scf_state) :
  iter_numbers (out (signal_state (scf_body np opt sq scf_iter st)))
  = iter_numbers (out st) ++ [scf_iter].
Proof.
  destruct (scf_body_effect scf_iter st)
    as (_ & _ & _ & _ & _ & _ & rest & -> & Hrest).
  rewrite iter_numbers_app. simpl. rewrite Hrest. reflexivity.
Qed.

Lemma scf_body_raise_pass (scf_iter : nat) (st st' : scf_state) (e : exn) :
  scf_body np opt sq scf_iter st = Raise e st' ->
  e = MaxIterExceeded /\ scf_iter = MAXITER opt \/
  e = LinAlgError /\ (2 <= scf_iter)%nat.
Proof.
  unfold scf_body. destruct (converged opt _); [discriminate|].
  unfold scf_tail.
  destruct (diis_step np scf_iter _) eqn:Hd.
  - unfold orbital_step.
    destruct (Nat.eqb_spec scf_iter (MAXITER opt)) as [Heq|]; [|discriminate].
    intros Hr. injection Hr as <- _. auto.
  - discriminate.
  - intros Hr. injection Hr as <- _. apply diis_step_raises in Hd. auto.
Qed.

(** The passes of a loop of at most [todo] passes from pass [k]: their
    number [p], what they append, and the numbers they print. *)
Lemma scf_loop_effect (todo : nat) : forall (k : nat) (st : scf_state),
  exists (p : nat) (la lb ra rb : list mat),
    (p <= todo)%nat /\
    F_list_a (final_state (scf_loop np opt sq todo k st)) = F_list_a st ++ la /\
    F_list_b (final_state (scf_loop np opt sq todo k st)) = F_list_b st ++ lb /\
    R_list_a (final_state (scf_loop np opt sq todo k st)) = R_list_a st ++ ra /\
    R_list_b (final_state (scf_loop np opt sq todo k st)) = R_list_b st ++ rb /\
    length la = p /\ length lb = p /\ length ra = p /\ length rb = p /\
    iter_numbers (out (final_state (scf_loop np opt sq todo k st)))
    = iter_numbers (out st) ++ seq k p /\
    match scf_loop np opt sq todo k st with
    | Broke K _ => (K + 1 = k + p)%nat /\ (1 <= p)%nat
    | Failed K e _ =>
        (K + 1 = k + p)%nat /\ (1 <= p)%nat /\
        (e = MaxIterExceeded /\ K = MAXITER opt \/
         e = LinAlgError /\ (2 <= K)%nat)
    | Exhausted _ => p = todo
    end.
Proof.
  induction todo as [|todo IH]; intros k st.
  - exists 0%nat, [], [], [], []. simpl. rewrite !app_nil_r.
    repeat split; reflexivity.
  - pose proof (scf_body_effect k st) as He.
    pose proof (scf_body_numbers k st) as Hnum.
    cbv zeta in He. simpl scf_loop.
    destruct (scf_body np opt sq k st) as [st'|st'|e st'] eqn:Hb;
      simpl signal_state in He, Hnum;
      destruct He as (Ha & Hb' & Hc & Hd & _).
    + destruct (IH (S k) st')
        as (p & la & lb & ra & rb & Hp & Ja & Jb & Jc & Jd
            & La & Lb & Lc & Ld & Jn & Jm).
      exists (S p), (Fa (scf_head np sq k st) :: la),
        (Fb (scf_head np sq k st) :: lb),
        (diis_r_a (scf_head np sq k st) :: ra),
        (diis_r_b (scf_head np sq k st) :: rb).
      rewrite Ja, Jb, Jc, Jd, Jn, Ha, Hb', Hc, Hd, Hnum.
      rewrite <- !app_assoc. simpl.
      repeat split; try reflexivity; try lia.
      destruct (scf_loop np opt sq todo (S k) st') as [K ?|?|K e' ?].
      * lia.
      * lia.
      * destruct Jm as (Jm & _ & Je). split; [lia|]. split; [lia | exact Je].
    + exists 1%nat, [Fa (scf_head np sq k st)], [Fb (scf_head np sq k st)],
        [diis_r_a (scf_head np sq k st)], [diis_r_b (scf_head np sq k st)].
      simpl final_state. rewrite Ha, Hb', Hc, Hd, Hnum.
      repeat split; try reflexivity; lia.
    + exists 1%nat, [Fa (scf_head np sq k st)], [Fb (scf_head np sq k st)],
        [diis_r_a (scf_head np sq k st)], [diis_r_b (scf_head np sq k st)].
      simpl final_state. rewrite Ha, Hb', Hc, Hd, Hnum.
      repeat split; try reflexivity; try lia.
      exact (scf_body_raise_pass k st st' e Hb).
Qed.

Lemma reaches_numbers (k : nat) (st : scf_state) :
  reaches np opt psi sq k st ->
  iter_numbers (out st) = seq 1 (k - 1).
Proof.
  induction 1 as [|k st st' Hr IH Hn].
  - destruct (pre_iteration_fields np psi sq)
      as (_ & _ & _ & _ & _ & _ & _ & _ & _ & ->). reflexivity.
  - rewrite (scf_body_next_state k st st' Hn), scf_body_numbers, IH.
    destruct (reaches_lengths np opt psi sq k st Hr) as [H1 _].
    replace (S k - 1)%nat with (S (k - 1)) by lia.
    rewrite seq_S. f_equal. f_equal. lia.
Qed.

(** X9. The histories only grow.  The histories at the end of a run extend the
    histories at the start of each of its passes, by the same number of
    entries for the four lists and by at least one, so that no entry is
    ever dropped or overwritten; and at the end each history has one entry
    for each printed iteration line. *)
Theorem histories_only_grow (k : nat) (st : scf_state) :
  reaches np opt psi sq k st -> (k <= MAXITER opt)%nat ->
  exists la lb ra rb : list mat,
    F_list_a (final_state (scf_iterations np opt psi sq)) = F_list_a st ++ la /\
    F_list_b (final_state (scf_iterations np opt psi sq)) = F_list_b st ++ lb /\
    R_list_a (final_state (scf_iterations np opt psi sq)) = R_list_a st ++ ra /\
    R_list_b (final_state (scf_iterations np opt psi sq)) = R_list_b st ++ rb /\
    (1 <= length la)%nat /\
    length lb = length la /\ length ra = length la /\ length rb = length la /\
    length (F_list_a (final_state (scf_iterations np opt psi sq)))
    = iterations_run (out (final_state (scf_iterations np opt psi sq))).
Proof.
  intros Hr Hk. rewrite (reaches_loop np opt psi sq k st Hr Hk).
  destruct (scf_loop_effect (S (MAXITER opt - k)) k st)
    as (p & la & lb & ra & rb & Hp & Ja & Jb & Jc & Jd
        & La & Lb & Lc & Ld & Jn & Jm).
  exists la, lb, ra, rb.
  assert (H1 : (1 <= p)%nat).
  { destruct (scf_loop np opt sq (S (MAXITER opt - k)) k st) as [K ?|?|K e ?];
      lia. }
  rewrite Ja, length_app, <- iter_numbers_length, Jn, length_app, length_seq.
  rewrite (reaches_numbers k st Hr), length_seq.
  destruct (reaches_lengths np opt psi sq k st Hr) as (Hk1 & Hla & _).
  repeat split; try assumption; lia.
Qed.

End Runs.

(** The start of the second pass of the flipping molecule. *)
Lemma closed_shell_spins_agree_witness :
  Da TwoLevel.second_pass = Db TwoLevel.second_pass.
Proof.
  destruct (closed_shell_spins_agree TwoLevel.np TwoLevel.defaults
              TwoLevel.flipping (statics_of TwoLevel.flipping) 2
              TwoLevel.second_pass (eq_refl 1%nat) flipping_reaches_second)
    as (_ & HD & _).
  exact HD.
Defined.


(** The run of the flipping molecule, seen from its second pass. *)
Lemma histories_only_grow_witness :
  exists la lb ra rb : list mat,
    F_list_a (final_state (scf_iterations TwoLevel.np TwoLevel.defaults
                             TwoLevel.flipping (statics_of TwoLevel.flipping)))
    = F_list_a TwoLevel.second_pass ++ la /\
    F_list_b (final_state (scf_iterations TwoLevel.np TwoLevel.defaults
                             TwoLevel.flipping (statics_of TwoLevel.flipping)))
    = F_list_b TwoLevel.second_pass ++ lb /\
    R_list_a (final_state (scf_iterations TwoLevel.np TwoLevel.defaults
                             TwoLevel.flipping (statics_of TwoLevel.flipping)))
    = R_list_a TwoLevel.second_pass ++ ra /\
    R_list_b (final_state (scf_iterations TwoLevel.np TwoLevel.defaults
                             TwoLevel.flipping (statics_of TwoLevel.flipping)))
    = R_list_b TwoLevel.second_pass ++ rb /\
    (1 <= length la)%nat /\
    length lb = length la /\ length ra = length la /\ length rb = length la /\
    length (F_list_a (final_state (scf_iterations TwoLevel.np TwoLevel.defaults
                                     TwoLevel.flipping
                                     (statics_of TwoLevel.flipping))))
    = iterations_run
        (out (final_state (scf_iterations TwoLevel.np TwoLevel.defaults
                             TwoLevel.flipping
                             (statics_of TwoLevel.flipping)))).
Proof.
  apply (histories_only_grow TwoLevel.np TwoLevel.defaults TwoLevel.flipping
           (statics_of TwoLevel.flipping) 2 TwoLevel.second_pass).
  - exact flipping_reaches_second.
  - simpl. lia.
Defined.

(** ** What the program prints *)

(** X10. For every input: the printed iteration lines are numbered 1, 2, ..., K
    without gap, with K at most [MAXITER].  K is 0 when the memory check
    raises, [MAXITER] when the iteration limit raises, and at least 2 when
    the run ends with [LinAlgError].  When the program returns an energy
    after at least one pass, the output ends with the iteration line of
    pass K, the line that the SCF converged and the final energy, and the
    energy of that iteration line is the final energy. *)
Theorem run_output (np : numlib) (opt : options) (psi : psi4) :
  exists K,
    (K <= MAXITER opt)%nat /\
    iter_numbers (fst (run np opt psi)) = seq 1 K /\
    (snd (run np opt psi) = Raised MemoryLimitExceeded -> K = 0%nat) /\
    (snd (run np opt psi) = Raised MaxIterExceeded ->
     K = MAXITER opt /\ (1 <= K)%nat) /\
    (snd (run np opt psi) = Raised LinAlgError -> (2 <= K)%nat) /\
    (forall E, snd (run np opt psi) = Ok E -> (1 <= MAXITER opt)%nat ->
       exists pre d r,
         fst (run np opt psi)
         = pre ++ [EvPrintIter K E d r; EvPrintConverged; EvPrintFinal E]).
Proof.
  rewrite run_cases.
  destruct (Qltb (numpy_memory opt) (eri_size (nso psi))).
  - exists 0%nat. cbn [fst snd]. split; [lia|]. split; [reflexivity|].
    repeat split; try discriminate.
  - cbv zeta. unfold scf_iterations.
    set (sq := statics_of psi). set (st0 := pre_iteration np psi sq).
    destruct (scf_loop_effect np opt sq (MAXITER opt) 1 st0)
      as (p & _ & _ & _ & _ & Hp & _ & _ & _ & _ & _ & _ & _ & _ & Jn & Jm).
    assert (H0 : iter_numbers (out st0) = []).
    { unfold st0. destruct (pre_iteration_fields np psi sq)
        as (_ & _ & _ & _ & _ & _ & _ & _ & _ & ->). reflexivity. }
    rewrite H0 in Jn. simpl app in Jn.
    exists p. split; [exact Hp|].
    destruct (scf_loop np opt sq (MAXITER opt) 1 st0) as [K st|st|K e st]
      eqn:Hl; cbn [fst snd final_state] in *.
    + split.
      { rewrite !iter_numbers_app, Jn. simpl. rewrite app_nil_r. reflexivity. }
      repeat split; try discriminate.
      intros E HE _. injection HE as <-.
      apply scf_loop_broke in Hl. destruct Hl as (_ & _ & st' & ->).
      assert (HK : K = p) by lia. subst K.
      exists (((events_before_check psi ++ events_after_check)
               ++ [EvNuclearRepulsion]) ++ out st'),
        (dE (scf_head np sq p st')), (dRMS (scf_head np sq p st')).
      change (out (scf_head np sq p st'))
        with (out st' ++ [EvPrintIter p (SCF_E (scf_head np sq p st'))
                            (dE (scf_head np sq p st'))
                            (dRMS (scf_head np sq p st'))]).
      rewrite <- !app_assoc. reflexivity.
    + split.
      { rewrite !iter_numbers_app, Jn. simpl. rewrite app_nil_r. reflexivity. }
      repeat split; try discriminate.
      intros E _ Hmax. exfalso.
      apply scf_loop_not_exhausted in Hl; [exact Hl | lia | lia].
    + destruct Jm as (HK & H1 & He).
      split.
      { rewrite !iter_numbers_app, Jn. reflexivity. }
      split; [|split; [|split]].
      * intros Hr. injection Hr as ->.
        destruct He as [[He _] | [He _]]; discriminate He.
      * intros Hr. injection Hr as ->.
        destruct He as [[_ He] | [He _]]; [lia | discriminate He].
      * intros Hr. injection Hr as ->.
        destruct He as [[He _] | [_ He]]; [discriminate He | lia].
      * intros E HE. discriminate HE.
Qed.

(** ** The size of the tensor *)

Lemma eri_size_mono (n n' : nat) : (n <= n')%nat -> eri_size n <= eri_size n'.
Proof.
  intros Hn. unfold eri_size.
  apply Qmult_le_compat_r; [|discriminate].
  rewrite <- Zle_Qle. apply Nat2Z.inj_le. apply Nat.pow_le_mono_l. exact Hn.
Qed.

Lemma eri_size_Z (n : nat) :
  eri_size n = inject_Z (Z.of_nat n ^ 4) * (8 # 1000000000).
Proof.
  unfold eri_size. rewrite Nat2Z.inj_pow. reflexivity.
Qed.

(** X11. The memory check is a threshold on the number of basis functions: when
    a basis passes it, every basis that is no larger passes it.  With the
    budget 2 of the notebook the program raises the exception of the memory
    limit exactly for 126 basis functions and more. *)
Theorem memory_check_threshold (np : numlib) (opt : options)
  (psi psi' : psi4) :
  (nso psi <= nso psi')%nat ->
  (snd (run np opt psi) = Raised MemoryLimitExceeded ->
   snd (run np opt psi') = Raised MemoryLimitExceeded) /\
  (numpy_memory opt == 2 ->
   (snd (run np opt psi) = Raised MemoryLimitExceeded <->
    (126 <= nso psi)%nat)).
Proof.
  intros Hn.
  assert (Hraise : forall p, snd (run np opt p) = Raised MemoryLimitExceeded
                    <-> numpy_memory opt < eri_size (nso p)).
  { intros p. rewrite run_cases, <- Qltb_lt.
    destruct (Qltb (numpy_memory opt) (eri_size (nso p))).
    - cbn [snd]. tauto.
    - cbv zeta. split; [|discriminate].
      destruct (scf_iterations np opt p (statics_of p)) as [K st|st|K e st]
        eqn:Hl; cbn [snd]; try discriminate.
      intros Hr. injection Hr as ->.
      apply scf_loop_failed_kind in Hl. destruct Hl; discriminate. }
  split.
  - rewrite !Hraise. intros Hlt.
    apply Qlt_le_trans with (eri_size (nso psi)); [exact Hlt|].
    apply eri_size_mono. exact Hn.
  - intros H2. rewrite Hraise, H2. split.
    + intros Hlt. destruct (Nat.lt_ge_cases (nso psi) 126) as [Hs|]; [|assumption].
      exfalso. apply (Qlt_not_le _ _ Hlt).
      apply Qle_trans with (eri_size 125); [apply eri_size_mono; lia|].
      rewrite eri_size_Z. vm_compute. discriminate.
    + intros Hge. apply Qlt_le_trans with (eri_size 126);
        [rewrite eri_size_Z; reflexivity | apply eri_size_mono; exact Hge].
Qed.

(** The stable molecule against itself, under the options of the
    notebook. *)
Lemma memory_check_threshold_witness :
  snd (run TwoLevel.np TwoLevel.defaults TwoLevel.stable)
  = Raised MemoryLimitExceeded <-> (126 <= 2)%nat.
Proof.
  destruct (memory_check_threshold TwoLevel.np TwoLevel.defaults
              TwoLevel.stable TwoLevel.stable (le_n 2)) as (_ & Hw).
  apply Hw. reflexivity.
Defined.

(** ** The cleanup and the closing lines *)

Lemma scf_body_events (np : numlib) (opt : options) (sq : statics)
  (scf_iter : nat) (st : scf_state) :
  (forall ev, In ev (out (signal_state (scf_body np opt sq scf_iter st))) ->
     In ev (out st) \/ is_iter ev = true \/
     ev = EvClean /\
     exists st', scf_body np opt sq scf_iter st = Raise MaxIterExceeded st') /\
  (forall st', scf_body np opt sq scf_iter st = Raise MaxIterExceeded st' ->
     In EvClean (out st')).
Proof.
  set (st1 := scf_head np sq scf_iter st).
  assert (Hh : forall ev, In ev (out st1) ->
                 In ev (out st) \/ is_iter ev = true).
  { intros ev Hin. apply in_app_or in Hin. destruct Hin as [Hin|[<-|[]]];
      [left; exact Hin | right; reflexivity]. }
  unfold scf_body. fold st1. destruct (converged opt st1).
  { split; [|discriminate]. intros ev Hin. destruct (Hh ev Hin); auto. }
  unfold scf_tail, diis_step, orbital_step.
  destruct (2 <=? scf_iter)%nat.
  - destruct (diis_xtrap np (F_list_a _) _) as [Fa'|e] eqn:Ha.
    2:{ apply diis_xtrap_raises in Ha. destruct Ha as [-> _].
        split; [|discriminate]. intros ev Hin. destruct (Hh ev Hin); auto. }
    cbv zeta.
    destruct (diis_xtrap np (F_list_b _) _) as [Fb'|e] eqn:Hb.
    2:{ apply diis_xtrap_raises in Hb. destruct Hb as [-> _].
        split; [|discriminate]. intros ev Hin. destruct (Hh ev Hin); auto. }
    destruct (scf_iter =? MAXITER opt)%nat.
    + split.
      * intros ev Hin. apply in_app_or in Hin.
        destruct Hin as [Hin|[<-|[]]]; [destruct (Hh ev Hin); auto|].
        right. right. split; [reflexivity|]. eexists. reflexivity.
      * intros st' Hr. injection Hr as <-. apply in_or_app. right.
        left. reflexivity.
    + split; [|discriminate]. intros ev Hin. destruct (Hh ev Hin); auto.
  - destruct (scf_iter =? MAXITER opt)%nat.
    + split.
      * intros ev Hin. apply in_app_or in Hin.
        destruct Hin as [Hin|[<-|[]]]; [destruct (Hh ev Hin); auto|].
        right. right. split; [reflexivity|]. eexists. reflexivity.
      * intros st' Hr. injection Hr as <-. apply in_or_app. right.
        left. reflexivity.
    + split; [|discriminate]. intros ev Hin. destruct (Hh ev Hin); auto.
Qed.

Lemma scf_loop_events (np : numlib) (opt : options) (sq : statics)
  (todo : nat) : forall (k : nat) (st : scf_state),
  (forall ev, In ev (out (final_state (scf_loop np opt sq todo k st))) ->
     In ev (out st) \/ is_iter ev = true \/
     ev = EvClean /\
     exists K st', scf_loop np opt sq todo k st = Failed K MaxIterExceeded st') /\
  (forall K st', scf_loop np opt sq todo k st = Failed K MaxIterExceeded st' ->
     In EvClean (out st')).
Proof.
  induction todo as [|todo IH]; intros k st; simpl.
  - split; [auto | discriminate].
  - destruct (scf_body_events np opt sq k st) as [Hev Hcl].
    destruct (scf_body np opt sq k st) as [st1|st1|e st1] eqn:Hb;
      simpl signal_state in Hev.
    + destruct (IH (S k) st1) as [IHev IHcl]. split; [|exact IHcl].
      intros ev Hin. destruct (IHev ev Hin) as [H1|[H1|H1]]; auto.
      destruct (Hev ev H1) as [H2|[H2|[_ [st' H2]]]]; auto. discriminate H2.
    + split; [|discriminate]. simpl. intros ev Hin.
      destruct (Hev ev Hin) as [H2|[H2|[_ [st' H2]]]]; auto. discriminate H2.
    + split.
      * simpl. intros ev Hin.
        destruct (Hev ev Hin) as [H2|[H2|[H2 [st' H3]]]]; auto.
        right. right. split; [exact H2|]. injection H3 as -> ->. eauto.
      * intros K st' Hf. injection Hf as _ -> <-. apply Hcl. reflexivity.
Qed.

(** X12. [psi4.core.clean()] is called exactly in the runs that end with the
    exception of the memory limit or of the iteration limit: a run that
    ends with [LinAlgError] or with a result does not call it.  The line
    that the SCF converged is printed exactly in the runs that return an
    energy, never in a run that raises. *)
Theorem run_cleanup (np : numlib) (opt : options) (psi : psi4) :
  (In EvClean (fst (run np opt psi)) <->
   snd (run np opt psi) = Raised MemoryLimitExceeded \/
   snd (run np opt psi) = Raised MaxIterExceeded) /\
  (In EvPrintConverged (fst (run np opt psi)) <->
   exists E, snd (run np opt psi) = Ok E).
Proof.
  rewrite run_cases.
  destruct (Qltb (numpy_memory opt) (eri_size (nso psi))).
  - cbn [fst snd]. split; split.
    + auto.
    + intros _. apply in_or_app. right. left. reflexivity.
    + intros Hin. exfalso. apply in_app_or in Hin.
      destruct Hin as [Hin|[Hin|[]]]; [|discriminate Hin].
      simpl in Hin. intuition discriminate.
    + intros [E HE]. discriminate HE.
  - cbv zeta. unfold scf_iterations.
    set (sq := statics_of psi). set (st0 := pre_iteration np psi sq).
    destruct (scf_loop_events np opt sq (MAXITER opt) 1 st0) as [Hev Hcl].
    assert (H0 : out st0 = [EvPrintStart]).
    { unfold st0. destruct (pre_iteration_fields np psi sq)
        as (_ & _ & _ & _ & _ & _ & _ & _ & _ & ->). reflexivity. }
    assert (Hpre : forall ev,
              In ev ((events_before_check psi ++ events_after_check)
                     ++ [EvNuclearRepulsion]) ->
              ev <> EvClean /\ ev <> EvPrintConverged).
    { intros ev Hin. simpl in Hin.
      repeat (destruct Hin as [<-|Hin]; [split; discriminate|]).
      destruct Hin. }
    assert (Hout : forall st ev,
              In ev (out st) ->
              (In ev (out st) -> In ev (out st0) \/ is_iter ev = true \/
                 ev = EvClean /\ exists K st',
                   scf_loop np opt sq (MAXITER opt) 1 st0
                   = Failed K MaxIterExceeded st') ->
              ev <> EvPrintConverged /\
              (ev = EvClean -> exists K st',
                 scf_loop np opt sq (MAXITER opt) 1 st0
                 = Failed K MaxIterExceeded st')).
    { intros st ev Hin Hc. destruct (Hc Hin) as [H1|[H1|[-> H1]]].
      - rewrite H0 in H1. destruct H1 as [<-|[]]. split; discriminate.
      - destruct ev; try discriminate H1. split; discriminate.
      - split; [discriminate | auto]. }
    destruct (scf_loop np opt sq (MAXITER opt) 1 st0) as [K st|st|K e st]
      eqn:Hl; cbn [fst snd final_state] in *.
    + split; split.
      * intros Hin. exfalso. apply in_app_or in Hin. destruct Hin as [Hin|Hin].
        { destruct (Hpre _ Hin) as [Hne _]. apply Hne. reflexivity. }
        apply in_app_or in Hin. destruct Hin as [Hin|Hin].
        { destruct (Hout st _ Hin (Hev _)) as [_ Hc].
          destruct (Hc eq_refl) as (K' & st' & Hf). discriminate Hf. }
        simpl in Hin. intuition discriminate.
      * intros [Hr|Hr]; discriminate Hr.
      * intros _. eauto.
      * intros _. apply in_or_app. right. apply in_or_app. right.
        left. reflexivity.
    + split; split.
      * intros Hin. exfalso. apply in_app_or in Hin. destruct Hin as [Hin|Hin].
        { destruct (Hpre _ Hin) as [Hne _]. apply Hne. reflexivity. }
        apply in_app_or in Hin. destruct Hin as [Hin|Hin].
        { destruct (Hout st _ Hin (Hev _)) as [_ Hc].
          destruct (Hc eq_refl) as (K' & st' & Hf). discriminate Hf. }
        simpl in Hin. intuition discriminate.
      * intros [Hr|Hr]; discriminate Hr.
      * intros _. eauto.
      * intros _. apply in_or_app. right. apply in_or_app. right.
        left. reflexivity.
    + split; split.
      * intros Hin. right. apply in_app_or in Hin. destruct Hin as [Hin|Hin].
        { destruct (Hpre _ Hin) as [Hne _]. exfalso. apply Hne. reflexivity. }
        destruct (Hout st _ Hin (Hev _)) as [_ Hc].
        destruct (Hc eq_refl) as (K' & st' & Hf). injection Hf as _ -> _.
        reflexivity.
      * intros [Hr|Hr]; injection Hr as ->.
        { apply scf_loop_failed_kind in Hl. destruct Hl; discriminate. }
        apply in_or_app. right. apply (Hcl K st). reflexivity.
      * intros Hin. exfalso. apply in_app_or in Hin. destruct Hin as [Hin|Hin].
        { destruct (Hpre _ Hin) as [_ Hne]. apply Hne. reflexivity. }
        destruct (Hout st _ Hin (Hev _)) as [Hne _]. apply Hne. reflexivity.
      * intros [E HE]. discriminate HE.
Qed.

(** ** Sums and products of square matrices *)

Lemma Qsum_plus (n : nat) (f g : nat -> Q) :
  Qsum n (fun i => f i + g i) == Qsum n f + Qsum n g.
Proof. induction n as [|n IH]; simpl; [|rewrite IH]; ring. Qed.

Lemma Qsum_opp (n : nat) (f : nat -> Q) :
  Qsum n (fun i => - f i) == - Qsum n f.
Proof. induction n as [|n IH]; simpl; [|rewrite IH]; ring. Qed.

Lemma Qsum_scal_l (n : nat) (c : Q) (f : nat -> Q) :
  Qsum n (fun i => c * f i) == c * Qsum n f.
Proof. induction n as [|n IH]; simpl; [|rewrite IH]; ring. Qed.

Lemma Qsum_scal_r (n : nat) (c : Q) (f : nat -> Q) :
  Qsum n (fun i => f i * c) == Qsum n f * c.
Proof. induction n as [|n IH]; simpl; [|rewrite IH]; ring. Qed.

Lemma Qsum_swap (n m : nat) (f : nat -> nat -> Q) :
  Qsum n (fun i => Qsum m (fun j => f i j))
  == Qsum m (fun j => Qsum n (fun i => f i j)).
Proof.
  induction n as [|n IH]; simpl.
  - induction m as [|m IHm]; simpl; [reflexivity|]. rewrite <- IHm. ring.
  - rewrite IH, Qsum_plus. reflexivity.
Qed.

Lemma Qsum_zero_below (j : nat) (f : nat -> Q) (k : nat) :
  (k <= j)%nat -> Qsum k (fun i => if (i =? j)%nat then f i else 0) == 0.
Proof.
  induction k as [|k IHk]; intros Hk; simpl; [reflexivity|].
  rewrite IHk by lia. destruct (Nat.eqb_spec k j); [lia|]. ring.
Qed.

Lemma Qsum_delta (n j : nat) (f : nat -> Q) :
  (j < n)%nat ->
  Qsum n (fun i => if (i =? j)%nat then f i else 0) == f j.
Proof.
  intros Hj. induction n as [|n IH]; [lia|]. simpl.
  destruct (Nat.eqb_spec n j) as [->|Hne].
  - rewrite Qsum_zero_below by lia. ring.
  - rewrite IH by lia. ring.
Qed.

Lemma symmetric_entries (n : nat) (X : mat) (i j : nat) :
  is_mat n n X -> symmetric X -> (i < n)%nat -> (j < n)%nat ->
  mget X i j == mget X j i.
Proof.
  intros HX Hs Hi Hj. rewrite <- (mat_eq_mget _ _ i j Hs).
  unfold transpose. rewrite (is_mat_ncols n n X HX) by lia.
  destruct HX as [HX _]. unfold nrows. rewrite HX.
  rewrite mget_mk_mat by assumption. reflexivity.
Qed.

Lemma is_mat_dot_sq (n : nat) (X Y : mat) :
  is_mat n n X -> is_mat n n Y -> is_mat n n (dot X Y).
Proof.
  intros HX HY. unfold dot.
  destruct n as [|n].
  - destruct HX as [HX _], HY as [HY _]. destruct X, Y; try discriminate.
    split; [reflexivity | constructor].
  - rewrite (is_mat_ncols (S n) (S n) Y HY) by lia.
    destruct HX as [HX _]. unfold nrows. rewrite HX. apply is_mat_mk_mat.
Qed.

Lemma mget_dot_sq (n : nat) (X Y : mat) (i j : nat) :
  is_mat n n X -> is_mat n n Y -> (i < n)%nat -> (j < n)%nat ->
  mget (dot X Y) i j = Qsum n (fun l => mget X i l * mget Y l j).
Proof.
  intros HX HY Hi Hj. unfold dot.
  rewrite (is_mat_ncols n n Y HY), (is_mat_ncols n n X HX) by lia.
  destruct HX as [HX _]. unfold nrows. rewrite HX.
  apply mget_mk_mat; assumption.
Qed.

Lemma vec_eq_of_nth (u v : vec) :
  length u = length v ->
  (forall j, (j < length u)%nat -> nth j u 0 == nth j v 0) ->
  vec_eq u v.
Proof.
  revert v. induction u as [|x u IH]; intros [|y v] Hlen Hnth;
    simpl in Hlen; try discriminate; constructor.
  - apply (Hnth 0%nat). simpl. lia.
  - apply IH; [lia|]. intros j Hj. apply (Hnth (S j)). simpl. lia.
Qed.

Lemma mat_eq_of_mget (n m : nat) (X Y : mat) :
  is_mat n m X -> is_mat n m Y ->
  (forall i j, (i < n)%nat -> (j < m)%nat -> mget X i j == mget Y i j) ->
  mat_eq X Y.
Proof.
  revert n Y. induction X as [|u X IH]; intros n [|v Y] [HnX HrX] [HnY HrY] He;
    simpl in HnX, HnY; try (subst n; discriminate); [constructor|].
  destruct n as [|n]; [discriminate|].
  apply Forall_cons_iff in HrX, HrY.
  destruct HrX as [Hu HrX], HrY as [Hv HrY].
  constructor.
  - apply vec_eq_of_nth; [lia|]. intros j Hj.
    apply (He 0%nat j); lia.
  - apply (IH n Y).
    + split; [lia | exact HrX].
    + split; [lia | exact HrY].
    + intros i j Hi Hj. apply (He (S i) j); lia.
Qed.

Lemma entries_symmetric (n : nat) (X : mat) :
  is_mat n n X ->
  (forall i j, (i < n)%nat -> (j < n)%nat -> mget X i j == mget X j i) ->
  symmetric X.
Proof.
  intros HX He. unfold symmetric.
  assert (HT : is_mat n n (transpose X)).
  { unfold transpose. destruct n as [|n].
    - destruct HX as [HX _]. destruct X; [|discriminate HX].
      split; [reflexivity | constructor].
    - rewrite (is_mat_ncols (S n) (S n) X HX) by lia.
      destruct HX as [HX _]. unfold nrows. rewrite HX. apply is_mat_mk_mat. }
  apply (mat_eq_of_mget n n); [exact HT | exact HX|].
  intros i j Hi Hj. unfold transpose.
  rewrite (is_mat_ncols n n X HX) by lia.
  pose proof HX as [Hn _]. unfold nrows. rewrite Hn.
  rewrite mget_mk_mat by assumption. apply He; assumption.
Qed.

(** ** Symmetric matrices in the loop *)

Lemma coulomb_sym (n : nat) (T : tensor4) (D : mat) (p q : nat) :
  eri_symmetric n T -> (p < n)%nat -> (q < n)%nat ->
  coulomb n T D p q == coulomb n T D q p.
Proof.
  intros HT Hp Hq. unfold coulomb.
  apply Qsum_eq. intros r Hr. apply Qsum_eq. intros s Hs.
  destruct (HT p q r s Hp Hq Hr Hs) as [-> _]. reflexivity.
Qed.

Lemma exchange_sym (n : nat) (T : tensor4) (D : mat) (p q : nat) :
  eri_symmetric n T ->
  (forall r s, (r < n)%nat -> (s < n)%nat -> mget D r s == mget D s r) ->
  (p < n)%nat -> (q < n)%nat ->
  exchange n T D p q == exchange n T D q p.
Proof.
  intros HT HD Hp Hq. unfold exchange.
  rewrite (Qsum_swap n n (fun r s => tget T q r p s * mget D r s)).
  apply Qsum_eq. intros x Hx. apply Qsum_eq. intros y Hy.
  destruct (HT p x q y Hp Hx Hq Hy) as [_ ->].
  rewrite (HD x y Hx Hy). reflexivity.
Qed.

Lemma head_fock (np : numlib) (sq : statics) (scf_iter : nat)
  (st : scf_state) (n : nat) :
  is_mat n n (H sq) -> is_tensor4 n (I_eri sq) -> (0 < n)%nat ->
  is_mat n n (Fa (scf_head np sq scf_iter st)) /\
  is_mat n n (Fb (scf_head np sq scf_iter st)) /\
  forall p q, (p < n)%nat -> (q < n)%nat ->
    mget (Fa (scf_head np sq scf_iter st)) p q
    = mget (H sq) p q
      + (coulomb n (I_eri sq) (Da st) p q + coulomb n (I_eri sq) (Db st) p q)
      - exchange n (I_eri sq) (Da st) p q /\
    mget (Fb (scf_head np sq scf_iter st)) p q
    = mget (H sq) p q
      + (coulomb n (I_eri sq) (Da st) p q + coulomb n (I_eri sq) (Db st) p q)
      - exchange n (I_eri sq) (Db st) p q.
Proof.
  intros HH HT Hn.
  destruct (einsum_coulomb n (I_eri sq) (Da st) HT Hn) as [HJa HJa'].
  destruct (einsum_coulomb n (I_eri sq) (Db st) HT Hn) as [HJb HJb'].
  destruct (einsum_exchange n (I_eri sq) (Da st) HT Hn) as [HKa HKa'].
  destruct (einsum_exchange n (I_eri sq) (Db st) HT Hn) as [HKb HKb'].
  assert (HJJ : is_mat n n (madd (einsum_pqrs_rs_pq (I_eri sq) (Da st))
                                 (einsum_pqrs_rs_pq (I_eri sq) (Db st))))
    by (apply is_mat_zip_with; assumption).
  assert (HHJ : is_mat n n (madd (H sq)
                  (madd (einsum_pqrs_rs_pq (I_eri sq) (Da st))
                        (einsum_pqrs_rs_pq (I_eri sq) (Db st)))))
    by (apply is_mat_zip_with; assumption).
  simpl Fa. simpl Fb.
  split; [apply is_mat_zip_with; assumption|].
  split; [apply is_mat_zip_with; assumption|].
  intros p q Hp Hq. unfold msub, madd in *.
  rewrite !(mget_zip_with Qminus n n) by assumption.
  rewrite !(mget_zip_with Qplus n n) by assumption.
  rewrite HJa', HJb', HKa', HKb' by assumption. split; reflexivity.
Qed.

Lemma triple_product_transposed (n : nat) (X Y Z : mat) (k l : nat) :
  is_mat n n X -> is_mat n n Y -> is_mat n n Z ->
  (forall i j, (i < n)%nat -> (j < n)%nat -> mget X i j == mget X j i) ->
  (forall i j, (i < n)%nat -> (j < n)%nat -> mget Y i j == mget Y j i) ->
  (forall i j, (i < n)%nat -> (j < n)%nat -> mget Z i j == mget Z j i) ->
  (k < n)%nat -> (l < n)%nat ->
  mget (dot (dot X Y) Z) k l == mget (dot (dot Z Y) X) l k.
Proof.
  intros HX HY HZ SX SY SZ Hk Hl.
  rewrite (mget_dot_sq n (dot X Y) Z k l) by (try apply is_mat_dot_sq; assumption).
  rewrite (mget_dot_sq n (dot Z Y) X l k) by (try apply is_mat_dot_sq; assumption).
  transitivity (Qsum n (fun b => Qsum n (fun a =>
                  mget X k a * mget Y a b * mget Z b l))).
  { apply Qsum_eq. intros b Hb. rewrite (mget_dot_sq n X Y k b) by assumption.
    rewrite <- Qsum_scal_r. reflexivity. }
  transitivity (Qsum n (fun b => Qsum n (fun a =>
                  mget Z l a * mget Y a b * mget X b k))).
  2:{ apply Qsum_eq. intros b Hb. rewrite (mget_dot_sq n Z Y l b) by assumption.
      rewrite <- Qsum_scal_r. reflexivity. }
  rewrite (Qsum_swap n n (fun b a => mget Z l a * mget Y a b * mget X b k)).
  apply Qsum_eq. intros x Hx. apply Qsum_eq. intros y Hy.
  rewrite (SZ l x Hl Hx), (SY x y Hx Hy), (SX y k Hy Hk). ring.
Qed.

Lemma residual_antisymmetric (n : nat) (F D S A : mat) :
  is_mat n n F -> is_mat n n D -> is_mat n n S -> is_mat n n A ->
  (forall i j, (i < n)%nat -> (j < n)%nat -> mget F i j == mget F j i) ->
  (forall i j, (i < n)%nat -> (j < n)%nat -> mget D i j == mget D j i) ->
  (forall i j, (i < n)%nat -> (j < n)%nat -> mget S i j == mget S j i) ->
  (forall i j, (i < n)%nat -> (j < n)%nat -> mget A i j == mget A j i) ->
  forall i j, (i < n)%nat -> (j < n)%nat ->
    mget (dot (dot A (msub (dot (dot F D) S) (dot (dot S D) F))) A) i j
    == - mget (dot (dot A (msub (dot (dot F D) S) (dot (dot S D) F))) A) j i.
Proof.
  intros HF HD HS HA SF SD SS SA i j Hi Hj.
  set (P := dot (dot F D) S). set (Q := dot (dot S D) F).
  assert (HP : is_mat n n P) by (repeat apply is_mat_dot_sq; assumption).
  assert (HQ : is_mat n n Q) by (repeat apply is_mat_dot_sq; assumption).
  assert (HX : is_mat n n (msub P Q)) by (apply is_mat_zip_with; assumption).
  assert (Hanti : forall k l, (k < n)%nat -> (l < n)%nat ->
            mget (msub P Q) k l == - mget (msub P Q) l k).
  { intros k l Hk Hl. unfold msub.
    rewrite !(mget_zip_with Qminus n n) by assumption.
    unfold P, Q.
    rewrite (triple_product_transposed n F D S k l) by assumption.
    rewrite (triple_product_transposed n S D F k l) by assumption.
    ring. }
  assert (HAX : is_mat n n (dot A (msub P Q)))
    by (apply is_mat_dot_sq; assumption).
  assert (Hent : forall a b, (a < n)%nat -> (b < n)%nat ->
            mget (dot (dot A (msub P Q)) A) a b
            == Qsum n (fun l => Qsum n (fun k =>
                 mget A a k * mget (msub P Q) k l * mget A l b))).
  { intros a b Ha Hb. rewrite (mget_dot_sq n _ A a b) by assumption.
    apply Qsum_eq. intros l Hl.
    rewrite (mget_dot_sq n A (msub P Q) a l) by assumption.
    rewrite <- Qsum_scal_r. reflexivity. }
  rewrite (Hent i j Hi Hj), (Hent j i Hj Hi).
  rewrite <- Qsum_opp.
  rewrite (Qsum_swap n n (fun l k =>
             mget A i k * mget (msub P Q) k l * mget A l j)).
  apply Qsum_eq. intros x Hx. rewrite <- Qsum_opp.
  apply Qsum_eq. intros y Hy.
  rewrite (Hanti x y Hx Hy), (SA i x Hi Hx), (SA y j Hy Hj). ring.
Qed.

Lemma reaches_density (np : numlib) (opt : options) (psi : psi4)
  (sq : statics) (k : nat) (st : scf_state) :
  reaches np opt psi sq k st ->
  is_mat (nrows (A sq)) (nrows (A sq)) (Da st) /\ symmetric (Da st) /\
  is_mat (nrows (A sq)) (nrows (A sq)) (Db st) /\ symmetric (Db st).
Proof.
  intros Hr.
  assert (Hd : exists F F', Da st = snd (diag_F np sq F (nalpha sq)) /\
                            Db st = snd (diag_F np sq F' (nbeta sq))).
  { destruct Hr as [|k st st' Hr Hn].
    - destruct (pre_iteration_fields np psi sq)
        as (_ & _ & _ & _ & _ & _ & Ha & Hb & _).
      exists (H sq), (H sq). rewrite <- Ha, <- Hb. split; reflexivity.
    - apply scf_body_next in Hn.
      destruct Hn as (_ & _ & _ & Ha & Hb & _).
      exists (Fa st'), (Fb st'). rewrite <- Ha, <- Hb. split; reflexivity. }
  destruct Hd as (F & F' & -> & ->).
  destruct (diag_F_density np sq F (nalpha sq)) as (_ & H1 & H2).
  destruct (diag_F_density np sq F' (nbeta sq)) as (_ & H3 & H4).
  auto.
Qed.

(** X13. Symmetry is kept.  For symmetric n-by-n matrices H, S and A and an n^4
    tensor with the symmetry of repulsion integrals, in every pass of a
    run the two densities and the two Fock matrices that the pass builds
    are symmetric, and the two residuals are antisymmetric, with a zero
    diagonal. *)
Theorem symmetry_preserved (np : numlib) (opt : options) (psi : psi4)
  (sq : statics) (n k : nat) (st : scf_state) :
  (0 < n)%nat ->
  is_mat n n (H sq) -> is_mat n n (S_ovlp sq) -> is_mat n n (A sq) ->
  symmetric (H sq) -> symmetric (S_ovlp sq) -> symmetric (A sq) ->
  is_tensor4 n (I_eri sq) -> eri_symmetric n (I_eri sq) ->
  reaches np opt psi sq k st ->
  symmetric (Da st) /\ symmetric (Db st) /\
  symmetric (Fa (scf_head np sq k st)) /\
  symmetric (Fb (scf_head np sq k st)) /\
  forall i j, (i < n)%nat -> (j < n)%nat ->
    mget (diis_r_a (scf_head np sq k st)) i j
    == - mget (diis_r_a (scf_head np sq k st)) j i /\
    mget (diis_r_b (scf_head np sq k st)) i j
    == - mget (diis_r_b (scf_head np sq k st)) j i /\
    mget (diis_r_a (scf_head np sq k st)) i i == 0 /\
    mget (diis_r_b (scf_head np sq k st)) i i == 0.
Proof.
  intros Hn HH HS HA SH SS SA HT ST Hr.
  destruct (reaches_density np opt psi sq k st Hr) as (HDa & SDa & HDb & SDb).
  assert (HnA : nrows (A sq) = n) by apply HA. rewrite HnA in HDa, HDb.
  pose proof (fun i j => symmetric_entries n _ i j HH SH) as EH.
  pose proof (fun i j => symmetric_entries n _ i j HS SS) as ES.
  pose proof (fun i j => symmetric_entries n _ i j HA SA) as EA.
  pose proof (fun i j => symmetric_entries n _ i j HDa SDa) as EDa.
  pose proof (fun i j => symmetric_entries n _ i j HDb SDb) as EDb.
  destruct (head_fock np sq k st n HH HT Hn) as (HFa & HFb & Hent).
  assert (EFa : forall i j, (i < n)%nat -> (j < n)%nat ->
            mget (Fa (scf_head np sq k st)) i j
            == mget (Fa (scf_head np sq k st)) j i).
  { intros i j Hi Hj.
    destruct (Hent i j Hi Hj) as [-> _]. destruct (Hent j i Hj Hi) as [-> _].
    rewrite (EH i j Hi Hj), (coulomb_sym n _ (Da st) i j ST Hi Hj),
      (coulomb_sym n _ (Db st) i j ST Hi Hj),
      (exchange_sym n _ (Da st) i j ST EDa Hi Hj). reflexivity. }
  assert (EFb : forall i j, (i < n)%nat -> (j < n)%nat ->
            mget (Fb (scf_head np sq k st)) i j
            == mget (Fb (scf_head np sq k st)) j i).
  { intros i j Hi Hj.
    destruct (Hent i j Hi Hj) as [_ ->]. destruct (Hent j i Hj Hi) as [_ ->].
    rewrite (EH i j Hi Hj), (coulomb_sym n _ (Da st) i j ST Hi Hj),
      (coulomb_sym n _ (Db st) i j ST Hi Hj),
      (exchange_sym n _ (Db st) i j ST EDb Hi Hj). reflexivity. }
  split; [exact SDa|]. split; [exact SDb|].
  split; [apply (entries_symmetric n); assumption|].
  split; [apply (entries_symmetric n); assumption|].
  intros i j Hi Hj.
  pose proof (residual_antisymmetric n (Fa (scf_head np sq k st)) (Da st)
                (S_ovlp sq) (A sq) HFa HDa HS HA EFa EDa ES EA) as Ra.
  pose proof (residual_antisymmetric n (Fb (scf_head np sq k st)) (Db st)
                (S_ovlp sq) (A sq) HFb HDb HS HA EFb EDb ES EA) as Rb.
  change (dot (dot (A sq)
            (msub (dot (dot (Fa (scf_head np sq k st)) (Da st)) (S_ovlp sq))
                  (dot (dot (S_ovlp sq) (Da st)) (Fa (scf_head np sq k st)))))
            (A sq)) with (diis_r_a (scf_head np sq k st)) in Ra.
  change (dot (dot (A sq)
            (msub (dot (dot (Fb (scf_head np sq k st)) (Db st)) (S_ovlp sq))
                  (dot (dot (S_ovlp sq) (Db st)) (Fb (scf_head np sq k st)))))
            (A sq)) with (diis_r_b (scf_head np sq k st)) in Rb.
  assert (Hzero : forall x : Q, x == - x -> x == 0).
  { intros x Hx. assert (H2 : (2 # 1) * x == 0).
    { setoid_replace ((2 # 1) * x) with (x + x) by ring.
      rewrite Hx at 2. ring. }
    apply Qmult_integral in H2. destruct H2 as [H2|H2];
      [discriminate H2 | exact H2]. }
  split; [exact (Ra i j Hi Hj)|]. split; [exact (Rb i j Hi Hj)|].
  split; apply Hzero; [exact (Ra i i Hi Hi) | exact (Rb i i Hi Hi)].
Qed.

Lemma flipping_eri_symmetric :
  eri_symmetric 2 (I_eri (statics_of TwoLevel.flipping)).
Proof.
  intros p q r s Hp Hq Hr Hs.
  destruct p as [|[|p]]; [| |lia]; destruct q as [|[|q]]; try lia;
    destruct r as [|[|r]]; try lia; destruct s as [|[|s]]; try lia;
    split; reflexivity.
Qed.

(** The second pass of the flipping molecule. *)
Lemma symmetry_preserved_witness :
  symmetric (Fa (scf_head TwoLevel.np (statics_of TwoLevel.flipping) 2
                   TwoLevel.second_pass)).
Proof.
  destruct (symmetry_preserved TwoLevel.np TwoLevel.defaults TwoLevel.flipping
              (statics_of TwoLevel.flipping) 2 2 TwoLevel.second_pass)
    as (_ & _ & HF & _).
  - lia.
  - split; repeat constructor.
  - split; repeat constructor.
  - split; repeat constructor.
  - repeat constructor.
  - repeat constructor.
  - repeat constructor.
  - split; [reflexivity|]. repeat constructor.
  - exact flipping_eri_symmetric.
  - exact flipping_reaches_second.
  - exact HF.
Defined.

(** ** The density as a projector *)

Lemma density_entries (np : numlib) (sq : statics) (F : mat) (norb n : nat)
  (p q : nat) :
  is_mat n n (A sq) ->
  is_mat n n (snd (eigh np (dot (dot (A sq) F) (A sq)))) ->
  (norb <= n)%nat -> (p < n)%nat -> (q < n)%nat ->
  mget (snd (diag_F np sq F norb)) p q
  = Qsum norb (fun i => mget (fst (diag_F np sq F norb)) p i
                        * mget (fst (diag_F np sq F norb)) q i).
Proof.
  intros HA HCp Hn Hp Hq. rewrite diag_F_unfold. cbn [fst snd].
  set (C := dot (A sq) (snd (eigh np (dot (dot (A sq) F) (A sq))))).
  assert (HC : is_mat n n C) by (apply is_mat_dot_sq; assumption).
  unfold einsum_pi_qi_pq. rewrite nrows_firstn_cols.
  assert (Hr : nrows C = n) by apply HC. rewrite Hr.
  rewrite mget_mk_mat by assumption.
  rewrite (ncols_firstn_cols norb n n C HC) by lia.
  apply Qsum_ext. intros i Hi. rewrite !mget_firstn_cols by exact Hi.
  reflexivity.
Qed.

Lemma Qsum_prod3 (n m : nat) (u w : nat -> Q) (v : Q) :
  Qsum n u * v * Qsum m w
  == Qsum n (fun a => Qsum m (fun b => u a * v * w b)).
Proof.
  rewrite <- Qsum_scal_r, <- Qsum_scal_r. apply Qsum_eq. intros a _.
  rewrite <- Qsum_scal_l. reflexivity.
Qed.

Lemma Qsum4_reorder (n m : nat) (f : nat -> nat -> nat -> nat -> Q) :
  Qsum n (fun s => Qsum n (fun r => Qsum m (fun a => Qsum m (fun b =>
    f s r a b))))
  == Qsum m (fun a => Qsum m (fun b => Qsum n (fun r => Qsum n (fun s =>
    f s r a b)))).
Proof.
  rewrite (Qsum_swap n n (fun s r => Qsum m (fun a => Qsum m (fun b =>
             f s r a b)))).
  transitivity (Qsum n (fun r => Qsum m (fun a => Qsum n (fun s =>
                  Qsum m (fun b => f s r a b))))).
  { apply Qsum_eq. intros r _.
    apply (Qsum_swap n m (fun s a => Qsum m (fun b => f s r a b))). }
  rewrite (Qsum_swap n m (fun r a => Qsum n (fun s => Qsum m (fun b =>
             f s r a b)))).
  apply Qsum_eq. intros a _.
  transitivity (Qsum n (fun r => Qsum m (fun b => Qsum n (fun s =>
                  f s r a b)))).
  { apply Qsum_eq. intros r _.
    apply (Qsum_swap n m (fun s b => f s r a b)). }
  apply (Qsum_swap n m (fun r b => Qsum n (fun s => f s r a b))).
Qed.

(** X14. The density is a projector in the metric of the overlap.  When the
    first [norb] columns of the coefficient matrix that [diag_F] returns
    are orthonormal in that metric, sum over r, s of C[r,a] S[r,s] C[s,b]
    being 1 for a = b and 0 otherwise, the density that it returns
    satisfies D.S.D = D entry by entry. *)
Theorem density_idempotent (np : numlib) (sq : statics) (F : mat)
  (norb n : nat) :
  is_mat n n (A sq) -> is_mat n n (S_ovlp sq) ->
  is_mat n n (snd (eigh np (dot (dot (A sq) F) (A sq)))) ->
  (norb <= n)%nat ->
  (forall a b, (a < norb)%nat -> (b < norb)%nat ->
     Qsum n (fun r => Qsum n (fun s =>
       mget (fst (diag_F np sq F norb)) r a * mget (S_ovlp sq) r s
       * mget (fst (diag_F np sq F norb)) s b))
     == if (a =? b)%nat then 1 else 0) ->
  forall p q, (p < n)%nat -> (q < n)%nat ->
    mget (dot (dot (snd (diag_F np sq F norb)) (S_ovlp sq))
              (snd (diag_F np sq F norb))) p q
    == mget (snd (diag_F np sq F norb)) p q.
Proof.
  intros HA HS HCp Hn Horth p q Hp Hq.
  set (C := fst (diag_F np sq F norb)) in *.
  set (D := snd (diag_F np sq F norb)).
  assert (HD : is_mat n n D).
  { destruct (diag_F_density np sq F norb) as (_ & HD & _).
    assert (HnA : nrows (A sq) = n) by apply HA.
    rewrite HnA in HD. exact HD. }
  assert (ED : forall i j, (i < n)%nat -> (j < n)%nat ->
            mget D i j = Qsum norb (fun a => mget C i a * mget C j a)).
  { intros i j Hi Hj.
    apply (density_entries np sq F norb n i j); assumption. }
  rewrite (mget_dot_sq n (dot D (S_ovlp sq)) D p q)
    by (try apply is_mat_dot_sq; assumption).
  transitivity (Qsum n (fun s => Qsum n (fun r => Qsum norb (fun a =>
                  Qsum norb (fun b =>
                    mget C p a * (mget C r a * mget (S_ovlp sq) r s
                                  * mget C s b) * mget C q b))))).
  { apply Qsum_eq. intros s Hs.
    rewrite (mget_dot_sq n D (S_ovlp sq) p s) by assumption.
    rewrite <- Qsum_scal_r. apply Qsum_eq. intros r Hr.
    rewrite (ED p r Hp Hr), (ED s q Hs Hq).
    rewrite Qsum_prod3. apply Qsum_eq. intros a _. apply Qsum_eq. intros b _.
    ring. }
  rewrite (Qsum4_reorder n norb (fun s r a b =>
             mget C p a * (mget C r a * mget (S_ovlp sq) r s * mget C s b)
             * mget C q b)).
  rewrite (ED p q Hp Hq). apply Qsum_eq. intros a Ha.
  transitivity (Qsum norb (fun b =>
                  if (b =? a)%nat then mget C p a * mget C q b else 0)).
  { apply Qsum_eq. intros b Hb.
    transitivity (mget C p a
                  * Qsum n (fun r => Qsum n (fun s =>
                      mget C r a * mget (S_ovlp sq) r s * mget C s b))
                  * mget C q b).
    { rewrite <- Qsum_scal_l, <- Qsum_scal_r. apply Qsum_eq. intros r _.
      rewrite <- Qsum_scal_l, <- Qsum_scal_r. reflexivity. }
    rewrite (Horth a b Ha Hb). rewrite (Nat.eqb_sym b a).
    destruct (a =? b)%nat; ring. }
  apply (Qsum_delta norb a (fun b => mget C p a * mget C q b) Ha).
Qed.

(** The core guess of the flipping molecule, with one occupied orbital. *)
Lemma density_idempotent_witness :
  mget (dot (dot (snd (diag_F TwoLevel.np (statics_of TwoLevel.flipping)
                         (H (statics_of TwoLevel.flipping)) 1))
                 (S_ovlp (statics_of TwoLevel.flipping)))
            (snd (diag_F TwoLevel.np (statics_of TwoLevel.flipping)
                    (H (statics_of TwoLevel.flipping)) 1))) 0 0
  == mget (snd (diag_F TwoLevel.np (statics_of TwoLevel.flipping)
                  (H (statics_of TwoLevel.flipping)) 1)) 0 0.
Proof.
  apply (density_idempotent TwoLevel.np (statics_of TwoLevel.flipping)
           (H (statics_of TwoLevel.flipping)) 1 2).
  - split; repeat constructor.
  - split; repeat constructor.
  - split; repeat constructor.
  - lia.
  - intros a b Ha Hb. assert (a = 0%nat) as -> by lia.
    assert (b = 0%nat) as -> by lia. vm_compute. reflexivity.
  - lia.
  - lia.
Defined.

(** ** DIIS in exact arithmetic *)

Lemma vget_build_rhs (k : nat) :
  vget (build_rhs (k + 1)) k = -(1).
Proof.
  unfold build_rhs, vget. replace (k + 1 - 1)%nat with k by lia.
  rewrite nth_set_nth, Nat.eqb_refl, length_tabulate.
  replace (k <? k + 1)%nat with true by (symmetry; apply Nat.ltb_lt; lia).
  reflexivity.
Qed.

(** The last of the Pulay equations is the constraint that the
    coefficients of the trial vectors sum to 1. *)
Lemma pulay_constraint (F_list DIIS_RESID : list mat) (coeff : vec) :
  solves (build_B F_list DIIS_RESID) coeff (build_rhs (length F_list + 1)) ->
  Qsum (length F_list) (fun x => vget coeff x) == 1.
Proof.
  intros Hs. set (k := length F_list) in *.
  assert (HB : nrows (build_B F_list DIIS_RESID) = S k).
  { destruct (build_B_spec F_list DIIS_RESID 0 0) as [[Hn _] _];
      try (fold k; lia). unfold nrows. fold k in Hn. lia. }
  specialize (Hs k). rewrite HB in Hs. specialize (Hs (Nat.lt_succ_diag_r k)).
  rewrite vget_build_rhs in Hs. simpl Qsum in Hs.
  assert (Hlast : mget (build_B F_list DIIS_RESID) k k = 0).
  { destruct (build_B_spec F_list DIIS_RESID k k) as [_ ->];
      try (fold k; lia).
    fold k. rewrite Nat.ltb_irrefl, Nat.eqb_refl. reflexivity. }
  rewrite Hlast in Hs.
  assert (Hrow : Qsum k (fun j => mget (build_B F_list DIIS_RESID) k j
                                  * vget coeff j)
                 == Qsum k (fun j => - vget coeff j)).
  { apply Qsum_eq. intros j Hj.
    destruct (build_B_spec F_list DIIS_RESID k j) as [_ ->];
      try (fold k; lia).
    fold k. rewrite Nat.ltb_irrefl. simpl andb.
    replace (j =? k)%nat with false by (symmetry; apply Nat.eqb_neq; lia).
    rewrite andb_false_r. ring. }
  rewrite Hrow, Qsum_opp in Hs.
  rewrite <- (Qopp_involutive (Qsum k _)), <- (Qopp_involutive 1).
  apply Qopp_comp. rewrite <- Hs.
  change (Qsum k (fun x => vget coeff x)) with (Qsum k (vget coeff)). ring.
Qed.

(** X4. DIIS returns an affine combination.  For a history of trial
    vectors of one shape with a residual for each: when the coefficients
    that the solve returns satisfy the Pulay equations, as the solution in
    exact arithmetic does, the coefficients of the trial vectors sum to 1,
    and wherever all trial vectors have the same entry the extrapolated
    matrix has that entry. *)
Theorem diis_xtrap_affine (np : numlib) (F_list DIIS_RESID : list mat)
  (coeff : vec) (n m : nat) :
  Forall (is_mat n m) F_list ->
  (length F_list <= length DIIS_RESID)%nat ->
  solve np (build_B F_list DIIS_RESID) (build_rhs (length F_list + 1))
  = Ok coeff ->
  solves (build_B F_list DIIS_RESID) coeff (build_rhs (length F_list + 1)) ->
  Qsum (length F_list) (fun x => vget coeff x) == 1 /\
  exists F_DIIS,
    diis_xtrap np F_list DIIS_RESID = Ok F_DIIS /\
    forall i j v, (i < n)%nat -> (j < m)%nat ->
      (forall x, (x < length F_list)%nat ->
         mget (nth x F_list []) i j == v) ->
      mget F_DIIS i j == v.
Proof.
  intros HF Hlen Hs Hex.
  pose proof (pulay_constraint F_list DIIS_RESID coeff Hex) as Hsum.
  split; [exact Hsum|].
  destruct (diis_xtrap_sum np F_list DIIS_RESID coeff n m HF Hlen Hs)
    as (X & HX & _ & _ & Hent).
  exists X. split; [exact HX|]. intros i j v Hi Hj Hv.
  rewrite (Hent i j Hi Hj).
  transitivity (Qsum (length F_list) (fun x => vget coeff x * v)).
  - apply Qsum_eq. intros x Hx. rewrite (Hv x Hx). reflexivity.
  - rewrite Qsum_scal_r, Hsum. ring.
Qed.

(** Two 1-by-1 trial vectors with the residuals 1 and -1: the coefficients
    are 1/2 and 1/2. *)
Lemma diis_xtrap_affine_witness :
  Qsum 2 (fun x =>
    vget (match solve TwoLevel.np (build_B [[[2]]; [[4]]] [[[1]]; [[-(1)]]])
                  (build_rhs 3) with
          | Ok c => c
          | Raised _ => []
          end) x) == 1.
Proof.
  destruct (diis_xtrap_affine TwoLevel.np [[[2]]; [[4]]] [[[1]]; [[-(1)]]]
              (match solve TwoLevel.np
                       (build_B [[[2]]; [[4]]] [[[1]]; [[-(1)]]])
                       (build_rhs 3) with
               | Ok c => c
               | Raised _ => []
               end) 1 1) as [Hsum _].
  - repeat constructor.
  - simpl. lia.
  - vm_compute. reflexivity.
  - intros i Hi. change (i < 3)%nat in Hi.
    destruct i as [|[|[|i]]]; [vm_compute; reflexivity ..|lia].
  - exact Hsum.
Defined.

(** X2. DIIS on a history of one trial vector, in exact arithmetic.  The
    matrix B is [[<R,R>, -1], [-1, 0]]; its determinant is -1 whatever the
    residual is, so the Pulay equations have one solution, [1, <R,R>].
    When the coefficients that the solve returns satisfy the equations,
    the first is 1 and [diis_xtrap] returns the trial vector, entry by
    entry. *)
Theorem single_vector_exact (np : numlib) (F R : mat) (coeff : vec) :
  solve np (build_B [F] [R]) (build_rhs 2) = Ok coeff ->
  solves (build_B [F] [R]) coeff (build_rhs 2) ->
  build_B [F] [R] = [[einsum_ij_ij R R; -(1)]; [-(1); 0]] /\
  det (build_B [F] [R]) == -(1) /\
  vget coeff 0 == 1 /\ vget coeff 1 == einsum_ij_ij R R /\
  exists F_DIIS, diis_xtrap np [F] [R] = Ok F_DIIS /\ mat_eq F_DIIS F.
Proof.
  intros Hs Hex.
  assert (HB : build_B [F] [R] = [[einsum_ij_ij R R; -(1)]; [-(1); 0]])
    by reflexivity.
  split; [exact HB|]. split.
  { rewrite HB. unfold det. simpl. unfold mget, sign. simpl. ring. }
  assert (H0 : vget coeff 0 == 1).
  { pose proof (pulay_constraint [F] [R] coeff Hex) as Hsum.
    simpl in Hsum. rewrite <- Hsum. ring. }
  assert (H1 : vget coeff 1 == einsum_ij_ij R R).
  { specialize (Hex 0%nat). rewrite HB in Hex. specialize (Hex (Nat.lt_0_2)).
    revert Hex. unfold nrows, mget, build_rhs, vget at 3. simpl.
    intros Hex. rewrite H0 in Hex.
    rewrite <- (Qplus_0_r (vget coeff 1)), <- Hex. ring. }
  split; [exact H0|]. split; [exact H1|].
  rewrite (diis_xtrap_returns np [F] [R] coeff Hs). eexists.
  split; [reflexivity|].
  unfold combine_F. rewrite (solve_length np _ _ _ Hs), HB. simpl.
  apply (zeros_plus_scaled _ F). exact H0.
Qed.

(** The trial vector [[3]] with the residual [[2]]: B is
    [[4, -1], [-1, 0]] and the coefficients are 1 and 4. *)
Lemma single_vector_exact_witness :
  exists F_DIIS,
    diis_xtrap TwoLevel.np [[[3]]] [[[2]]] = Ok F_DIIS /\
    mat_eq F_DIIS [[3]].
Proof.
  destruct (single_vector_exact TwoLevel.np [[3]] [[2]]
              (match solve TwoLevel.np (build_B [[[3]]] [[[2]]])
                       (build_rhs 2) with
               | Ok c => c
               | Raised _ => []
               end)) as (_ & _ & _ & _ & HX).
  - vm_compute. reflexivity.
  - intros i Hi. change (i < 2)%nat in Hi.
    destruct i as [|[|i]]; [vm_compute; reflexivity ..|lia].
  - exact HX.
Defined.

(** ** No validation of the configuration *)

Lemma residual_shape (n : nat) (F D S X : mat) :
  is_mat n n F -> is_mat n n D -> is_mat n n S -> is_mat n n X ->
  is_mat n n (dot (dot X (msub (dot (dot F D) S) (dot (dot S D) F))) X).
Proof.
  intros HF HD HS HX.
  assert (HP : is_mat n n (dot (dot F D) S))
    by (repeat apply is_mat_dot_sq; assumption).
  assert (HQ : is_mat n n (dot (dot S D) F))
    by (repeat apply is_mat_dot_sq; assumption).
  repeat apply is_mat_dot_sq; try assumption.
  apply is_mat_zip_with; assumption.
Qed.

(** C9, as the code has it.  The notebook validates nothing: the memory
    check is the only check of cell 10.  For the arrays of [n] basis
    functions that Psi4 delivers, square matrices of side [n] and an n^4
    tensor, symmetric or not, with any occupation counts and any
    tolerances: when the memory check passes the setup succeeds, every
    pass that the loop gets to works on densities, Fock matrices and
    residuals of the shape (n, n), and for a positive [MAXITER] the first
    pass is run.  With a non-positive energy tolerance, or a non-positive
    density tolerance and a square root that is never negative, the
    convergence test never succeeds, and the run ends with an exception
    raised in the loop. *)
Theorem no_configuration_check (np : numlib) (opt : options) (psi : psi4)
  (n : nat) :
  well_shaped n psi ->
  (forall X, is_mat n n X -> is_mat n n (snd (eigh np X))) ->
  eri_size (nso psi) <= numpy_memory opt ->
  (1 <= MAXITER opt)%nat ->
  let sq := statics_of psi in
  let st0 := pre_iteration np psi sq in
  setup opt psi [] = (events_before_check psi ++ events_after_check, Ok sq) /\
  (is_mat n n (H sq) /\ is_mat n n (Ca st0) /\ is_mat n n (Cb st0)) /\
  (forall k st, reaches np opt psi sq k st ->
     is_mat n n (Da st) /\ is_mat n n (Db st) /\
     is_mat n n (Fa (scf_head np sq k st)) /\
     is_mat n n (Fb (scf_head np sq k st)) /\
     is_mat n n (diis_r_a (scf_head np sq k st)) /\
     is_mat n n (diis_r_b (scf_head np sq k st))) /\
  (1 <= iterations_run (fst (run np opt psi)))%nat /\
  (E_conv opt <= 0 \/ (D_conv opt <= 0 /\ forall x, 0 <= sqrt_half np x) ->
   snd (run np opt psi) = Raised MaxIterExceeded \/
   snd (run np opt psi) = Raised LinAlgError).
Proof.
  intros (Hn & Hnso & HS & HT & HV & HA & HI) Heigh Hmem Hmax sq st0.
  apply Qltb_false_of_le in Hmem.
  split; [rewrite setup_cases, Hmem; reflexivity|].
  assert (HH : is_mat n n (H sq)) by (apply is_mat_zip_with; assumption).
  assert (HAq : is_mat n n (A sq)) by exact HA.
  assert (HSq : is_mat n n (S_ovlp sq)) by exact HS.
  assert (HIq : is_tensor4 n (I_eri sq)) by exact HI.
  assert (HC : forall F norb, is_mat n n F ->
                 is_mat n n (fst (diag_F np sq F norb))).
  { intros F norb HF. rewrite diag_F_unfold. cbn [fst].
    apply is_mat_dot_sq; [exact HAq|]. apply Heigh.
    repeat apply is_mat_dot_sq; assumption. }
  split.
  { split; [exact HH|].
    destruct (pre_iteration_fields np psi sq)
      as (_ & _ & _ & _ & _ & _ & Ha & Hb & _).
    fold st0 in Ha, Hb.
    replace (Ca st0) with (fst (diag_F np sq (H sq) (nalpha sq)))
      by (rewrite <- Ha; reflexivity).
    replace (Cb st0) with (fst (diag_F np sq (H sq) (nbeta sq)))
      by (rewrite <- Hb; reflexivity).
    split; apply HC; exact HH. }
  split.
  { intros k st Hr.
    destruct (reaches_density np opt psi sq k st Hr) as (HDa & _ & HDb & _).
    assert (HnA : nrows (A sq) = n) by apply HAq. rewrite HnA in HDa, HDb.
    destruct (head_fock np sq k st n HH HIq Hn) as (HFa & HFb & _).
    split; [exact HDa|]. split; [exact HDb|].
    split; [exact HFa|]. split; [exact HFb|].
    split.
    - change (diis_r_a (scf_head np sq k st))
        with (dot (dot (A sq)
                (msub (dot (dot (Fa (scf_head np sq k st)) (Da st))
                         (S_ovlp sq))
                      (dot (dot (S_ovlp sq) (Da st))
                         (Fa (scf_head np sq k st))))) (A sq)).
      apply residual_shape; assumption.
    - change (diis_r_b (scf_head np sq k st))
        with (dot (dot (A sq)
                (msub (dot (dot (Fb (scf_head np sq k st)) (Db st))
                         (S_ovlp sq))
                      (dot (dot (S_ovlp sq) (Db st))
                         (Fb (scf_head np sq k st))))) (A sq)).
      apply residual_shape; assumption. }
  rewrite run_cases, Hmem. cbv zeta. fold sq.
  pose proof (scf_loop_iterations np opt sq (MAXITER opt) 1
                (pre_iteration np psi sq)) as Hit.
  fold (scf_iterations np opt psi sq) in Hit.
  destruct (MAXITER opt) as [|m] eqn:HM; [lia|]. rewrite <- HM in *.
  split.
  - destruct (scf_iterations np opt psi sq);
      cbn [final_state] in Hit; cbn [fst];
      rewrite !iterations_run_app; lia.
  - intros Hbad.
    destruct (scf_iterations np opt psi sq)
      as [k st|st|k e st] eqn:Hl; unfold scf_iterations in Hl.
    + apply scf_loop_broke in Hl. destruct Hl as (_ & Hc & st' & ->).
      rewrite (never_converged np opt sq Hbad) in Hc.
      discriminate.
    + exfalso. apply scf_loop_not_exhausted in Hl; [exact Hl | lia | lia].
    + apply scf_loop_failed_kind in Hl. cbn [snd].
      destruct Hl as [-> | ->]; auto.
Qed.

Lemma stable_well_shaped : well_shaped 2 TwoLevel.stable.
Proof.
  unfold well_shaped. split; [lia|]. split; [reflexivity|].
  repeat split; repeat constructor.
Qed.

Lemma eigh_diag2_shape (X : mat) : is_mat 2 2 (snd (eigh TwoLevel.np X)).
Proof.
  simpl. unfold TwoLevel.eigh_diag2.
  destruct (Qle_bool (mget X 0 0) (mget X 1 1)); split; repeat constructor.
Qed.

(** The stable molecule with the tolerances 0 and -0.001. *)
Lemma no_configuration_check_witness :
  setup TwoLevel.bad_tolerances TwoLevel.stable []
  = (events_before_check TwoLevel.stable ++ events_after_check,
     Ok (statics_of TwoLevel.stable)) /\
  (1 <= iterations_run
          (fst (run TwoLevel.np TwoLevel.bad_tolerances TwoLevel.stable)))%nat.
Proof.
  destruct (no_configuration_check TwoLevel.np TwoLevel.bad_tolerances
              TwoLevel.stable 2 stable_well_shaped
              (fun X _ => eigh_diag2_shape X)) as (Hsetup & _ & _ & Hiter & _).
  - vm_compute. discriminate.
  - simpl. lia.
  - split; [exact Hsetup | exact Hiter].
Defined.

(** C9, counterexample.  The options with the energy tolerance 0 and the
    density tolerance -0.001 are not rejected: the setup succeeds and the
    run of the stable molecule works through two passes of the loop before
    it ends, with [LinAlgError]. *)
Lemma bad_tolerances_not_rejected :
  E_conv TwoLevel.bad_tolerances <= 0 /\
  D_conv TwoLevel.bad_tolerances <= 0 /\
  snd (setup TwoLevel.bad_tolerances TwoLevel.stable [])
  = Ok (statics_of TwoLevel.stable) /\
  iterations_run
    (fst (run TwoLevel.np TwoLevel.bad_tolerances TwoLevel.stable)) = 2%nat /\
  snd (run TwoLevel.np TwoLevel.bad_tolerances TwoLevel.stable)
  = Raised LinAlgError /\
  ~ (forall opt psi,
       E_conv opt <= 0 \/ D_conv opt <= 0 ->
       iterations_run (fst (run TwoLevel.np opt psi)) = 0%nat).
Proof.
  split; [vm_compute; discriminate|]. split; [vm_compute; discriminate|].
  split; [vm_compute; reflexivity|].
  assert (Hrun : iterations_run
            (fst (run TwoLevel.np TwoLevel.bad_tolerances TwoLevel.stable))
          = 2%nat) by (vm_compute; reflexivity).
  split; [exact Hrun|]. split; [vm_compute; reflexivity|].
  intros Hclaim.
  specialize (Hclaim TwoLevel.bad_tolerances TwoLevel.stable).
  rewrite Hrun in Hclaim. discriminate Hclaim.
  left. vm_compute. discriminate.
Qed.
